(** * SSINS match filter ([SSINS/match_filter.py], class [MF])

    A shallow embedding of the match filter and of the part of the
    incoherent noise spectrum ([INS]) it reads and writes, followed by the
    listing of package files of [setup.py].

    Modelling conventions.
    - numpy [float64] values are idealised as real numbers ([R]); no
      rounding, no NaN.
    - a numpy masked array of shape (Ntimes, Nfreqs, Npols) is a total
      function from indices to [option R] ([None] is a masked cell)
      together with the three dimensions kept in the [INS] record; every
      reduction, search and count ranges over the dimensions only, so the
      cells beyond them are never read.
    - a Python [dict] is an insertion-ordered association list.
    - a Python exception is a value of [exn]; code that mutates the [INS]
      and may raise is a function from the [INS] to an outcome and the
      [INS] as the exception leaves it. *)

From Stdlib Require Import Reals Lra Lia List Ascii String Bool Arith ZArith.
From Stdlib Require Import FunctionalExtensionality.
Import ListNotations.

Open Scope R_scope.

(** ** Exceptions and fallible computations *)

Inductive exn : Set :=
| ValueError
| KeyError
| TypeError
| AttributeError
| UnboundLocalError
| ZeroDivisionError.

Inductive result (A : Type) : Type :=
| Ok (a : A)
| Err (e : exn).

Arguments Ok {A} a.
Arguments Err {A} e.

Definition rbind {A B : Type} (r : result A) (k : A -> result B) : result B :=
  match r with
  | Ok a => k a
  | Err e => Err e
  end.

Notation "x <- c ;; k" := (rbind c (fun x => k))
  (at level 61, c at next level, right associativity).

(** ** Comparisons of reals as booleans *)

Definition Rltb (a b : R) : bool := if Rlt_dec a b then true else false.
Definition Rleb (a b : R) : bool := if Rle_dec a b then true else false.
Definition Rgtb (a b : R) : bool := Rltb b a.
Definition Rgeb (a b : R) : bool := Rleb b a.
Definition Reqb (a b : R) : bool := if Req_dec_T a b then true else false.

(** ** Insertion-ordered dictionaries with string keys *)

Module Dict.

Definition t (V : Type) : Type := list (string * V).

Definition keys {V : Type} (d : t V) : list string := map fst d.

Fixpoint get {V : Type} (d : t V) (k : string) : option V :=
  match d with
  | [] => None
  | (k', v) :: d' => if String.eqb k' k then Some v else get d' k
  end.

(** [d[k] = v]: an existing key keeps its position, a new key goes last. *)
Fixpoint set {V : Type} (d : t V) (k : string) (v : V) : t V :=
  match d with
  | [] => [(k, v)]
  | (k', v') :: d' =>
      if String.eqb k' k then (k', v) :: d' else (k', v') :: set d' k v
  end.

Definition mem {V : Type} (d : t V) (k : string) : bool :=
  match get d k with
  | Some _ => true
  | None => false
  end.

(** [d[k]] as an expression: a missing key raises [KeyError]. *)
Definition item {V : Type} (d : t V) (k : string) : result V :=
  match get d k with
  | Some v => Ok v
  | None => Err KeyError
  end.

End Dict.

(** ** Slices and frequency axes *)

(** [slice(start, stop)] with non-negative bounds. *)
Record slice : Set := Slice { start : nat; stop : nat }.

(** Python's [min] and [max] of a sequence; an empty one raises. *)
Definition py_min (l : list R) : result R :=
  match l with
  | [] => Err ValueError
  | x :: l' => Ok (fold_left Rmin l' x)
  end.

Definition py_max (l : list R) : result R :=
  match l with
  | [] => Err ValueError
  | x :: l' => Ok (fold_left Rmax l' x)
  end.

(** [np.argmin]: the first index of the least element. *)
Fixpoint argmin_from (l : list R) (i best : nat) (bv : R) : nat :=
  match l with
  | [] => best
  | y :: l' =>
      if Rltb y bv then argmin_from l' (S i) i y
      else argmin_from l' (S i) best bv
  end.

Definition argmin (l : list R) : result nat :=
  match l with
  | [] => Err ValueError
  | y :: l' => Ok (argmin_from l' 1 0 y)
  end.

(** [np.abs(freq_array - x)] *)
Definition abs_dist (freq_array : list R) (x : R) : list R :=
  map (fun v => Rabs (v - x)) freq_array.

(** ** The shape resolver, [MF._shape_slicer] *)

Section ShapeSlicer.

(** The attributes of [self] that [_shape_slicer] reads. *)
Variable freq_array : list R.
Variable shape_dict : Dict.t (R * R).
Variable broadcast_dict : option (Dict.t (R * R)).

(** [getattr(self, input_dict)], iterated as a dictionary. *)
Definition getattr_dict (input_dict : string) : result (Dict.t (R * R)) :=
  if String.eqb input_dict "shape_dict" then Ok shape_dict
  else if String.eqb input_dict "broadcast_dict" then
    match broadcast_dict with
    | Some d => Ok d
    | None => Err TypeError
    end
  else Err AttributeError.

(** The body of the loop for one shape whose value is the two-element
    sequence [(a, b)]: [lo] is its [min], [hi] its [max]. *)
Definition resolve_shape (slice_dict : Dict.t (option slice))
    (shape : string) (bounds : R * R) : result (Dict.t (option slice)) :=
  let lo := Rmin (fst bounds) (snd bounds) in
  let hi := Rmax (fst bounds) (snd bounds) in
  fmin <- py_min freq_array ;;
  fmax <- py_max freq_array ;;
  if Rleb fmin lo || Rgeb fmax hi then
    min_chan <- argmin (abs_dist freq_array lo) ;;
    max_chan <- argmin (abs_dist freq_array hi) ;;
    let min_chan :=
      if Rgtb (nth min_chan freq_array 0 - lo) 0 && (0 <? min_chan)%nat
      then (min_chan - 1)%nat else min_chan in
    let max_chan :=
      if Rleb (nth max_chan freq_array 0 - hi) 0
      then (max_chan + 1)%nat else max_chan in
    Ok (Dict.set slice_dict shape (Some (Slice min_chan max_chan)))
  else Ok slice_dict.

Fixpoint resolve_shapes (slice_dict : Dict.t (option slice))
    (items : Dict.t (R * R)) : result (Dict.t (option slice)) :=
  match items with
  | [] => Ok slice_dict
  | (shape, bounds) :: items' =>
      slice_dict' <- resolve_shape slice_dict shape bounds ;;
      resolve_shapes slice_dict' items'
  end.

Definition _shape_slicer (narrow streak : bool) (input_dict : string)
  : result (Dict.t (option slice)) :=
  d <- getattr_dict input_dict ;;
  slice_dict <- resolve_shapes [] d ;;
  let slice_dict :=
    if narrow then Dict.set slice_dict "narrow" None else slice_dict in
  let slice_dict :=
    if streak
    then Dict.set slice_dict "streak" (Some (Slice 0 (List.length freq_array)))
    else slice_dict in
  Ok slice_dict.

(** *** Calling [_shape_slicer]

    The signature is [(self, narrow, streak, input_dict="shape_dict")].
    Binding the arguments of a call follows Python: positional arguments
    fill the parameters from the left, a keyword must name a parameter
    that is not bound yet, and every parameter without a default must end
    up bound; anything else raises [TypeError]. *)

Inductive pyval : Set :=
| PBool (b : bool)
| PStr (s : string).

Definition _shape_slicer_params : list string :=
  ["narrow"; "streak"; "input_dict"]%string.

Definition _shape_slicer_defaults : Dict.t pyval :=
  [("input_dict", PStr "shape_dict")]%string.

Fixpoint bind_positional (params : list string) (args : list pyval)
  : result (Dict.t pyval) :=
  match args, params with
  | [], _ => Ok []
  | _ :: _, [] => Err TypeError
  | a :: args', p :: params' =>
      b <- bind_positional params' args' ;;
      Ok ((p, a) :: b)
  end.

Fixpoint bind_keywords (params : list string) (bound : Dict.t pyval)
    (kwargs : Dict.t pyval) : result (Dict.t pyval) :=
  match kwargs with
  | [] => Ok bound
  | (k, v) :: kwargs' =>
      if existsb (String.eqb k) params && negb (Dict.mem bound k)
      then bind_keywords params (Dict.set bound k v) kwargs'
      else Err TypeError
  end.

Definition lookup_param (bound defaults : Dict.t pyval) (p : string)
  : result pyval :=
  match Dict.get bound p with
  | Some v => Ok v
  | None =>
      match Dict.get defaults p with
      | Some v => Ok v
      | None => Err TypeError
      end
  end.

Definition as_bool (v : pyval) : bool :=
  match v with
  | PBool b => b
  | PStr s => negb (String.eqb s "")
  end.

Definition as_str (v : pyval) : result string :=
  match v with
  | PStr s => Ok s
  | PBool _ => Err TypeError
  end.

Definition call__shape_slicer (args : list pyval) (kwargs : Dict.t pyval)
  : result (Dict.t (option slice)) :=
  pos <- bind_positional _shape_slicer_params args ;;
  bound <- bind_keywords _shape_slicer_params pos kwargs ;;
  narrow <- lookup_param bound _shape_slicer_defaults "narrow" ;;
  streak <- lookup_param bound _shape_slicer_defaults "streak" ;;
  input_dict <- lookup_param bound _shape_slicer_defaults "input_dict" ;;
  name <- as_str input_dict ;;
  _shape_slicer (as_bool narrow) (as_bool streak) name.

End ShapeSlicer.

Notation "' pat <- c ;; k" :=
  (rbind c (fun x => match x with pat => k end))
  (at level 61, pat pattern, c at next level, right associativity).

(** ** The filter object and its constructor *)

(** [sig_thresh] is a dictionary or a number. *)
Inductive thresh_arg : Type :=
| ThreshDict (d : Dict.t R)
| ThreshNum (r : R).

Record MF : Type := mkMF {
  freq_array : list R;
  shape_dict : Dict.t (R * R);
  sig_thresh : Dict.t R;
  N_samp_thresh : R;
  slice_dict : Dict.t (option slice);
  broadcast_dict : option (Dict.t (R * R));
  broadcast_slc_dict : Dict.t (option slice)
}.

(** The [else] branch of the threshold set-up: one entry per shape. *)
Definition broadcast_thresh (slice_dict : Dict.t (option slice)) (r : R)
  : Dict.t R :=
  fold_left (fun d shape => Dict.set d shape r) (Dict.keys slice_dict) [].

(** [MF.__init__].  The parameters with defaults are passed explicitly;
    the defaults are [shape_dict = {}], [N_samp_thresh = 0],
    [narrow = True], [streak = True], [broadcast_dict = {}] and
    [broadcast_streak = False]. *)
Definition __init__ (freq_array : list R) (sig_thresh : thresh_arg)
    (shape_dict : Dict.t (R * R)) (N_samp_thresh : R)
    (narrow streak : bool) (broadcast_dict : option (Dict.t (R * R)))
    (broadcast_streak : bool) : result MF :=
  if match shape_dict with [] => true | _ => false end
     && negb narrow && negb streak
  then Err ValueError
  else
    slice_dict <-
      call__shape_slicer freq_array shape_dict broadcast_dict
        [PBool narrow; PBool streak; PStr "shape_dict"] [] ;;
    sig_thresh <-
      match sig_thresh with
      | ThreshDict d =>
          if forallb (Dict.mem d) (Dict.keys slice_dict)
          then Ok d else Err KeyError
      | ThreshNum r => Ok (broadcast_thresh slice_dict r)
      end ;;
    broadcast_slc_dict <-
      call__shape_slicer freq_array shape_dict broadcast_dict
        [PBool false; PBool broadcast_streak]
        [("input_dict", PStr "broadcast_dict");
         ("check_overlap", PBool true)]%string ;;
    Ok (mkMF freq_array shape_dict sig_thresh N_samp_thresh slice_dict
          broadcast_dict broadcast_slc_dict).

(** ** The noise spectrum *)

(** A masked array: [None] is a masked cell.  Indices are
    (time, frequency, polarization). *)
Definition marray : Type := nat -> nat -> nat -> option R.

(** The 4-tuple [(t, f, shape, sig)] the flagger passes around; [sig] is
    [None] in the event the sample-threshold test derives. *)
Record event : Type := Event {
  ev_t : slice;
  ev_f : slice;
  ev_shape : string;
  ev_sig : option R
}.

(** An entry of [match_events]: a 4-tuple, or the 3-tuple of a
    frequency broadcast. *)
Inductive logged : Type :=
| Logged4 (e : event)
| Logged3 (t f : slice) (name : string).

(** The attributes of the [INS] the filter touches.  [Ntimes] is also the
    first dimension of the three arrays. *)
Record INS : Type := mkINS {
  Ntimes : nat;
  Nfreqs : nat;
  Npols : nat;
  metric_array : marray;
  metric_ms : marray;
  sig_array : marray;
  match_events : list logged
}.

Definition set_metric_array (ins : INS) (a : marray) : INS :=
  mkINS (Ntimes ins) (Nfreqs ins) (Npols ins) a (metric_ms ins)
        (sig_array ins) (match_events ins).

Definition set_metric_ms (ins : INS) (a : marray) : INS :=
  mkINS (Ntimes ins) (Nfreqs ins) (Npols ins) (metric_array ins) a
        (sig_array ins) (match_events ins).

Definition set_sig_array (ins : INS) (a : marray) : INS :=
  mkINS (Ntimes ins) (Nfreqs ins) (Npols ins) (metric_array ins)
        (metric_ms ins) a (match_events ins).

Definition append_event (ins : INS) (e : logged) : INS :=
  mkINS (Ntimes ins) (Nfreqs ins) (Npols ins) (metric_array ins)
        (metric_ms ins) (sig_array ins) (match_events ins ++ [e]).

(** *** Indexing *)

Definition in_slice (s : slice) (i : nat) : bool :=
  (start s <=? i)%nat && (i <? stop s)%nat.

(** The indices a slice selects on an axis of length [n]. *)
Definition sel (s : slice) (n : nat) : list nat :=
  seq (start s) (Nat.min (stop s) n - start s).

(** [a[ts, fs] = np.ma.masked] *)
Definition mask_region (ts fs : slice) (a : marray) : marray :=
  fun t f p => if in_slice ts t && in_slice fs f then None else a t f p.

(** [a[:, fs] = np.ma.masked] *)
Definition mask_channels (fs : slice) (a : marray) : marray :=
  fun t f p => if in_slice fs f then None else a t f p.

(** [a[:, fs] = b], with [b] indexed like [a]. *)
Definition assign_channels (fs : slice) (b a : marray) : marray :=
  fun t f p => if in_slice fs f then b t f p else a t f p.

Definition is_masked (a : marray) (t f p : nat) : bool :=
  match a t f p with
  | None => true
  | Some _ => false
  end.

(** The cells of the cube in C order, as [np.unravel_index] numbers them. *)
Definition cells (ins : INS) : list (nat * nat * nat) :=
  flat_map (fun t =>
    flat_map (fun f =>
      map (fun p => (t, f, p)) (seq 0 (Npols ins)))
      (seq 0 (Nfreqs ins)))
    (seq 0 (Ntimes ins)).

(** The (time, polarization) pairs in C order. *)
Definition time_pols (ins : INS) : list (nat * nat) :=
  flat_map (fun t => map (fun p => (t, p)) (seq 0 (Npols ins)))
    (seq 0 (Ntimes ins)).

(** [argmax] of a masked array, composed with [np.unravel_index]: masked
    entries are filled with the least value, so the result is the first
    unmasked entry of greatest value, or the first entry when all are
    masked; an empty array raises. *)
Fixpoint argmax_from {K : Type} (val : K -> option R) (keys : list K)
    (best : K) (bv : option R) : K :=
  match keys with
  | [] => best
  | k :: ks =>
      match val k, bv with
      | Some v, Some b =>
          if Rltb b v then argmax_from val ks k (Some v)
          else argmax_from val ks best bv
      | Some v, None => argmax_from val ks k (Some v)
      | None, _ => argmax_from val ks best bv
      end
  end.

Definition argmax {K : Type} (val : K -> option R) (keys : list K)
  : result K :=
  match keys with
  | [] => Err ValueError
  | k :: ks => Ok (argmax_from val ks k (val k))
  end.

(** ** Outlier search, [MF.match_test] *)

Definition Rsum (l : list R) : R := fold_right Rplus 0 l.

(** The unmasked values of [a[t, fs, p]]. *)
Definition unmasked_vals (a : marray) (t p : nat) (fs : list nat) : list R :=
  flat_map (fun f => match a t f p with Some v => [v] | None => [] end) fs.

(** [N[t, p]]: the number of unmasked channels of the shape. *)
Definition count_unmasked (ins : INS) (slc : slice) (t p : nat) : nat :=
  List.length (unmasked_vals (metric_ms ins) t p (sel slc (Nfreqs ins))).

(** [INS.metric_ms[:, slc].mean(axis=1)[t, p]]: the mean of the unmasked
    channels, masked when there is none. *)
Definition ma_mean (ins : INS) (slc : slice) (t p : nat) : option R :=
  match unmasked_vals (metric_ms ins) t p (sel slc (Nfreqs ins)) with
  | [] => None
  | vs => Some (Rsum vs / INR (List.length vs))
  end.

(** [sliced_arr[t, p]] *)
Definition sliced_arr (ins : INS) (slc : slice) (t p : nat) : option R :=
  match ma_mean ins slc t p with
  | Some m => Some (Rabs m * sqrt (INR (count_unmasked ins slc t p)))
  | None => None
  end.

(** Division of a masked value by a number; dividing by zero masks. *)
Definition ma_div (x : option R) (d : R) : option R :=
  match x with
  | Some v => if Reqb d 0 then None else Some (v / d)
  | None => None
  end.

(** The candidate of one shape: [(t, f, sig)] at the end of the branch. *)
Definition narrow_candidate (ins : INS) : result (slice * slice * option R) :=
  '(t, f, p) <-
    argmax (fun c : nat * nat * nat =>
              let '(t, f, p) := c in option_map Rabs (metric_ms ins t f p))
           (cells ins) ;;
  let sig := option_map Rabs (metric_ms ins t f p) in
  Ok (Slice t (t + 1), Slice f (f + 1), sig).

Definition shape_candidate (mf : MF) (ins : INS) (shape : string)
  : result (slice * slice * option R) :=
  v <- Dict.item (slice_dict mf) shape ;;
  match v with
  | None => Err ValueError
  | Some slc =>
      thr <- Dict.item (sig_thresh mf) shape ;;
      '(t, p) <-
        argmax (fun c : nat * nat =>
                  ma_div (sliced_arr ins slc (fst c) (snd c)) thr)
               (time_pols ins) ;;
      Ok (Slice t (t + 1), slc, sliced_arr ins slc t p)
  end.

(** [shape is 'narrow'] holds for the key the resolver inserted, an
    interned literal, and is read as equality of strings. *)
Definition candidate (mf : MF) (ins : INS) (shape : string)
  : result (slice * slice * option R) :=
  if String.eqb shape "narrow" then narrow_candidate ins
  else shape_candidate mf ins shape.

(** The running champion [(t_max, f_max, sig_max, shape_max)].  The four
    variables are assigned together, so they are either all at their
    initial values [(None, None, -inf, None)], which is [None] here, or
    all set. *)
Definition champion : Type := option (slice * slice * R * string).

(** [sig > sig_max] *)
Definition beats (sig : R) (best : champion) : bool :=
  match best with
  | None => true
  | Some (_, _, sig_max, _) => Rgtb sig sig_max
  end.

(** The number that [sig > self.sig_thresh[shape]] and [sig > sig_max]
    read in [sig].  For [narrow] a masked [sig] is the constant
    [np.ma.masked]: a comparison with it is masked again and false as a
    condition.  For another shape [sig = sliced_arr[t, p]] is a masked
    array of one element ([t] is a slice by then), and a condition on a
    comparison with it reads the value of that element whether it is
    masked or not; under the mask this value is the 0.0 that the mean
    over no unmasked channel leaves there. *)
Definition compared (shape : string) (sig : option R) : option R :=
  match sig with
  | Some s => Some s
  | None => if String.eqb shape "narrow" then None else Some 0
  end.

(** One turn of the loop over the shapes.  A masked [sig] of a shape
    other than [narrow] passes [sig > thr] exactly when the threshold is
    negative; [sig_max] then holds a masked array, which the champion
    records by the value 0 under its mask, the number that the later
    [sig > sig_max] and [sig_max > -np.inf] read. *)
Definition match_step (mf : MF) (ins : INS) (best : champion)
    (shape : string) : result champion :=
  '(t, f, sig) <- candidate mf ins shape ;;
  thr <- Dict.item (sig_thresh mf) shape ;;
  match compared shape sig with
  | Some s =>
      if Rgtb s thr then
        if beats s best then Ok (Some (t, f, s, shape)) else Ok best
      else Ok best
  | None => Ok best
  end.

Fixpoint match_loop (mf : MF) (ins : INS) (shapes : list string)
    (best : champion) : result champion :=
  match shapes with
  | [] => Ok best
  | shape :: shapes' =>
      best' <- match_step mf ins best shape ;;
      match_loop mf ins shapes' best'
  end.

Definition match_test (mf : MF) (ins : INS) : result champion :=
  match_loop mf ins (Dict.keys (slice_dict mf)) None.

(** ** Code that mutates the [INS] *)

Inductive outcome (A : Type) : Type :=
| Ret (a : A)
| Raise (e : exn)
| OutOfFuel.

Arguments Ret {A} a.
Arguments Raise {A} e.
Arguments OutOfFuel {A}.

Definition M (A : Type) : Type := INS -> outcome A * INS.

Definition mret {A : Type} (a : A) : M A := fun ins => (Ret a, ins).

Definition mraise {A : Type} (e : exn) : M A := fun ins => (Raise e, ins).

Definition mbind {A B : Type} (m : M A) (k : A -> M B) : M B :=
  fun ins =>
    match m ins with
    | (Ret a, ins') => k a ins'
    | (Raise e, ins') => (Raise e, ins')
    | (OutOfFuel, ins') => (OutOfFuel, ins')
    end.

Definition modify (g : INS -> INS) : M unit := fun ins => (Ret tt, g ins).

Definition mwhen (b : bool) (m : M unit) : M unit := if b then m else mret tt.

Declare Scope ins_scope.
Delimit Scope ins_scope with ins.

Notation "x <-- c ;; k" := (mbind c (fun x => k))
  (at level 61, c at next level, right associativity) : ins_scope.
Notation "c ;;; k" := (mbind c (fun _ => k))
  (at level 61, right associativity) : ins_scope.

(** The masked cells of [INS.metric_array[:, fs, 0]]. *)
Definition flagged_in_channels (ins : INS) (fs : slice) : list (nat * nat) :=
  filter (fun c => is_masked (metric_array ins) (fst c) (snd c) 0)
    (list_prod (seq 0 (Ntimes ins)) (sel fs (Nfreqs ins))).

(** ** The sample-threshold test, [MF.apply_samp_thresh_test] *)

Definition apply_samp_thresh_test (mf : MF) (ev : event)
    (event_record : bool) : M event :=
  fun ins =>
    if Rgtb (N_samp_thresh mf) (INR (Ntimes ins)) then (Raise ValueError, ins)
    else
      let num_chan := (Z.of_nat (stop (ev_f ev)) - Z.of_nat (start (ev_f ev)))%Z in
      let num_flag := List.length (flagged_in_channels ins (ev_f ev)) in
      let num_unflagged := (Z.of_nat (Ntimes ins) - Z.of_nat num_flag)%Z in
      (* [num_unflagged / num_chan] on integers: a zero divisor raises *)
      if (num_chan =? 0)%Z then (Raise ZeroDivisionError, ins)
      else if Rltb (IZR num_unflagged / IZR num_chan) (N_samp_thresh mf) then
        let ins1 :=
          set_metric_array ins (mask_channels (ev_f ev) (metric_array ins)) in
        (* [new_event] is bound only under [if event_record] *)
        let '(new_event, ins2) :=
          if event_record then
            let new_event :=
              Event (Slice 0 (Ntimes ins)) (ev_f ev)
                    ("samp_thresh_" ++ ev_shape ev) None in
            (Some new_event, append_event ins1 (Logged4 new_event))
          else (None, ins1) in
        match new_event with
        | Some e => (Ret e, ins2)
        | None => (Raise UnboundLocalError, ins2)
        end
      else (Ret ev, ins).

(** ** The frequency broadcaster, [MF.freq_broadcast] *)

(** [set(np.arange(s.stop)[s])] *)
Definition index_set (s : slice) : list nat := sel s (stop s).

Definition isdisjoint (a b : list nat) : bool :=
  negb (existsb (fun i => existsb (Nat.eqb i) b) a).

Definition broadcast_step (mf : MF) (ev : event) (event_record : bool)
    (sb : string) : M unit :=
  fun ins =>
    match Dict.item (broadcast_slc_dict mf) sb with
    | Err e => (Raise e, ins)
    | Ok None => (Raise AttributeError, ins)
    | Ok (Some sb_slc) =>
        let event_set := index_set (ev_f ev) in
        let broad_set := index_set sb_slc in
        if negb (isdisjoint event_set broad_set) then
          let ins1 :=
            set_metric_array ins
              (mask_region (ev_t ev) sb_slc (metric_array ins)) in
          if event_record then
            (Ret tt,
             append_event ins1
               (Logged3 (ev_t ev) sb_slc ("freq_broadcast_" ++ sb)))
          else (Ret tt, ins1)
        else (Ret tt, ins)
    end.

Fixpoint broadcast_loop (mf : MF) (ev : event) (event_record : bool)
    (sbs : list string) : M unit :=
  match sbs with
  | [] => mret tt
  | sb :: sbs' =>
      mbind (broadcast_step mf ev event_record sb)
            (fun _ => broadcast_loop mf ev event_record sbs')
  end.

Definition freq_broadcast (mf : MF) (ev : event) (event_record : bool)
  : M unit :=
  match broadcast_dict mf with
  | None => mraise ValueError
  | Some _ =>
      broadcast_loop mf ev event_record (Dict.keys (broadcast_slc_dict mf))
  end.

(** ** The iterative flagger, [MF.apply_match_test] *)

Section Flagger.

(** Modelled from the spec: [INS.mean_subtract(freq_slice)] is a method of
    the noise spectrum, whose class is not part of the filter's module.  It
    "recomputes [metric_ms] for the given channel range from current
    [metric_array] masking" and returns it without changing the [INS]; the
    result is "masked wherever the source value was masked or its
    channel's statistic is undefined".  The returned array is indexed by
    the channels of the cube; only those of [freq_slice] are read. *)
Variable mean_subtract : INS -> slice -> marray.

Variable mf : MF.
Variables event_record apply_samp_thresh freq_broadcast_on : bool.

(** [np.all(INS.metric_array[:, fs, 0].mask)] *)
Definition all_flagged (ins : INS) (fs : slice) : bool :=
  forallb (fun c => is_masked (metric_array ins) (fst c) (snd c) 0)
    (list_prod (seq 0 (Ntimes ins)) (sel fs (Nfreqs ins))).

(** [INS.sig_array[event[:2]][nonmask] = INS.metric_ms[event[:2]][nonmask]] *)
Definition record_sig (ts fs : slice) (ins : INS) : INS :=
  set_sig_array ins
    (fun t f p =>
       if in_slice ts t && in_slice fs f then
         match metric_ms ins t f p with
         | Some v => Some v
         | None => sig_array ins t f p
         end
       else sig_array ins t f p).

(** The last statement of the loop body. *)
Definition restat (f_max : slice) (ins : INS) : INS :=
  if negb (all_flagged ins f_max) then
    set_metric_ms ins
      (assign_channels f_max (mean_subtract ins f_max) (metric_ms ins))
  else set_metric_ms ins (mask_channels f_max (metric_ms ins)).

(** The body of [if sig_max > -np.inf:]. *)
Definition flag_champion (c : slice * slice * R * string) : M unit :=
  let '(t_max, f_max, sig_max, shape_max) := c in
  let ev := Event t_max f_max shape_max (Some sig_max) in
  (modify (fun ins =>
     set_metric_array ins (mask_region t_max f_max (metric_array ins))) ;;;
   modify (record_sig t_max f_max) ;;;
   mwhen event_record (modify (fun ins => append_event ins (Logged4 ev))) ;;;
   ev <-- (if apply_samp_thresh && negb (Reqb (N_samp_thresh mf) 0)
           then apply_samp_thresh_test mf ev event_record
           else mret ev) ;;
   mwhen freq_broadcast_on (freq_broadcast mf ev event_record) ;;;
   modify (restat f_max))%ins.

(** One turn of [while count:]; the value is [count] at its end. *)
Definition iteration : M bool :=
  fun ins =>
    match match_test mf ins with
    | Err e => (Raise e, ins)
    | Ok None => (Ret false, ins)
    | Ok (Some c) => mbind (flag_champion c) (fun _ => mret true) ins
    end.

Fixpoint flag_loop (fuel : nat) : M unit :=
  match fuel with
  | O => fun ins => (OutOfFuel, ins)
  | S fuel' =>
      mbind iteration (fun count =>
        if count then flag_loop fuel' else mret tt)
  end.

(** The two statements after the loop. *)
Definition backfill (ins : INS) : INS :=
  set_sig_array ins
    (fun t f p =>
       match metric_ms ins t f p with
       | Some v => Some v
       | None => sig_array ins t f p
       end).

Definition apply_match_test (fuel : nat) : M unit :=
  mbind (flag_loop fuel) (fun _ => modify backfill).

End Flagger.

(** ** Counting cells *)

(** The flagged cells of [metric_array]. *)
Definition flagged_count (ins : INS) : nat :=
  List.length
    (filter (fun c : nat * nat * nat =>
               let '(t, f, p) := c in is_masked (metric_array ins) t f p)
            (cells ins)).

(** The cells that [metric_array] or [metric_ms] still holds unmasked. *)
Definition live (ins : INS) (c : nat * nat * nat) : bool :=
  let '(t, f, p) := c in
  negb (is_masked (metric_array ins) t f p)
  || negb (is_masked (metric_ms ins) t f p).

Definition live_count (ins : INS) : nat :=
  List.length (filter (live ins) (cells ins)).

(** ** Sequences of filter operations *)

(** A call of one of the four operations, with its arguments. *)
Inductive op : Type :=
| OpMatchTest
| OpApplyMatchTest (event_record apply_samp_thresh freq_broadcast : bool)
                   (fuel : nat)
| OpSampThresh (ev : event) (event_record : bool)
| OpFreqBroadcast (ev : event) (event_record : bool).

(** The [INS] after a call, whether it returned, raised or, for the
    flagger, was cut short after [fuel] turns of its loop. *)
Definition run_op (mean_subtract : INS -> slice -> marray) (mf : MF)
    (o : op) (ins : INS) : INS :=
  match o with
  | OpMatchTest => ins
  | OpApplyMatchTest r s b fuel =>
      snd (apply_match_test mean_subtract mf r s b fuel ins)
  | OpSampThresh ev r => snd (apply_samp_thresh_test mf ev r ins)
  | OpFreqBroadcast ev r => snd (freq_broadcast mf ev r ins)
  end.

Definition run_ops (mean_subtract : INS -> slice -> marray) (mf : MF)
    (ops : list op) (ins : INS) : INS :=
  fold_left (fun ins o => run_op mean_subtract mf o ins) ops ins.

(** ** Specification vocabulary *)

(** *** The shape resolver *)

(** [m] is the least (greatest) element of [l]. *)
Definition is_min (m : R) (l : list R) : Prop :=
  In m l /\ forall x, In x l -> m <= x.

Definition is_max (m : R) (l : list R) : Prop :=
  In m l /\ forall x, In x l -> x <= m.

(** [c] is the first index of [l] that attains the least value. *)
Definition first_argmin (l : list R) (c : nat) : Prop :=
  (c < List.length l)%nat
  /\ (forall j, (j < List.length l)%nat -> nth c l 0 <= nth j l 0)
  /\ (forall j, (j < c)%nat -> nth c l 0 < nth j l 0).

(** [c] is the channel whose frequency is nearest to [x], the first one
    among equally near channels. *)
Definition nearest (freqs : list R) (x : R) (c : nat) : Prop :=
  (c < List.length freqs)%nat
  /\ (forall j, (j < List.length freqs)%nat ->
        Rabs (nth c freqs 0 - x) <= Rabs (nth j freqs 0 - x))
  /\ (forall j, (j < c)%nat ->
        Rabs (nth c freqs 0 - x) < Rabs (nth j freqs 0 - x)).

(** The slice stored for an interval [lo, hi): the two nearest channels
    [c_lo] and [c_hi] with the edge corrections. *)
Definition resolved_as (fa : list R) (lo hi : R) (c_lo c_hi : nat)
    (s : slice) : Prop :=
  (nth c_lo fa 0 > lo /\ (0 < c_lo)%nat -> start s = (c_lo - 1)%nat)
  /\ (~ (nth c_lo fa 0 > lo /\ (0 < c_lo)%nat) -> start s = c_lo)
  /\ (nth c_hi fa 0 <= hi -> stop s = (c_hi + 1)%nat)
  /\ (nth c_hi fa 0 > hi -> stop s = c_hi).

(** The coverage condition of the shape resolver on a non-empty axis. *)
Definition covered (fa : list R) (bounds : R * R) : bool :=
  match fa with
  | [] => false
  | x :: l =>
      Rleb (fold_left Rmin l x) (Rmin (fst bounds) (snd bounds))
      || Rgeb (fold_left Rmax l x) (Rmax (fst bounds) (snd bounds))
  end.

(** *** The outlier search *)

(** No key of [keys] has an unmasked value above that of [k]. *)
Definition dominates {K : Type} (val : K -> option R) (k : K)
    (keys : list K) : Prop :=
  forall k' v', In k' keys -> val k' = Some v' ->
    exists v, val k = Some v /\ v' <= v.

(** From the words of the specification, to be compared with
    [sliced_arr]: the channels of the range that the cube has; among them
    those that are unmasked at time [t] and polarization [p], [n] in
    number; and the raw significance of [(t, p)], the absolute value of
    the mean of the values of these channels times [sqrt(n)], which there
    is when [n] is not zero. *)
Definition range_channels (ins : INS) (slc : slice) : list nat :=
  filter (in_slice slc) (seq 0 (Nfreqs ins)).

Definition contributing (ins : INS) (slc : slice) (t p : nat) : list nat :=
  filter (fun f => negb (is_masked (metric_ms ins) t f p))
         (range_channels ins slc).

Definition value_at (ins : INS) (t p f : nat) : R :=
  match metric_ms ins t f p with
  | Some v => v
  | None => 0
  end.

Definition spec_significance (ins : INS) (slc : slice) (t p : nat)
  : option R :=
  let chans := contributing ins slc t p in
  let n := List.length chans in
  if (n =? 0)%nat then None
  else Some (Rabs (fold_left Rplus (map (value_at ins t p) chans) 0 / INR n)
             * sqrt (INR n)).

(** The candidate of [shape] is [(t, f, sig)] with [sig] unmasked and
    above the threshold of the shape. *)
Definition eligible (mf : MF) (ins : INS) (shape : string)
    (t f : slice) (sig : R) : Prop :=
  candidate mf ins shape = Ok (t, f, Some sig)
  /\ exists thr, Dict.get (sig_thresh mf) shape = Some thr /\ sig > thr.

(** What [match_test] needs to run through: a non-empty cube, a threshold
    for every shape, and a slice for every shape but [narrow]. *)
Definition searchable (mf : MF) (ins : INS) : Prop :=
  (0 < Ntimes ins)%nat /\ (0 < Nfreqs ins)%nat /\ (0 < Npols ins)%nat
  /\ (forall shape, In shape (Dict.keys (slice_dict mf)) ->
        Dict.get (sig_thresh mf) shape <> None)
  /\ (forall shape, In shape (Dict.keys (slice_dict mf)) ->
        shape <> "narrow"%string ->
        exists slc, Dict.get (slice_dict mf) shape = Some (Some slc)).

(** No threshold of the filter is negative. *)
Definition thresholds_nonneg (mf : MF) : Prop :=
  forall shape thr, Dict.get (sig_thresh mf) shape = Some thr -> 0 <= thr.

(** [best] is the champion of the shapes iterated so far: nothing when no
    shape is eligible, else a candidate that is not below an eligible
    candidate of its own shape, strictly above the eligible candidates of
    the shapes before and not below those of the shapes after. *)
Definition champion_of (mf : MF) (ins : INS) (shapes : list string)
    (best : champion) : Prop :=
  match best with
  | None =>
      forall shape t f sig, In shape shapes -> ~ eligible mf ins shape t f sig
  | Some (t, f, sig, shape) =>
      (forall t' f' sig', eligible mf ins shape t' f' sig' -> sig' <= sig)
      /\ exists pre post,
           shapes = pre ++ shape :: post
           /\ (forall s t' f' sig',
                 In s pre -> eligible mf ins s t' f' sig' -> sig' < sig)
           /\ (forall s t' f' sig',
                 In s post -> eligible mf ins s t' f' sig' -> sig' <= sig)
  end.

(** *** The flagger *)

(** Every flag of [a] is a flag of [b]. *)
Definition flags_kept (a b : INS) : Prop :=
  forall t f p, metric_array a t f p = None -> metric_array b t f p = None.

(** Flags are kept, and the dimensions and [metric_ms] are untouched. *)
Definition grows (a b : INS) : Prop :=
  flags_kept a b
  /\ Ntimes b = Ntimes a /\ Nfreqs b = Nfreqs a /\ Npols b = Npols a
  /\ metric_ms b = metric_ms a.

(** [metric_array] is the same outside the channels of [fs]. *)
Definition same_outside (fs : slice) (a b : INS) : Prop :=
  forall t f p,
    in_slice fs f = false -> metric_array b t f p = metric_array a t f p.

(** [metric_ms] is masked wherever [metric_array] is, on the cube. *)
Definition consistent (ins : INS) : Prop :=
  forall t f p,
    In (t, f, p) (cells ins) ->
    metric_array ins t f p = None -> metric_ms ins t f p = None.

(** Whatever the outcome of [m], the [INS] it leaves is related by [rel]
    to the one it started from. *)
Definition keeps (rel : INS -> INS -> Prop) {A : Type} (m : M A) : Prop :=
  forall ins, rel ins (snd (m ins)).

(** [m] never stops for lack of fuel. *)
Definition finishes {A : Type} (m : M A) : Prop :=
  forall ins, fst (m ins) <> OutOfFuel.

(** The masking discipline of [mean_subtract]: masked wherever the source
    value is masked. *)
Definition masks_like_source (mean_subtract : INS -> slice -> marray) : Prop :=
  forall ins fs t f p,
    metric_array ins t f p = None -> mean_subtract ins fs t f p = None.

(** ** Example filters and spectra *)

(** A [mean_subtract] that subtracts nothing: the values of
    [metric_array] as they are. *)
Definition mean_subtract_null (ins : INS) (fs : slice) : marray :=
  metric_array ins.

(** The filter of [MF([1, 2, 3], sig_thresh=5, N_samp_thresh=n)], the
    other parameters at their defaults: the attributes the constructor
    sets before its last call, and the empty sub-band table that call is
    to resolve from the empty [broadcast_dict]. *)
Definition mf_default (n : R) : MF :=
  mkMF [1; 2; 3] [] [("narrow", 5); ("streak", 5)]%string n
       [("narrow", None); ("streak", Some (Slice 0 3))]%string
       (Some []) [].

(** The filter of [MF([1, 2], 5, streak=False, broadcast_streak=True)],
    in the same way: the only shape is [narrow], the only sub-band the
    whole band. *)
Definition mf_broadcast_streak : MF :=
  mkMF [1; 2] [] [("narrow", 5)]%string 0
       [("narrow", None)]%string
       (Some []) [("streak", Some (Slice 0 2))]%string.

(** Four times, two channels, one polarization; channel 0 is flagged at
    every time, channel 1 holds small z-scores. *)
Definition ins_channel0_flagged : INS :=
  let a : marray := fun t f p => if (f =? 0)%nat then None else Some (1 / 2) in
  mkINS 4 2 1 a a a [].

(** One time, one channel, one polarization, z-score 10. *)
Definition ins_single : INS :=
  let a : marray := fun t f p => Some 10 in
  mkINS 1 1 1 a a a [].

(** One time, two channels, one polarization, nothing flagged; the
    z-scores are 10 and 9. *)
Definition ins_two_outliers : INS :=
  let a : marray := fun t f p => if (f =? 0)%nat then Some 10 else Some 9 in
  mkINS 1 2 1 a a a [].

(** The filter of [MF([1, 2], sig_thresh=5)], in the same way. *)
Definition mf_two_channels : MF :=
  mkMF [1; 2] [] [("narrow", 5); ("streak", 5)]%string 0
       [("narrow", None); ("streak", Some (Slice 0 2))]%string
       (Some []) [].

(** Two times, two channels, one polarization, nothing flagged; the
    z-scores are 1 and 1 at time 0, 3 and 5 at time 1. *)
Definition ins_streak : INS :=
  let a : marray := fun t f p =>
    if (t =? 0)%nat then Some 1 else if (f =? 0)%nat then Some 3 else Some 5 in
  mkINS 2 2 1 a a a [].

(** The filter of [MF([1, 2], sig_thresh={'streak': -1}, narrow=False)],
    in the same way, and a cube of one time, two channels and one
    polarization with every cell masked. *)
Definition mf_negative : MF :=
  mkMF [1; 2] [] [("streak", -1)]%string 0
       [("streak", Some (Slice 0 2))]%string
       (Some []) [].

Definition ins_all_masked : INS :=
  let a : marray := fun t f p => None in
  mkINS 1 2 1 a a a [].

(** ** Further vocabulary *)

(** The frequencies grow strictly with the channel number. *)
Definition increasing (l : list R) : Prop :=
  forall i j, (i < j < List.length l)%nat -> nth i l 0 < nth j l 0.

(** Every slice of the table lies within an axis of [n] channels. *)
Definition within_axis (n : nat) (d : Dict.t (option slice)) : Prop :=
  forall k s, Dict.get d k = Some (Some s) ->
    (start s <= n)%nat /\ (stop s <= n)%nat.

(** The filter of [mf_default] whose table of thresholds lacks [streak]. *)
Definition mf_no_streak_thresh : MF :=
  mkMF [1; 2; 3] [] [("narrow", 5)]%string 0
       [("narrow", None); ("streak", Some (Slice 0 3))]%string
       (Some []) [].

(** A spectrum without time samples. *)
Definition ins_no_times : INS :=
  let a : marray := fun t f p => None in
  mkINS 0 2 1 a a a [].

(** The log of [b] is the log of [a] with entries added at its end. *)
Definition log_extends (a b : INS) : Prop :=
  exists l, match_events b = match_events a ++ l.

(** The recording flag of a call; the search has none. *)
Definition records (o : op) : bool :=
  match o with
  | OpMatchTest => false
  | OpApplyMatchTest r _ _ _ => r
  | OpSampThresh _ r => r
  | OpFreqBroadcast _ r => r
  end.

(** The dimensions, [metric_ms] and [sig_array] are those of [a]. *)
Definition stats_untouched (a b : INS) : Prop :=
  Ntimes b = Ntimes a /\ Nfreqs b = Nfreqs a /\ Npols b = Npols a
  /\ metric_ms b = metric_ms a /\ sig_array b = sig_array a.

(** The sub-band [sb] of the filter has the slice [sl], and the channels
    of [sl] meet those of the event. *)
Definition hit_by (mf : MF) (ev : event) (sb : string) (sl : slice) : Prop :=
  In sb (Dict.keys (broadcast_slc_dict mf))
  /\ Dict.get (broadcast_slc_dict mf) sb = Some (Some sl)
  /\ isdisjoint (index_set (ev_f ev)) (index_set sl) = false.

(** ** Packaging, [setup.py] *)

(** [s.startswith(p)] *)
Fixpoint startswith (p s : string) : bool :=
  match p, s with
  | EmptyString, _ => true
  | String _ _, EmptyString => false
  | String a p', String b s' => Ascii.eqb a b && startswith p' s'
  end.

(** [s.endswith('/')] *)
Fixpoint endswith_sep (s : string) : bool :=
  match s with
  | EmptyString => false
  | String c EmptyString => Ascii.eqb c "/"%char
  | String _ s' => endswith_sep s'
  end.

(** [s.replace(old, '')] for a non-empty [old]: the occurrences of [old]
    are found from the left and do not overlap.  [skip] counts the
    characters of an occurrence that are still to be dropped. *)
Fixpoint delete_all (old : string) (skip : nat) (s : string) : string :=
  match s with
  | EmptyString => EmptyString
  | String c s' =>
      match skip with
      | S k => delete_all old k s'
      | O =>
          if startswith old s
          then delete_all old (String.length old - 1) s'
          else String c (delete_all old 0 s')
      end
  end.

(** [s.replace(old, '')]; an empty [old] leaves [s] as it is. *)
Definition replace_with_empty (s old : string) : string :=
  match old with
  | EmptyString => s
  | String _ _ => delete_all old 0 s
  end.

(** [os.path.join(a, b)] on POSIX. *)
Definition os_path_join (a b : string) : string :=
  if startswith "/" b then b
  else if match a with EmptyString => true | _ => endswith_sep a end
       then a ++ b
       else a ++ "/" ++ b.

(** The inner loop of [package_files] over the file names of one
    directory; [path] is reassigned in every turn. *)
Fixpoint package_dir_files (package_dir path : string)
    (filenames paths : list string) : list string :=
  match filenames with
  | [] => paths
  | filename :: filenames' =>
      let path := replace_with_empty path (package_dir ++ "/") in
      package_dir_files package_dir path filenames'
        (paths ++ [os_path_join path filename])
  end.

(** [package_files].  [walk] stands for [os.walk]: the triples
    [(path, directories, filenames)] it yields for a directory. *)
Definition package_files
    (walk : string -> list (string * list string * list string))
    (package_dir subdirectory : string) : list string :=
  let directory := os_path_join package_dir subdirectory in
  fold_left
    (fun paths (triple : string * list string * list string) =>
       let '(path, directories, filenames) := triple in
       package_dir_files package_dir path filenames paths)
    (walk directory) [].

(** [old] occurs in [s]. *)
Definition occurs (old s : string) : Prop :=
  exists pre post, s = (pre ++ old ++ post)%string.

(** [old in s] *)
Fixpoint occursb (old s : string) : bool :=
  startswith old s
  || match s with
     | EmptyString => false
     | String _ s' => occursb old s'
     end.

(** * Properties *)

(** ** Booleans and reals *)

Lemma Rltb_true (a b : R) : Rltb a b = true <-> a < b.
Proof. unfold Rltb. destruct (Rlt_dec a b); split; intros; try easy. Qed.

Lemma Rltb_false (a b : R) : Rltb a b = false <-> b <= a.
Proof.
  unfold Rltb. destruct (Rlt_dec a b); split; intros; try easy; lra.
Qed.

Lemma Rleb_true (a b : R) : Rleb a b = true <-> a <= b.
Proof. unfold Rleb. destruct (Rle_dec a b); split; intros; try easy. Qed.

Lemma Rleb_false (a b : R) : Rleb a b = false <-> b < a.
Proof.
  unfold Rleb. destruct (Rle_dec a b); split; intros; try easy; lra.
Qed.

Lemma Reqb_true (a b : R) : Reqb a b = true <-> a = b.
Proof. unfold Reqb. destruct (Req_dec_T a b); split; intros; try easy. Qed.

Lemma Reqb_false (a b : R) : Reqb a b = false <-> a <> b.
Proof. unfold Reqb. destruct (Req_dec_T a b); split; intros; try easy. Qed.

(** Decides a comparison between two numerals. *)
Ltac rcompare :=
  repeat match goal with
  | |- context [Rltb ?a ?b] =>
      first [ replace (Rltb a b) with true by (symmetry; apply Rltb_true; lra)
            | replace (Rltb a b) with false by (symmetry; apply Rltb_false; lra) ]
  | |- context [Rleb ?a ?b] =>
      first [ replace (Rleb a b) with true by (symmetry; apply Rleb_true; lra)
            | replace (Rleb a b) with false by (symmetry; apply Rleb_false; lra) ]
  | |- context [Reqb ?a ?b] =>
      first [ replace (Reqb a b) with true by (symmetry; apply Reqb_true; lra)
            | replace (Reqb a b) with false by (symmetry; apply Reqb_false; lra) ]
  end.

(** ** Dictionaries *)

Lemma get_set_same {V : Type} (d : Dict.t V) (k : string) (v : V) :
  Dict.get (Dict.set d k v) k = Some v.
Proof.
  induction d as [|[k' v'] d IH]; simpl.
  - now rewrite String.eqb_refl.
  - destruct (String.eqb k' k) eqn:E; simpl; rewrite E; auto.
Qed.

Lemma get_set_other {V : Type} (d : Dict.t V) (k k' : string) (v : V) :
  k <> k' -> Dict.get (Dict.set d k v) k' = Dict.get d k'.
Proof.
  intros Hne. induction d as [|[k0 v0] d IH]; simpl.
  - destruct (String.eqb k k') eqn:E; auto.
    apply String.eqb_eq in E. contradiction.
  - destruct (String.eqb k0 k) eqn:E; simpl.
    + apply String.eqb_eq in E. subst k0.
      destruct (String.eqb k k') eqn:E'; auto.
      apply String.eqb_eq in E'. contradiction.
    + now rewrite IH.
Qed.


Lemma keys_set_old {V : Type} (d : Dict.t V) (k : string) (v : V) :
  Dict.get d k <> None -> Dict.keys (Dict.set d k v) = Dict.keys d.
Proof.
  induction d as [|[k0 v0] d IH]; simpl; try congruence.
  destruct (String.eqb k0 k) eqn:E; auto.
  intros H. unfold Dict.keys in *. simpl. now rewrite IH.
Qed.

Lemma get_None_keys {V : Type} (d : Dict.t V) (k : string) :
  Dict.get d k = None <-> ~ In k (Dict.keys d).
Proof.
  induction d as [|[k0 v0] d IH]; simpl.
  - tauto.
  - destruct (String.eqb k0 k) eqn:E.
    + apply String.eqb_eq in E. split; [discriminate | tauto].
    + apply String.eqb_neq in E. rewrite IH. tauto.
Qed.

(** ** C1: the constructor *)

(** The keyword [check_overlap] names no parameter of [_shape_slicer]:
    binding the arguments of the second call fails whatever the
    attributes hold. *)
Lemma call_with_check_overlap (fa : list R) (sd : Dict.t (R * R))
    (bd : option (Dict.t (R * R))) (args : list pyval) (v w : pyval) :
  List.length args = 2%nat ->
  call__shape_slicer fa sd bd args
    [("input_dict", v); ("check_overlap", w)]%string = Err TypeError.
Proof.
  intros H. destruct args as [|a [|b [|c args]]]; try discriminate.
  reflexivity.
Qed.

(** Without that keyword the second call is the shape resolver on
    [broadcast_dict] with [narrow] disabled. *)
Lemma call_without_check_overlap (fa : list R) (sd : Dict.t (R * R))
    (bd : option (Dict.t (R * R))) (broadcast_streak : bool) :
  call__shape_slicer fa sd bd [PBool false; PBool broadcast_streak]
    [("input_dict", PStr "broadcast_dict")]%string
  = _shape_slicer fa sd bd false broadcast_streak "broadcast_dict".
Proof. reflexivity. Qed.

(** No configuration gets through the constructor. *)
Lemma __init___never_returns (fa : list R) (st : thresh_arg)
    (sd : Dict.t (R * R)) (n : R) (narrow streak : bool)
    (bd : option (Dict.t (R * R))) (bs : bool) :
  exists e, __init__ fa st sd n narrow streak bd bs = Err e.
Proof.
  unfold __init__.
  destruct (_ && _ && _); [now exists ValueError|].
  destruct (call__shape_slicer fa sd bd _ []) as [sl|e]; cbn [rbind];
    [|now exists e].
  destruct st as [d|r]; cbn [rbind].
  - destruct (forallb _ _); cbn [rbind]; [|now exists KeyError].
    rewrite call_with_check_overlap by reflexivity. now exists TypeError.
  - rewrite call_with_check_overlap by reflexivity. now exists TypeError.
Qed.

(** C1 (code defect): the default configuration on a three-channel axis,
    [MF([1, 2, 3], 5)], avoids every listed configuration error, and the
    constructor still raises: the call that resolves the sub-band map
    passes [check_overlap], which [_shape_slicer] does not accept. *)
Theorem C1_init_default_raises :
  __init__ [1; 2; 3] (ThreshNum 5) [] 0 true true (Some []) false
  = Err TypeError.
Proof. reflexivity. Qed.

(** ** C9: the shape resolver *)

Lemma fold_left_Rmin_is_min (l : list R) (x : R) :
  is_min (fold_left Rmin l x) (x :: l).
Proof.
  revert x. induction l as [|y l IH]; intros x; simpl.
  - split; [now left | intros z [<-|[]]; lra].
  - destruct (IH (Rmin x y)) as [Hin Hle]. split.
    + destruct Hin as [Hin|Hin]; [|now right; right].
      rewrite <- Hin. unfold Rmin. destruct (Rle_dec x y); simpl; auto.
    + intros z Hz.
      assert (Hm : fold_left Rmin l (Rmin x y) <= Rmin x y)
        by (apply Hle; now left).
      destruct Hz as [<-|[<-|Hz]].
      * pose proof (Rmin_l x y). lra.
      * pose proof (Rmin_r x y). lra.
      * apply Hle. now right.
Qed.

Lemma fold_left_Rmax_is_max (l : list R) (x : R) :
  is_max (fold_left Rmax l x) (x :: l).
Proof.
  revert x. induction l as [|y l IH]; intros x; simpl.
  - split; [now left | intros z [<-|[]]; lra].
  - destruct (IH (Rmax x y)) as [Hin Hle]. split.
    + destruct Hin as [Hin|Hin]; [|now right; right].
      rewrite <- Hin. unfold Rmax. destruct (Rle_dec x y); simpl; auto.
    + intros z Hz.
      assert (Hm : Rmax x y <= fold_left Rmax l (Rmax x y))
        by (apply Hle; now left).
      destruct Hz as [<-|[<-|Hz]].
      * pose proof (Rmax_l x y). lra.
      * pose proof (Rmax_r x y). lra.
      * apply Hle. now right.
Qed.

Lemma argmin_from_spec (l pre : list R) (best : nat) (bv : R) :
  (best < List.length pre)%nat ->
  nth best pre 0 = bv ->
  (forall j, (j < List.length pre)%nat -> bv <= nth j pre 0) ->
  (forall j, (j < best)%nat -> bv < nth j pre 0) ->
  first_argmin (pre ++ l) (argmin_from l (List.length pre) best bv).
Proof.
  revert pre best bv.
  induction l as [|y l IH]; intros pre best bv Hb Hn Hall Hfirst; simpl.
  - rewrite app_nil_r. subst bv. now repeat split.
  - replace (pre ++ y :: l) with ((pre ++ [y]) ++ l)
      by (now rewrite <- app_assoc).
    replace (S (List.length pre)) with (List.length (pre ++ [y]))
      by (rewrite length_app; simpl; lia).
    assert (Hlast : nth (List.length pre) (pre ++ [y]) 0 = y)
      by (rewrite app_nth2, Nat.sub_diag by lia; reflexivity).
    destruct (Rltb y bv) eqn:E.
    + apply Rltb_true in E.
      apply IH; auto.
      * rewrite length_app; simpl; lia.
      * intros j Hj. rewrite length_app in Hj; simpl in Hj.
        destruct (Nat.eq_dec j (List.length pre)) as [->|Hne].
        -- rewrite Hlast. lra.
        -- rewrite app_nth1 by lia.
           assert (bv <= nth j pre 0) by (apply Hall; lia). lra.
      * intros j Hj. rewrite app_nth1 by lia.
        assert (bv <= nth j pre 0) by (apply Hall; lia). lra.
    + apply Rltb_false in E. apply IH; auto.
      * rewrite length_app; simpl; lia.
      * rewrite app_nth1 by lia. exact Hn.
      * intros j Hj. rewrite length_app in Hj; simpl in Hj.
        destruct (Nat.eq_dec j (List.length pre)) as [->|Hne].
        -- now rewrite Hlast.
        -- rewrite app_nth1 by lia. apply Hall. lia.
      * intros j Hj. rewrite app_nth1 by lia. now apply Hfirst.
Qed.

Lemma argmin_spec (y : R) (l : list R) :
  exists c, argmin (y :: l) = Ok c /\ first_argmin (y :: l) c.
Proof.
  exists (argmin_from l 1 0 y). split; [reflexivity|].
  apply (argmin_from_spec l [y] 0 y); simpl; auto.
  - intros j Hj. assert (j = 0%nat) by lia. subst. lra.
  - intros j Hj. lia.
Qed.

Lemma nth_abs_dist (fa : list R) (x : R) (j : nat) :
  (j < List.length fa)%nat ->
  nth j (abs_dist fa x) 0 = Rabs (nth j fa 0 - x).
Proof.
  intros Hj. unfold abs_dist.
  rewrite (nth_indep _ 0 (Rabs (0 - x))) by (now rewrite length_map).
  apply (map_nth (fun v => Rabs (v - x))).
Qed.

Lemma argmin_nearest (fa : list R) (x : R) :
  fa <> [] ->
  exists c, argmin (abs_dist fa x) = Ok c /\ nearest fa x c.
Proof.
  intros Hne. destruct fa as [|y l]; [congruence|].
  destruct (argmin_spec (Rabs (y - x)) (abs_dist l x)) as (c & Hc & Hlt & Hall & Hfirst).
  exists c. split; [exact Hc|].
  change (Rabs (y - x) :: abs_dist l x) with (abs_dist (y :: l) x) in *.
  assert (Hlen : List.length (abs_dist (y :: l) x) = List.length (y :: l))
    by (unfold abs_dist; now rewrite length_map).
  rewrite Hlen in *.
  split; [exact Hlt|]. split.
  - intros j Hj. rewrite <- !nth_abs_dist by assumption. now apply Hall.
  - intros j Hj. rewrite <- !nth_abs_dist by lia. now apply Hfirst.
Qed.

Lemma resolve_shape_spec (fa : list R)
    (acc : Dict.t (option slice)) (shape : string) (a b : R) :
  fa <> [] ->
  exists fmin fmax c_lo c_hi,
    is_min fmin fa /\ is_max fmax fa
    /\ nearest fa (Rmin a b) c_lo /\ nearest fa (Rmax a b) c_hi
    /\ ((fmin <= Rmin a b \/ fmax >= Rmax a b)
        /\ (exists s, resolve_shape fa acc shape (a, b)
                      = Ok (Dict.set acc shape (Some s))
                      /\ resolved_as fa (Rmin a b) (Rmax a b) c_lo c_hi s)
        \/ ~ (fmin <= Rmin a b \/ fmax >= Rmax a b)
           /\ resolve_shape fa acc shape (a, b) = Ok acc).
Proof.
  intros Hne.
  destruct (argmin_nearest fa (Rmin a b) Hne) as (c_lo & Hlo & Nlo).
  destruct (argmin_nearest fa (Rmax a b) Hne) as (c_hi & Hhi & Nhi).
  destruct fa as [|x l]; [congruence|].
  exists (fold_left Rmin l x), (fold_left Rmax l x), c_lo, c_hi.
  split; [apply fold_left_Rmin_is_min|].
  split; [apply fold_left_Rmax_is_max|].
  split; [exact Nlo|]. split; [exact Nhi|].
  unfold resolve_shape. cbn [py_min py_max rbind fst snd].
  destruct (Rleb (fold_left Rmin l x) (Rmin a b)
            || Rgeb (fold_left Rmax l x) (Rmax a b)) eqn:Hcov.
  - left. split.
    + apply orb_true_iff in Hcov. destruct Hcov as [H|H].
      * left. now apply Rleb_true.
      * right. apply Rleb_true in H. lra.
    + rewrite Hlo, Hhi. cbn [rbind]. eexists. split; [reflexivity|].
      unfold resolved_as; cbn [start stop]. repeat split.
      * intros [H1 H2].
        replace (Rgtb (nth c_lo (x :: l) 0 - Rmin a b) 0) with true
          by (symmetry; apply Rltb_true; lra).
        apply Nat.ltb_lt in H2. now rewrite H2.
      * intros Hn.
        destruct (Rgtb (nth c_lo (x :: l) 0 - Rmin a b) 0) eqn:E1;
          destruct (0 <? c_lo)%nat eqn:E2; cbn [andb]; auto.
        exfalso. apply Hn. apply Rltb_true in E1. apply Nat.ltb_lt in E2.
        split; [lra | exact E2].
      * intros H.
        now replace (Rleb (nth c_hi (x :: l) 0 - Rmax a b) 0) with true
          by (symmetry; apply Rleb_true; lra).
      * intros H.
        now replace (Rleb (nth c_hi (x :: l) 0 - Rmax a b) 0) with false
          by (symmetry; apply Rleb_false; lra).
  - right. split; [|reflexivity].
    apply orb_false_iff in Hcov. destruct Hcov as [H1 H2].
    apply Rleb_false in H1. apply Rleb_false in H2. lra.
Qed.

Lemma resolve_shape_other (fa : list R) (acc : Dict.t (option slice))
    (shape name : string) (bounds : R * R) :
  fa <> [] -> shape <> name ->
  exists acc', resolve_shape fa acc shape bounds = Ok acc'
               /\ Dict.get acc' name = Dict.get acc name.
Proof.
  intros Hne Hsn. destruct bounds as [a b].
  destruct (resolve_shape_spec fa acc shape a b Hne)
    as (_ & _ & _ & _ & _ & _ & _ & _ & [[_ (s & -> & _)]|[_ ->]]).
  - eexists. split; [reflexivity|]. now apply get_set_other.
  - now eexists.
Qed.

Lemma resolve_shapes_absent (fa : list R) (items : Dict.t (R * R))
    (name : string) :
  fa <> [] -> ~ In name (Dict.keys items) ->
  forall acc, exists res,
    resolve_shapes fa acc items = Ok res
    /\ Dict.get res name = Dict.get acc name.
Proof.
  intros Hne. induction items as [|[k bounds] items IH]; intros Hin acc.
  - now exists acc.
  - cbn [resolve_shapes].
    destruct (resolve_shape_other fa acc k name bounds Hne)
      as (acc' & -> & Hget).
    { intros ->. apply Hin. now left. }
    cbn [rbind].
    destruct (IH (fun H => Hin (or_intror H)) acc') as (res & -> & Hres).
    exists res. split; [reflexivity | congruence].
Qed.

Lemma resolve_shapes_present (fa : list R) (items : Dict.t (R * R))
    (name : string) (a b : R) :
  fa <> [] -> NoDup (Dict.keys items) -> In (name, (a, b)) items ->
  forall acc, Dict.get acc name = None ->
  exists fmin fmax c_lo c_hi res,
    is_min fmin fa /\ is_max fmax fa
    /\ nearest fa (Rmin a b) c_lo /\ nearest fa (Rmax a b) c_hi
    /\ resolve_shapes fa acc items = Ok res
    /\ ((fmin <= Rmin a b \/ fmax >= Rmax a b)
        /\ (exists s, Dict.get res name = Some (Some s)
                      /\ resolved_as fa (Rmin a b) (Rmax a b) c_lo c_hi s)
        \/ ~ (fmin <= Rmin a b \/ fmax >= Rmax a b)
           /\ Dict.get res name = None).
Proof.
  intros Hne. induction items as [|[k bounds] items IH];
    intros Hnd Hin acc Hacc; [destruct Hin|].
  cbn [Dict.keys map fst] in Hnd. inversion Hnd as [|? ? Hk Hnd']; subst.
  destruct Hin as [Heq|Hin].
  - inversion Heq; subst k bounds. clear Heq.
    destruct (resolve_shape_spec fa acc name a b Hne)
      as (fmin & fmax & c_lo & c_hi & Hmin & Hmax & Nlo & Nhi & Hcase).
    cbn [resolve_shapes].
    destruct Hcase as [[Hcov (s & Hres & Hs)]|[Hcov Hres]]; rewrite Hres;
      cbn [rbind].
    + destruct (resolve_shapes_absent fa items name Hne Hk
                  (Dict.set acc name (Some s))) as (res & Hr & Hget).
      exists fmin, fmax, c_lo, c_hi, res. repeat (split; [assumption|]).
      left. split; [exact Hcov|]. exists s. split; [|exact Hs].
      now rewrite Hget, get_set_same.
    + destruct (resolve_shapes_absent fa items name Hne Hk acc)
        as (res & Hr & Hget).
      exists fmin, fmax, c_lo, c_hi, res. repeat (split; [assumption|]).
      right. split; [exact Hcov | congruence].
  - assert (Hkn : k <> name).
    { intros ->. apply Hk. change (In (fst (name, (a, b))) (map fst items)).
      now apply in_map. }
    cbn [resolve_shapes].
    destruct (resolve_shape_other fa acc k name bounds Hne Hkn)
      as (acc' & -> & Hget). cbn [rbind].
    apply (IH Hnd' Hin acc'). congruence.
Qed.

(** C9: on a non-empty frequency axis, a named interval whose bounds are
    [lo] and [hi] is in the result of the shape resolver exactly when
    [min(axis) <= lo] or [max(axis) >= hi] (otherwise it is left out and
    nothing is raised); when it is in, its slice starts at the channel
    nearest to [lo], one lower when that channel lies above [lo] and is not
    channel 0, and stops at the channel nearest to [hi], one higher when
    that channel does not lie above [hi].  The names [narrow] and [streak]
    are not names of intervals. *)
Theorem C9_shape_resolver (fa : list R) (sd : Dict.t (R * R))
    (bd : option (Dict.t (R * R))) (narrow streak : bool)
    (name : string) (a b : R) :
  fa <> [] -> NoDup (Dict.keys sd) -> In (name, (a, b)) sd ->
  name <> "narrow"%string -> name <> "streak"%string ->
  exists fmin fmax c_lo c_hi slice_dict,
    is_min fmin fa /\ is_max fmax fa
    /\ nearest fa (Rmin a b) c_lo /\ nearest fa (Rmax a b) c_hi
    /\ _shape_slicer fa sd bd narrow streak "shape_dict" = Ok slice_dict
    /\ (In name (Dict.keys slice_dict)
        <-> fmin <= Rmin a b \/ fmax >= Rmax a b)
    /\ (fmin <= Rmin a b \/ fmax >= Rmax a b ->
        exists s, Dict.get slice_dict name = Some (Some s)
                  /\ resolved_as fa (Rmin a b) (Rmax a b) c_lo c_hi s).
Proof.
  intros Hne Hnd Hin Hnn Hns.
  destruct (resolve_shapes_present fa sd name a b Hne Hnd Hin [] eq_refl)
    as (fmin & fmax & c_lo & c_hi & res & Hmin & Hmax & Nlo & Nhi & Hres & Hcase).
  exists fmin, fmax, c_lo, c_hi.
  unfold _shape_slicer, getattr_dict. cbn [String.eqb Ascii.eqb Bool.eqb rbind].
  rewrite Hres. cbn [rbind]. eexists.
  repeat (split; [assumption|]). split; [reflexivity|].
  set (d1 := if narrow then Dict.set res "narrow" None else res).
  set (d2 := if streak then Dict.set d1 "streak" _ else d1).
  assert (Hget : Dict.get d2 name = Dict.get res name).
  { subst d2 d1. destruct streak, narrow;
      rewrite ?get_set_other by congruence; reflexivity. }
  split.
  - split.
    + intros Hk. destruct Hcase as [[Hcov _]|[_ Hn]]; [exact Hcov|].
      exfalso. revert Hk. apply get_None_keys. congruence.
    + intros Hcov. destruct Hcase as [[_ (s & Hs & _)]|[Hn _]]; [|tauto].
      destruct (in_dec string_dec name (Dict.keys d2)) as [H|H]; [exact H|].
      apply get_None_keys in H. congruence.
  - intros Hcov. destruct Hcase as [[_ (s & Hs & Hr)]|[Hn _]]; [|tauto].
    exists s. split; [congruence | exact Hr].
Qed.

Lemma C9_shape_resolver_witness :
  exists fmin fmax c_lo c_hi slice_dict,
    is_min fmin [1; 2; 3] /\ is_max fmax [1; 2; 3]
    /\ nearest [1; 2; 3] (Rmin 2 3) c_lo /\ nearest [1; 2; 3] (Rmax 2 3) c_hi
    /\ _shape_slicer [1; 2; 3] [("band", (2, 3))]%string (Some [])
         true true "shape_dict" = Ok slice_dict
    /\ (In "band"%string (Dict.keys slice_dict)
        <-> fmin <= Rmin 2 3 \/ fmax >= Rmax 2 3)
    /\ (fmin <= Rmin 2 3 \/ fmax >= Rmax 2 3 ->
        exists s, Dict.get slice_dict "band"%string = Some (Some s)
                  /\ resolved_as [1; 2; 3] (Rmin 2 3) (Rmax 2 3) c_lo c_hi s).
Proof.
  apply (C9_shape_resolver [1; 2; 3] [("band", (2, 3))]%string (Some [])
           true true "band" 2 3).
  - discriminate.
  - repeat constructor. simpl. tauto.
  - now left.
  - discriminate.
  - discriminate.
Defined.

(** ** C2: the sample-threshold test *)

Section SampThresh.

Variables (mf : MF) (ev : event) (ins : INS).

Let num_chan : Z := (Z.of_nat (stop (ev_f ev)) - Z.of_nat (start (ev_f ev)))%Z.
Let num_unflagged : Z :=
  (Z.of_nat (Ntimes ins)
   - Z.of_nat (List.length (flagged_in_channels ins (ev_f ev))))%Z.

Hypothesis precondition : N_samp_thresh mf <= INR (Ntimes ins).
Hypothesis width : (start (ev_f ev) < stop (ev_f ev))%nat.

Lemma samp_thresh_guard :
  Rgtb (N_samp_thresh mf) (INR (Ntimes ins)) = false
  /\ (num_chan =? 0)%Z = false.
Proof.
  split.
  - now apply Rltb_false.
  - apply Z.eqb_neq. subst num_chan. lia.
Qed.

(** Enough samples: the event comes back and nothing changes. *)
Lemma samp_thresh_enough (event_record : bool) :
  N_samp_thresh mf <= IZR num_unflagged / IZR num_chan ->
  apply_samp_thresh_test mf ev event_record ins = (Ret ev, ins).
Proof.
  intros H. unfold apply_samp_thresh_test.
  destruct samp_thresh_guard as [-> G]. fold num_chan. rewrite G.
  fold num_unflagged.
  now replace (Rltb _ _) with false by (symmetry; now apply Rltb_false).
Qed.

(** Too few samples, recording on: the channels are blanked at every
    time, the derived event is appended and returned. *)
Lemma samp_thresh_blank_recorded :
  IZR num_unflagged / IZR num_chan < N_samp_thresh mf ->
  let new_event :=
    Event (Slice 0 (Ntimes ins)) (ev_f ev) ("samp_thresh_" ++ ev_shape ev)
          None in
  apply_samp_thresh_test mf ev true ins
  = (Ret new_event,
     append_event
       (set_metric_array ins (mask_channels (ev_f ev) (metric_array ins)))
       (Logged4 new_event)).
Proof.
  intros H. unfold apply_samp_thresh_test.
  destruct samp_thresh_guard as [-> G]. fold num_chan. rewrite G.
  fold num_unflagged.
  now replace (Rltb _ _) with true by (symmetry; now apply Rltb_true).
Qed.

(** Too few samples, recording off: the channels are blanked and the
    [return] finds [new_event] unbound. *)
Lemma samp_thresh_blank_unrecorded :
  IZR num_unflagged / IZR num_chan < N_samp_thresh mf ->
  apply_samp_thresh_test mf ev false ins
  = (Raise UnboundLocalError,
     set_metric_array ins (mask_channels (ev_f ev) (metric_array ins))).
Proof.
  intros H. unfold apply_samp_thresh_test.
  destruct samp_thresh_guard as [-> G]. fold num_chan. rewrite G.
  fold num_unflagged.
  now replace (Rltb _ _) with true by (symmetry; now apply Rltb_true).
Qed.

End SampThresh.

(** C2 (code defect): with [N_samp_thresh = 1/2], four times, and
    channel 0 flagged at all of them, the test on an event of channel
    range [0, 1) with recording off blanks the channel and then raises
    [UnboundLocalError] where the claim has it return the derived event. *)
Theorem C2_samp_thresh_unrecorded_raises :
  let ev := Event (Slice 3 4) (Slice 0 1) "narrow" (Some 10) in
  N_samp_thresh (mf_default (1 / 2)) <= INR (Ntimes ins_channel0_flagged)
  /\ apply_samp_thresh_test (mf_default (1 / 2)) ev false ins_channel0_flagged
     = (Raise UnboundLocalError,
        set_metric_array ins_channel0_flagged
          (mask_channels (Slice 0 1) (metric_array ins_channel0_flagged))).
Proof.
  intros ev. split; [simpl; lra|].
  apply samp_thresh_blank_unrecorded; simpl; try lra; lia.
Qed.

(** ** C3: the frequency broadcaster *)

(** The guard fires on [None] only. *)
Lemma freq_broadcast_None (mf : MF) (ev : event) (rec : bool) (ins : INS) :
  broadcast_dict mf = None ->
  freq_broadcast mf ev rec ins = (Raise ValueError, ins).
Proof. intros H. unfold freq_broadcast. now rewrite H. Qed.

Lemma in_index_set (s : slice) (i : nat) :
  In i (index_set s) <-> (start s <= i < stop s)%nat.
Proof. unfold index_set, sel. rewrite in_seq. lia. Qed.

Lemma isdisjoint_true (a b : list nat) :
  (forall i, In i a -> ~ In i b) -> isdisjoint a b = true.
Proof.
  intros H. unfold isdisjoint. apply negb_true_iff.
  apply not_true_is_false. intros E. apply existsb_exists in E.
  destruct E as (i & Hi & E). apply existsb_exists in E.
  destruct E as (j & Hj & E). apply Nat.eqb_eq in E. subst j.
  now apply (H i).
Qed.

(** An event whose channels meet no sub-band changes nothing. *)
Lemma freq_broadcast_disjoint (mf : MF) (ev : event) (rec : bool) (ins : INS) :
  broadcast_dict mf <> None ->
  (forall sb, In sb (Dict.keys (broadcast_slc_dict mf)) ->
     exists sb_slc,
       Dict.get (broadcast_slc_dict mf) sb = Some (Some sb_slc)
       /\ forall i, In i (index_set (ev_f ev)) -> ~ In i (index_set sb_slc)) ->
  freq_broadcast mf ev rec ins = (Ret tt, ins).
Proof.
  intros Hbd Hdis. unfold freq_broadcast.
  destruct (broadcast_dict mf); [clear Hbd | congruence].
  induction (Dict.keys (broadcast_slc_dict mf)) as [|sb sbs IH];
    [reflexivity|].
  cbn [broadcast_loop]. unfold mbind at 1. unfold broadcast_step, Dict.item.
  destruct (Hdis sb (or_introl eq_refl)) as (sb_slc & -> & Hd).
  rewrite (isdisjoint_true _ _ Hd). cbn [negb].
  apply IH. intros sb' H'. apply Hdis. now right.
Qed.

(** C3 (code defect): a filter built with the default, empty sub-band map
    broadcasts without raising; the guard compares [broadcast_dict] with
    [None], which the empty dictionary is not. *)
Theorem C3_freq_broadcast_empty_map_returns (n : R) (ev : event)
    (rec : bool) (ins : INS) :
  broadcast_dict (mf_default n) = Some []
  /\ broadcast_slc_dict (mf_default n) = []
  /\ freq_broadcast (mf_default n) ev rec ins = (Ret tt, ins).
Proof. repeat split. Qed.

(** ** The outlier search *)

Lemma in_cells (ins : INS) (t f p : nat) :
  In (t, f, p) (cells ins)
  <-> (t < Ntimes ins)%nat /\ (f < Nfreqs ins)%nat /\ (p < Npols ins)%nat.
Proof.
  unfold cells. rewrite in_flat_map. split.
  - intros (t' & Ht & H). apply in_flat_map in H. destruct H as (f' & Hf & H).
    apply in_map_iff in H. destruct H as (p' & Heq & Hp).
    inversion Heq; subst. apply in_seq in Ht, Hf, Hp. lia.
  - intros (Ht & Hf & Hp). exists t. split; [apply in_seq; lia|].
    apply in_flat_map. exists f. split; [apply in_seq; lia|].
    apply in_map_iff. exists p. split; [reflexivity | apply in_seq; lia].
Qed.

Lemma in_time_pols (ins : INS) (t p : nat) :
  In (t, p) (time_pols ins) <-> (t < Ntimes ins)%nat /\ (p < Npols ins)%nat.
Proof.
  unfold time_pols. rewrite in_flat_map. split.
  - intros (t' & Ht & H). apply in_map_iff in H. destruct H as (p' & Heq & Hp).
    inversion Heq; subst. apply in_seq in Ht, Hp. lia.
  - intros (Ht & Hp). exists t. split; [apply in_seq; lia|].
    apply in_map_iff. exists p. split; [reflexivity | apply in_seq; lia].
Qed.

Section Argmax.

Context {K : Type} (val : K -> option R).

Lemma dominates_keep (best k : K) (seen : list K) :
  dominates val best seen ->
  (forall v, val k = Some v -> exists b, val best = Some b /\ v <= b) ->
  dominates val best (seen ++ [k]).
Proof.
  intros Hd Hk k' v' Hk' Hv'. apply in_app_or in Hk'.
  destruct Hk' as [Hk'|[<-|[]]]; [now apply (Hd k') | now apply Hk].
Qed.

Lemma dominates_take (best k : K) (seen : list K) (v : R) :
  dominates val best seen ->
  val k = Some v ->
  (forall b, val best = Some b -> b < v) ->
  dominates val k (seen ++ [k]).
Proof.
  intros Hdom Hv Hlt k' v' Hk' Hv'. exists v. split; [exact Hv|].
  apply in_app_or in Hk'. destruct Hk' as [Hk'|[<-|[]]].
  - destruct (Hdom k' v' Hk' Hv') as (b & Hb & Hle).
    specialize (Hlt b Hb). lra.
  - assert (v' = v) by congruence. lra.
Qed.

Lemma argmax_from_spec (ks seen : list K) (best : K) :
  In best seen -> dominates val best seen ->
  In (argmax_from val ks best (val best)) (seen ++ ks)
  /\ dominates val (argmax_from val ks best (val best)) (seen ++ ks).
Proof.
  revert seen best.
  induction ks as [|k ks IH]; intros seen best Hin Hdom; cbn [argmax_from].
  - rewrite app_nil_r. now split.
  - replace (seen ++ k :: ks) with ((seen ++ [k]) ++ ks)
      by (now rewrite <- app_assoc).
    pose proof (dominates_keep best k seen Hdom) as Hkeep.
    pose proof (dominates_take best k seen) as Htake.
    assert (Hb : In best (seen ++ [k])) by (apply in_or_app; now left).
    assert (Hk : In k (seen ++ [k])) by (apply in_or_app; right; now left).
    destruct (val k) as [v|] eqn:Ev.
    + destruct (val best) as [b|] eqn:Eb.
      * destruct (Rltb b v) eqn:E.
        -- apply Rltb_true in E. rewrite <- Ev. apply IH; [exact Hk|].
           apply (Htake v Hdom eq_refl). intros b' Hb'. congruence.
        -- apply Rltb_false in E. rewrite <- Eb. apply IH; [exact Hb|].
           apply Hkeep. intros v0 Hv0. exists b. split; [reflexivity|].
           congruence.
      * rewrite <- Ev. apply IH; [exact Hk|].
        apply (Htake v Hdom eq_refl). intros b' Hb'. discriminate.
    + destruct (val best) as [b|] eqn:Eb; rewrite <- Eb;
        (apply IH; [exact Hb|]); apply Hkeep; intros v0 Hv0; discriminate.
Qed.

Lemma argmax_spec (keys : list K) :
  keys <> [] ->
  exists k, argmax val keys = Ok k /\ In k keys /\ dominates val k keys.
Proof.
  intros Hne. destruct keys as [|k ks]; [congruence|].
  exists (argmax_from val ks k (val k)). split; [reflexivity|].
  apply (argmax_from_spec ks [k] k).
  - now left.
  - intros k' v' [<-|[]] Hv'. exists v'. split; [exact Hv' | lra].
Qed.

End Argmax.

Lemma cells_nonempty (ins : INS) :
  (0 < Ntimes ins)%nat -> (0 < Nfreqs ins)%nat -> (0 < Npols ins)%nat ->
  cells ins <> [].
Proof.
  intros Ht Hf Hp E.
  assert (H : In (0, 0, 0)%nat (cells ins)) by (now apply in_cells).
  rewrite E in H. destruct H.
Qed.

Lemma time_pols_nonempty (ins : INS) :
  (0 < Ntimes ins)%nat -> (0 < Npols ins)%nat -> time_pols ins <> [].
Proof.
  intros Ht Hp E.
  assert (H : In (0, 0)%nat (time_pols ins)) by (now apply in_time_pols).
  rewrite E in H. destruct H.
Qed.

(** [sliced_arr] against the raw significance as the specification
    words it. *)
Lemma sel_filter (slc : slice) (n : nat) :
  sel slc n = filter (in_slice slc) (seq 0 n).
Proof.
  destruct slc as [a b]. unfold sel, in_slice. cbn [start stop].
  induction n as [|n IH].
  - rewrite Nat.min_0_r. reflexivity.
  - rewrite seq_S, filter_app, <- IH. cbn [filter Nat.add].
    destruct ((a <=? n)%nat && (n <? b)%nat) eqn:E.
    + apply andb_true_iff in E. rewrite Nat.leb_le, Nat.ltb_lt in E.
      replace (Nat.min b (S n) - a)%nat with (S (n - a)) by lia.
      replace (Nat.min b n - a)%nat with (n - a)%nat by lia.
      rewrite seq_S. f_equal. f_equal. lia.
    + rewrite app_nil_r. apply andb_false_iff in E.
      rewrite Nat.leb_gt, Nat.ltb_ge in E. f_equal. lia.
Qed.

Lemma unmasked_vals_map (ins : INS) (t p : nat) (fs : list nat) :
  unmasked_vals (metric_ms ins) t p fs
  = map (value_at ins t p)
        (filter (fun f => negb (is_masked (metric_ms ins) t f p)) fs).
Proof.
  unfold unmasked_vals, is_masked, value_at.
  induction fs as [|f fs IH]; cbn [flat_map filter map]; [reflexivity|].
  destruct (metric_ms ins t f p) eqn:E; cbn [negb map app]; rewrite IH;
    [now rewrite E | reflexivity].
Qed.

Lemma Rsum_fold_left (l : list R) : Rsum l = fold_left Rplus l 0.
Proof.
  unfold Rsum. symmetry. apply fold_symmetric; intros; lra.
Qed.

Lemma sliced_arr_spec (ins : INS) (slc : slice) (t p : nat) :
  sliced_arr ins slc t p = spec_significance ins slc t p.
Proof.
  unfold sliced_arr, ma_mean, count_unmasked, spec_significance,
    contributing, range_channels.
  rewrite <- sel_filter, unmasked_vals_map.
  destruct (filter _ (sel slc (Nfreqs ins))) as [|c cs]; [reflexivity|].
  cbn [map List.length Nat.eqb]. rewrite length_map, Rsum_fold_left.
  reflexivity.
Qed.

Lemma narrow_candidate_spec (ins : INS) :
  cells ins <> [] ->
  exists t f p,
    In (t, f, p) (cells ins)
    /\ narrow_candidate ins
       = Ok (Slice t (t + 1), Slice f (f + 1),
             option_map Rabs (metric_ms ins t f p))
    /\ dominates (fun c : nat * nat * nat =>
                    let '(t, f, p) := c in
                    option_map Rabs (metric_ms ins t f p))
                 (t, f, p) (cells ins).
Proof.
  intros Hne. unfold narrow_candidate.
  destruct (argmax_spec
              (fun c : nat * nat * nat =>
                 let '(t, f, p) := c in option_map Rabs (metric_ms ins t f p))
              (cells ins) Hne) as ([[t f] p] & -> & Hin & Hdom).
  exists t, f, p. now repeat split.
Qed.

Lemma shape_candidate_spec (mf : MF) (ins : INS) (shape : string)
    (slc : slice) (thr : R) :
  time_pols ins <> [] ->
  Dict.get (slice_dict mf) shape = Some (Some slc) ->
  Dict.get (sig_thresh mf) shape = Some thr ->
  exists t p,
    In (t, p) (time_pols ins)
    /\ shape_candidate mf ins shape
       = Ok (Slice t (t + 1), slc, sliced_arr ins slc t p)
    /\ dominates (fun c : nat * nat =>
                    ma_div (sliced_arr ins slc (fst c) (snd c)) thr)
                 (t, p) (time_pols ins).
Proof.
  intros Hne Hs Ht. unfold shape_candidate, Dict.item. rewrite Hs, Ht.
  cbn [rbind].
  destruct (argmax_spec
              (fun c : nat * nat =>
                 ma_div (sliced_arr ins slc (fst c) (snd c)) thr)
              (time_pols ins) Hne) as ([t p] & -> & Hin & Hdom).
  exists t, p. now repeat split.
Qed.

Lemma candidate_total (mf : MF) (ins : INS) (shape : string) :
  searchable mf ins -> In shape (Dict.keys (slice_dict mf)) ->
  exists c thr, candidate mf ins shape = Ok c
                /\ Dict.get (sig_thresh mf) shape = Some thr.
Proof.
  intros (Ht & Hf & Hp & Hthr & Hslc) Hin.
  destruct (Dict.get (sig_thresh mf) shape) as [thr|] eqn:Et;
    [|now apply Hthr in Hin].
  unfold candidate. destruct (String.eqb shape "narrow") eqn:E.
  - destruct (narrow_candidate_spec ins (cells_nonempty ins Ht Hf Hp))
      as (t & f & p & _ & -> & _).
    now eexists _, thr.
  - apply String.eqb_neq in E. destruct (Hslc shape Hin E) as (slc & Hs).
    destruct (shape_candidate_spec mf ins shape slc thr
                (time_pols_nonempty ins Ht Hp) Hs Et) as (t & p & _ & -> & _).
    now eexists _, thr.
Qed.

Lemma match_step_spec (mf : MF) (ins : INS) (done : list string)
    (best : champion) (shape : string) (c : slice * slice * option R)
    (thr : R) :
  candidate mf ins shape = Ok c ->
  Dict.get (sig_thresh mf) shape = Some thr ->
  champion_of mf ins done best ->
  exists best', match_step mf ins best shape = Ok best'
                /\ champion_of mf ins (done ++ [shape]) best'.
Proof.
  intros Hc Ht Hinv. destruct c as [[t f] sigo].
  unfold match_step, Dict.item. rewrite Hc, Ht. cbn [rbind].
  assert (Hsame : forall t' f' sig',
            eligible mf ins shape t' f' sig' ->
            compared shape sigo = Some sig' /\ sig' > thr).
  { intros t' f' sig' [Hc' (thr' & Ht' & Hgt)].
    rewrite Hc in Hc'. inversion Hc'; subst.
    rewrite Ht in Ht'. inversion Ht'; subst. now split. }
  assert (Hskip : (forall t' f' sig', eligible mf ins shape t' f' sig' ->
                     match best with
                     | None => False
                     | Some (_, _, sig_max, _) => sig' <= sig_max
                     end) ->
                  champion_of mf ins (done ++ [shape]) best).
  { intros Hs. destruct best as [[[[tm fm] sm] shm]|]; cbn in *.
    - destruct Hinv as (Hown & pre & post & -> & Hpre & Hpost).
      split; [exact Hown|]. exists pre, (post ++ [shape]).
      split; [now rewrite <- app_assoc|]. split; [exact Hpre|].
      intros s t' f' sig' Hin Hel. apply in_app_or in Hin.
      destruct Hin as [Hin|[<-|[]]]; [now apply (Hpost s t' f')|].
      now apply (Hs t' f').
    - intros s t' f' sig' Hin Hel. apply in_app_or in Hin.
      destruct Hin as [Hin|[<-|[]]]; [now apply (Hinv s t' f' sig')|].
      now apply (Hs t' f' sig'). }
  destruct (compared shape sigo) as [s|] eqn:Ecmp.
  - destruct (Rgtb s thr) eqn:Egt.
    + apply Rltb_true in Egt.
      destruct (beats s best) eqn:Eb.
      * eexists. split; [reflexivity|]. cbn. split.
        { intros t' f' sig' Hel'. apply Hsame in Hel'.
          destruct Hel' as [Hel' _]. inversion Hel'. lra. }
        exists done, []. split; [reflexivity|]. split; [|intros ? ? ? ? []].
        intros s0 t' f' sig' Hin Hel'.
        destruct best as [[[[tm fm] sm] shm]|]; cbn in *.
        -- apply Rltb_true in Eb.
           destruct Hinv as (Hown & pre & post & -> & Hpre & Hpost).
           apply in_app_or in Hin. destruct Hin as [Hin|[<-|Hin]].
           ++ specialize (Hpre s0 t' f' sig' Hin Hel'). lra.
           ++ specialize (Hown t' f' sig' Hel'). lra.
           ++ specialize (Hpost s0 t' f' sig' Hin Hel'). lra.
        -- exfalso. now apply (Hinv s0 t' f' sig').
      * exists best. split; [reflexivity|]. apply Hskip.
        intros t' f' sig' Hel'. apply Hsame in Hel'.
        destruct Hel' as [Hel' _]. inversion Hel'; subst.
        destruct best as [[[[tm fm] sm] shm]|]; cbn in *; [|discriminate].
        now apply Rltb_false in Eb.
    + apply Rltb_false in Egt. exists best. split; [reflexivity|].
      apply Hskip. intros t' f' sig' Hel'. exfalso. apply Hsame in Hel'.
      destruct Hel' as [Hel' Hgt]. inversion Hel'; subst. lra.
  - exists best. split; [reflexivity|]. apply Hskip.
    intros t' f' sig' Hel'. exfalso. apply Hsame in Hel'.
    destruct Hel' as [Hel' _]. discriminate.
Qed.

Lemma match_loop_spec (mf : MF) (ins : INS) (shapes done : list string)
    (best : champion) :
  (forall shape, In shape shapes ->
     exists c thr, candidate mf ins shape = Ok c
                   /\ Dict.get (sig_thresh mf) shape = Some thr) ->
  champion_of mf ins done best ->
  exists best', match_loop mf ins shapes best = Ok best'
                /\ champion_of mf ins (done ++ shapes) best'.
Proof.
  revert done best.
  induction shapes as [|shape shapes IH]; intros done best Hok Hinv.
  - exists best. rewrite app_nil_r. now split.
  - destruct (Hok shape (or_introl eq_refl)) as (c & thr & Hc & Ht).
    destruct (match_step_spec mf ins done best shape c thr Hc Ht Hinv)
      as (best1 & Hstep & Hinv1).
    cbn [match_loop]. rewrite Hstep. cbn [rbind].
    destruct (IH (done ++ [shape]) best1) as (best' & Hloop & Hinv');
      [intros s Hs; apply Hok; now right | exact Hinv1 |].
    exists best'. split; [exact Hloop|]. now rewrite <- app_assoc in Hinv'.
Qed.

Lemma match_test_spec (mf : MF) (ins : INS) :
  searchable mf ins ->
  exists best, match_test mf ins = Ok best
               /\ champion_of mf ins (Dict.keys (slice_dict mf)) best.
Proof.
  intros Hs. unfold match_test.
  apply (match_loop_spec mf ins (Dict.keys (slice_dict mf)) [] None).
  - intros shape Hin. now apply candidate_total.
  - intros shape t f sig [].
Qed.

(** A champion is the candidate of its shape, with the significance as
    the comparisons read it, and above the threshold of the shape. *)
Lemma match_loop_compared (mf : MF) (ins : INS) (shapes : list string)
    (best best' : champion) :
  (forall t f sig shape, best = Some (t, f, sig, shape) ->
     exists sigo thr,
       candidate mf ins shape = Ok (t, f, sigo)
       /\ compared shape sigo = Some sig
       /\ Dict.get (sig_thresh mf) shape = Some thr /\ sig > thr) ->
  match_loop mf ins shapes best = Ok best' ->
  forall t f sig shape, best' = Some (t, f, sig, shape) ->
    exists sigo thr,
      candidate mf ins shape = Ok (t, f, sigo)
      /\ compared shape sigo = Some sig
      /\ Dict.get (sig_thresh mf) shape = Some thr /\ sig > thr.
Proof.
  revert best. induction shapes as [|s shapes IH]; intros best Hb;
    cbn [match_loop].
  - intros H. inversion H. now subst.
  - destruct (match_step mf ins best s) as [best1|e] eqn:E; [|discriminate].
    cbn [rbind]. apply IH. unfold match_step in E.
    destruct (candidate mf ins s) as [[[t f] sigo]|e] eqn:Ec; [|discriminate].
    cbn [rbind] in E. unfold Dict.item in E.
    destruct (Dict.get (sig_thresh mf) s) as [thr|] eqn:Et; [|discriminate].
    cbn [rbind] in E.
    destruct (compared s sigo) as [v|] eqn:Ev; [|inversion E; now subst].
    destruct (Rgtb v thr) eqn:Eg; [|inversion E; now subst].
    destruct (beats v best); inversion E; subst; [|exact Hb].
    intros t' f' sig' shape' H. inversion H; subst.
    exists sigo, thr. apply Rltb_true in Eg. now repeat split.
Qed.

Lemma match_test_compared (mf : MF) (ins : INS) (t f : slice) (sig : R)
    (shape : string) :
  match_test mf ins = Ok (Some (t, f, sig, shape)) ->
  exists sigo thr,
    candidate mf ins shape = Ok (t, f, sigo)
    /\ compared shape sigo = Some sig
    /\ Dict.get (sig_thresh mf) shape = Some thr /\ sig > thr.
Proof.
  intros H.
  apply (match_loop_compared mf ins (Dict.keys (slice_dict mf)) None
           (Some (t, f, sig, shape))); auto.
  discriminate.
Qed.

(** Above a threshold that is not negative, what the comparisons read is
    an unmasked significance. *)
Lemma compared_unmasked (shape : string) (sigo : option R) (sig thr : R) :
  compared shape sigo = Some sig -> sig > thr -> 0 <= thr ->
  sigo = Some sig.
Proof.
  unfold compared. destruct sigo as [s|]; [now intros H|].
  destruct (String.eqb shape "narrow"); [discriminate|].
  intros H. inversion H. lra.
Qed.

(** With no negative threshold the champion is an eligible candidate. *)
Lemma champion_eligible (mf : MF) (ins : INS) (t f : slice) (sig : R)
    (shape : string) :
  thresholds_nonneg mf ->
  match_test mf ins = Ok (Some (t, f, sig, shape)) ->
  eligible mf ins shape t f sig.
Proof.
  intros Hnn Hm. apply match_test_compared in Hm.
  destruct Hm as (sigo & thr & Hc & Hcmp & Ht & Hgt).
  apply (compared_unmasked shape sigo sig thr) in Hcmp;
    [|exact Hgt | now apply (Hnn shape)].
  subst sigo. split; [exact Hc | now exists thr].
Qed.

Lemma match_test_candidate (mf : MF) (ins : INS) (t f : slice) (sig : R)
    (shape : string) :
  thresholds_nonneg mf ->
  match_test mf ins = Ok (Some (t, f, sig, shape)) ->
  candidate mf ins shape = Ok (t, f, Some sig).
Proof.
  intros Hnn Hm. now destruct (champion_eligible mf ins t f sig shape Hnn Hm).
Qed.

(** C4: when the search runs through and no threshold is negative,
    (a) the candidate of a shape other than [narrow] spans the slice of
    the shape at one time [t]; its significance is the raw significance
    of some pair [(t, p)] as the specification words it, [|mean| *
    sqrt(n)] over the [n] channels of the range that are unmasked in
    [metric_ms], masked when there is none; and that pair maximises raw
    significance over threshold among the pairs that have one; (b) the
    result is an eligible candidate (raw significance strictly above the
    threshold of its shape) that no eligible candidate exceeds in raw
    significance, and it is [(None, None, -inf, None)] when no candidate
    is eligible. *)
Theorem C4_match_test (mf : MF) (ins : INS) :
  searchable mf ins ->
  thresholds_nonneg mf ->
  (forall shape slc thr,
     In shape (Dict.keys (slice_dict mf)) -> shape <> "narrow"%string ->
     Dict.get (slice_dict mf) shape = Some (Some slc) ->
     Dict.get (sig_thresh mf) shape = Some thr ->
     exists t p,
       (t < Ntimes ins)%nat /\ (p < Npols ins)%nat
       /\ candidate mf ins shape
          = Ok (Slice t (t + 1), slc, spec_significance ins slc t p)
       /\ (forall t' p' raw',
             (t' < Ntimes ins)%nat -> (p' < Npols ins)%nat -> thr <> 0 ->
             spec_significance ins slc t' p' = Some raw' ->
             exists raw, spec_significance ins slc t p = Some raw
                         /\ raw' / thr <= raw / thr))
  /\ exists best,
       match_test mf ins = Ok best
       /\ match best with
          | None =>
              forall shape t f sig,
                In shape (Dict.keys (slice_dict mf)) ->
                ~ eligible mf ins shape t f sig
          | Some (t, f, sig, shape) =>
              In shape (Dict.keys (slice_dict mf))
              /\ eligible mf ins shape t f sig
              /\ forall shape' t' f' sig',
                   In shape' (Dict.keys (slice_dict mf)) ->
                   eligible mf ins shape' t' f' sig' -> sig' <= sig
          end.
Proof.
  intros Hs Hnn. split.
  - intros shape slc thr Hin Hnar Hslc Hthr.
    destruct Hs as (Ht & Hf & Hp & _ & _).
    destruct (shape_candidate_spec mf ins shape slc thr
                (time_pols_nonempty ins Ht Hp) Hslc Hthr)
      as (t & p & Hin' & Hc & Hdom).
    exists t, p. apply in_time_pols in Hin'.
    split; [tauto|]. split; [tauto|]. split.
    + unfold candidate. apply String.eqb_neq in Hnar. rewrite Hnar.
      now rewrite <- sliced_arr_spec.
    + intros t' p' raw' Ht' Hp' Hnz Hraw. rewrite <- sliced_arr_spec in *.
      destruct (Hdom (t', p') (raw' / thr)) as (v & Hv & Hle).
      * now apply in_time_pols.
      * cbn [fst snd]. rewrite Hraw. unfold ma_div.
        now replace (Reqb thr 0) with false
          by (symmetry; now apply Reqb_false).
      * cbn [fst snd] in Hv. unfold ma_div in Hv.
        destruct (sliced_arr ins slc t p) as [raw|]; [|discriminate].
        destruct (Reqb thr 0); [discriminate|].
        exists raw. split; [reflexivity|]. inversion Hv; subst. exact Hle.
  - destruct (match_test_spec mf ins Hs) as (best & Hm & Hinv).
    exists best. split; [exact Hm|].
    destruct best as [[[[t f] sig] shape]|]; cbn in Hinv; [|exact Hinv].
    destruct Hinv as (Hown & pre & post & Hk & Hpre & Hpost).
    split; [rewrite Hk; apply in_or_app; right; now left|].
    split; [now apply champion_eligible|].
    intros shape' t' f' sig' Hin Hel. rewrite Hk in Hin.
    apply in_app_or in Hin. destruct Hin as [Hin|[<-|Hin]].
    + specialize (Hpre shape' t' f' sig' Hin Hel). lra.
    + now apply (Hown t' f').
    + now apply (Hpost shape' t' f').
Qed.

(** C8: on a non-empty cube the candidate of [narrow] spans one time and
    one channel, those of a cell [(t, f, p)] of the cube, and its
    significance is the absolute value of that cell; whenever the cube has
    an unmasked cell, that cell is unmasked and no unmasked cell of the
    cube has a greater absolute value. *)
Theorem C8_narrow_candidate (mf : MF) (ins : INS) :
  (0 < Ntimes ins)%nat -> (0 < Nfreqs ins)%nat -> (0 < Npols ins)%nat ->
  exists t f p,
    candidate mf ins "narrow"
    = Ok (Slice t (t + 1), Slice f (f + 1),
          option_map Rabs (metric_ms ins t f p))
    /\ (t < Ntimes ins)%nat /\ (f < Nfreqs ins)%nat /\ (p < Npols ins)%nat
    /\ forall t' f' p' v',
         (t' < Ntimes ins)%nat -> (f' < Nfreqs ins)%nat ->
         (p' < Npols ins)%nat ->
         metric_ms ins t' f' p' = Some v' ->
         exists v, metric_ms ins t f p = Some v /\ Rabs v' <= Rabs v.
Proof.
  intros Ht Hf Hp.
  destruct (narrow_candidate_spec ins (cells_nonempty ins Ht Hf Hp))
    as (t & f & p & Hin & Hc & Hdom).
  apply in_cells in Hin. exists t, f, p.
  split; [exact Hc|]. split; [tauto|]. split; [tauto|]. split; [tauto|].
  intros t' f' p' v' Ht' Hf' Hp' Hv'.
  destruct (Hdom (t', f', p') (Rabs v')) as (b & Hb & Hle).
  { apply in_cells. lia. }
  { now rewrite Hv'. }
  cbn in Hb. destruct (metric_ms ins t f p) as [v|]; [|discriminate].
  exists v. split; [reflexivity|]. inversion Hb; subst. exact Hle.
Qed.

Lemma C8_narrow_candidate_witness :
  exists t f p,
    candidate (mf_default 0) ins_channel0_flagged "narrow"
    = Ok (Slice t (t + 1), Slice f (f + 1),
          option_map Rabs (metric_ms ins_channel0_flagged t f p))
    /\ (t < 4)%nat /\ (f < 2)%nat /\ (p < 1)%nat
    /\ forall t' f' p' v',
         (t' < 4)%nat -> (f' < 2)%nat -> (p' < 1)%nat ->
         metric_ms ins_channel0_flagged t' f' p' = Some v' ->
         exists v, metric_ms ins_channel0_flagged t f p = Some v
                   /\ Rabs v' <= Rabs v.
Proof.
  apply (C8_narrow_candidate (mf_default 0) ins_channel0_flagged);
    simpl; lia.
Defined.

(** Unfolds the filter on a concrete input down to operations on reals. *)
Ltac eval_filter :=
  cbv -[Rabs Rltb Rplus Rmult Rdiv Rinv Rminus Ropp sqrt INR IZR
        Reqb Rleb Rgtb Rgeb Rsum Rmin Rmax].

Lemma Rabs_pos_val (x : R) : 0 <= x -> Rabs x = x.
Proof. intros H. now apply Rabs_pos_eq. Qed.

(** One round of evaluation: unfold, then settle the comparisons between
    numerals that block the way. *)
Ltac eval_round :=
  eval_filter;
  repeat match goal with
  | |- context [Rabs ?x] => rewrite (Rabs_pos_val x) by lra
  end;
  unfold Rgtb, Rgeb; rcompare.

Lemma raw_single (v : R) :
  0 <= v -> Rabs (Rsum [v] / INR 1) * sqrt (INR 1) = v.
Proof.
  intros H. unfold Rsum. simpl. rewrite sqrt_1.
  replace ((v + 0) / 1) with v by lra. rewrite Rabs_pos_eq by exact H. lra.
Qed.

Lemma searchable_default_single (n : R) : searchable (mf_default n) ins_single.
Proof.
  unfold searchable. simpl. repeat split; try lia.
  - intros shape [<-|[<-|[]]]; discriminate.
  - intros shape [<-|[<-|[]]] H; [congruence|]. now exists (Slice 0 3).
Qed.

Lemma thresholds_nonneg_default (n : R) : thresholds_nonneg (mf_default n).
Proof.
  intros shape thr. cbn -[String.eqb].
  destruct (String.eqb _ shape); [intros H; inversion H; lra|].
  destruct (String.eqb _ shape); [intros H; inversion H; lra | discriminate].
Qed.

Lemma searchable_two_channels : searchable mf_two_channels ins_streak.
Proof.
  unfold searchable. simpl. repeat split; try lia.
  - intros shape [<-|[<-|[]]]; discriminate.
  - intros shape [<-|[<-|[]]] H; [congruence|]. now exists (Slice 0 2).
Qed.

Lemma thresholds_nonneg_two_channels : thresholds_nonneg mf_two_channels.
Proof.
  intros shape thr. cbn -[String.eqb].
  destruct (String.eqb _ shape); [intros H; inversion H; lra|].
  destruct (String.eqb _ shape); [intros H; inversion H; lra | discriminate].
Qed.

Lemma sqrt_2_above : 5 / 4 < sqrt 2.
Proof.
  replace (5 / 4) with (sqrt ((5 / 4) * (5 / 4))) by (apply sqrt_square; lra).
  apply sqrt_lt_1; lra.
Qed.

Lemma raw_pair (a b : R) :
  0 <= a + b ->
  Rabs (Rsum [a; b] / INR 2) * sqrt (INR 2) = (a + b) / 2 * sqrt 2.
Proof.
  intros H. unfold Rsum. cbn [fold_right INR].
  replace (1 + 1) with 2 by lra.
  replace ((a + (b + 0)) / 2) with ((a + b) / 2) by lra.
  rewrite Rabs_pos_eq by lra. reflexivity.
Qed.

(** The greatest absolute z-score, 5, is not strictly above the
    threshold 5 of [narrow].  Over the two channels the raw significance
    is [sqrt 2] at time 0 and [4 * sqrt 2] at time 1; the latter is the
    candidate of [streak], above the threshold 5, and the champion. *)
Lemma match_test_streak :
  match_test mf_two_channels ins_streak
  = Ok (Some (Slice 1 2, Slice 0 2, 4 * sqrt 2, "streak"%string)).
Proof.
  pose proof sqrt_2_above as Hsqrt.
  unfold match_test. eval_round.
  rewrite !(Rabs_pos_val 5) by lra. rewrite !raw_pair by lra.
  rcompare. eval_filter. rewrite !raw_pair by lra.
  replace ((3 + 5) / 2) with 4 by lra. rcompare. reflexivity.
Qed.

Lemma C4_match_test_witness :
  (exists t p,
     (t < 2)%nat /\ (p < 1)%nat
     /\ candidate mf_two_channels ins_streak "streak"
        = Ok (Slice t (t + 1), Slice 0 2,
              spec_significance ins_streak (Slice 0 2) t p)
     /\ (forall t' p' raw',
           (t' < 2)%nat -> (p' < 1)%nat -> 5 <> 0 ->
           spec_significance ins_streak (Slice 0 2) t' p' = Some raw' ->
           exists raw, spec_significance ins_streak (Slice 0 2) t p = Some raw
                       /\ raw' / 5 <= raw / 5))
  /\ match_test mf_two_channels ins_streak
     = Ok (Some (Slice 1 2, Slice 0 2, 4 * sqrt 2, "streak"%string))
  /\ eligible mf_two_channels ins_streak "streak" (Slice 1 2) (Slice 0 2)
       (4 * sqrt 2)
  /\ forall shape' t' f' sig',
       In shape' ["narrow"; "streak"]%string ->
       eligible mf_two_channels ins_streak shape' t' f' sig' ->
       sig' <= 4 * sqrt 2.
Proof.
  destruct (C4_match_test mf_two_channels ins_streak
              searchable_two_channels thresholds_nonneg_two_channels)
    as [Ha (best & Hm & Hb)].
  rewrite match_test_streak in Hm. inversion Hm; subst best. clear Hm.
  split.
  - apply (Ha "streak"%string (Slice 0 2) 5);
      [simpl; tauto | discriminate | reflexivity | reflexivity].
  - split; [apply match_test_streak | exact (proj2 Hb)].
Defined.

(** The z-score 10 of the single cell is the candidate of [narrow] and of
    [streak]; [narrow] comes first and stays champion. *)
Lemma match_test_single (n : R) :
  match_test (mf_default n) ins_single
  = Ok (Some (Slice 0 1, Slice 0 1, 10, "narrow"%string)).
Proof.
  unfold match_test. eval_filter.
  rewrite (raw_single 10), (Rabs_pos_val 10) by lra.
  unfold Rgtb. rcompare. reflexivity.
Qed.

(** The order of the resolved shapes: the covered intervals in the order
    of [shape_dict], then [narrow], then [streak]. *)
Lemma resolve_shape_covered (x : R) (l : list R)
    (acc : Dict.t (option slice)) (shape : string) (bounds : R * R) :
  exists s,
    resolve_shape (x :: l) acc shape bounds
    = Ok (if covered (x :: l) bounds
          then Dict.set acc shape (Some s) else acc).
Proof.
  unfold resolve_shape, covered. cbn [py_min py_max rbind abs_dist map argmin].
  destruct (_ || _); [eexists; reflexivity | now exists (Slice 0 0)].
Qed.





(** ** The flagger: what every operation keeps *)

Lemma flags_kept_refl (a : INS) : flags_kept a a.
Proof. now intros t f p H. Qed.

Lemma flags_kept_trans (a b c : INS) :
  flags_kept a b -> flags_kept b c -> flags_kept a c.
Proof. intros H1 H2 t f p H. apply H2. now apply H1. Qed.

Lemma grows_refl (a : INS) : grows a a.
Proof. unfold grows. auto using flags_kept_refl. Qed.

Lemma grows_trans (a b c : INS) : grows a b -> grows b c -> grows a c.
Proof.
  intros (F1 & T1 & C1 & P1 & M1) (F2 & T2 & C2 & P2 & M2).
  unfold grows. repeat split; try congruence.
  now apply (flags_kept_trans a b c).
Qed.

Section Keeps.

Variable rel : INS -> INS -> Prop.
Hypothesis rel_refl : forall a, rel a a.
Hypothesis rel_trans : forall a b c, rel a b -> rel b c -> rel a c.

Lemma keeps_mret {A : Type} (a : A) : keeps rel (mret a).
Proof. intros ins. apply rel_refl. Qed.

Lemma keeps_mraise {A : Type} (e : exn) : keeps rel (@mraise A e).
Proof. intros ins. apply rel_refl. Qed.

Lemma keeps_modify (g : INS -> INS) :
  (forall ins, rel ins (g ins)) -> keeps rel (modify g).
Proof. intros H ins. apply H. Qed.

Lemma keeps_mbind {A B : Type} (m : M A) (k : A -> M B) :
  keeps rel m -> (forall a, keeps rel (k a)) -> keeps rel (mbind m k).
Proof.
  intros Hm Hk ins. unfold mbind. specialize (Hm ins).
  destruct (m ins) as [[a| e |] ins']; cbn [snd] in *; auto.
  apply (rel_trans _ ins'); [exact Hm | apply Hk].
Qed.

Lemma keeps_mwhen (b : bool) (m : M unit) : keeps rel m -> keeps rel (mwhen b m).
Proof. intros H. destruct b; [exact H | apply keeps_mret]. Qed.

Lemma keeps_result {A : Type} (m : M A) (ins ins' : INS) (o : outcome A) :
  keeps rel m -> m ins = (o, ins') -> rel ins ins'.
Proof. intros H E. specialize (H ins). now rewrite E in H. Qed.

End Keeps.

Lemma grows_mask_region (ts fs : slice) (ins : INS) :
  grows ins (set_metric_array ins (mask_region ts fs (metric_array ins))).
Proof.
  unfold grows. cbn. repeat split; auto.
  intros t f p H. cbn. unfold mask_region. now destruct (_ && _).
Qed.

Lemma grows_mask_channels (fs : slice) (ins : INS) :
  grows ins (set_metric_array ins (mask_channels fs (metric_array ins))).
Proof.
  unfold grows. cbn. repeat split; auto.
  intros t f p H. cbn. unfold mask_channels. now destruct (in_slice fs f).
Qed.

Lemma grows_append_event (e : logged) (ins : INS) :
  grows ins (append_event ins e).
Proof. unfold grows. cbn. repeat split; auto. now intros t f p H. Qed.

Lemma grows_set_sig_array (a : marray) (ins : INS) :
  grows ins (set_sig_array ins a).
Proof. unfold grows. cbn. repeat split; auto. now intros t f p H. Qed.

Lemma samp_thresh_grows (mf : MF) (ev : event) (rec : bool) :
  keeps grows (apply_samp_thresh_test mf ev rec).
Proof.
  intros ins. unfold apply_samp_thresh_test.
  destruct (Rgtb _ _); [apply grows_refl|].
  destruct (_ =? _)%Z; [apply grows_refl|].
  destruct (Rltb _ _); [|apply grows_refl].
  destruct rec; cbn [snd].
  - eapply grows_trans; [apply grows_mask_channels | apply grows_append_event].
  - apply grows_mask_channels.
Qed.

Lemma broadcast_step_grows (mf : MF) (ev : event) (rec : bool) (sb : string) :
  keeps grows (broadcast_step mf ev rec sb).
Proof.
  intros ins. unfold broadcast_step.
  destruct (Dict.item _ _) as [[sb_slc|]|e]; try apply grows_refl.
  destruct (negb _); [|apply grows_refl].
  destruct rec; cbn [snd].
  - eapply grows_trans; [apply grows_mask_region | apply grows_append_event].
  - apply grows_mask_region.
Qed.

Lemma freq_broadcast_grows (mf : MF) (ev : event) (rec : bool) :
  keeps grows (freq_broadcast mf ev rec).
Proof.
  unfold freq_broadcast. destruct (broadcast_dict mf);
    [|apply (keeps_mraise grows grows_refl)].
  induction (Dict.keys (broadcast_slc_dict mf)) as [|sb sbs IH];
    cbn [broadcast_loop].
  - apply (keeps_mret grows grows_refl).
  - apply (keeps_mbind grows grows_trans);
      [apply broadcast_step_grows | intros _; exact IH].
Qed.

Lemma grows_flags_kept (a b : INS) : grows a b -> flags_kept a b.
Proof. now intros [H _]. Qed.

Lemma keeps_weaken {A : Type} (m : M A) :
  keeps grows m -> keeps flags_kept m.
Proof. intros H ins. apply grows_flags_kept, H. Qed.

Section FlaggerKeeps.

Variable mean_subtract : INS -> slice -> marray.
Variable mf : MF.
Variables event_record apply_samp_thresh freq_broadcast_on : bool.

Lemma restat_flags_kept (fs : slice) (ins : INS) :
  flags_kept ins (restat mean_subtract fs ins).
Proof. unfold restat. destruct (negb _); now intros t f p H. Qed.

Lemma flag_champion_flags_kept (c : slice * slice * R * string) :
  keeps flags_kept
    (flag_champion mean_subtract mf event_record apply_samp_thresh
       freq_broadcast_on c).
Proof.
  destruct c as [[[t_max f_max] sig_max] shape_max]. unfold flag_champion.
  apply (keeps_mbind flags_kept flags_kept_trans); [|intros _].
  { apply keeps_modify. intros ins. apply grows_flags_kept, grows_mask_region. }
  apply (keeps_mbind flags_kept flags_kept_trans); [|intros _].
  { apply keeps_modify. intros ins. now intros t f p H. }
  apply (keeps_mbind flags_kept flags_kept_trans); [|intros _].
  { apply (keeps_mwhen flags_kept flags_kept_refl). apply keeps_modify.
    intros ins. apply grows_flags_kept, grows_append_event. }
  apply (keeps_mbind flags_kept flags_kept_trans); [|intros ev].
  { destruct (_ && _); [|apply (keeps_mret flags_kept flags_kept_refl)].
    apply keeps_weaken, samp_thresh_grows. }
  apply (keeps_mbind flags_kept flags_kept_trans); [|intros _].
  { apply (keeps_mwhen flags_kept flags_kept_refl).
    apply keeps_weaken, freq_broadcast_grows. }
  apply keeps_modify. intros ins. apply restat_flags_kept.
Qed.

Lemma iteration_flags_kept :
  keeps flags_kept
    (iteration mean_subtract mf event_record apply_samp_thresh
       freq_broadcast_on).
Proof.
  intros ins. unfold iteration.
  destruct (match_test mf ins) as [[c|]|e]; try apply flags_kept_refl.
  apply (keeps_mbind flags_kept flags_kept_trans);
    [apply flag_champion_flags_kept | intros _].
  apply (keeps_mret flags_kept flags_kept_refl).
Qed.

Lemma flag_loop_flags_kept (fuel : nat) :
  keeps flags_kept
    (flag_loop mean_subtract mf event_record apply_samp_thresh
       freq_broadcast_on fuel).
Proof.
  induction fuel as [|fuel IH]; cbn [flag_loop].
  - intros ins. apply flags_kept_refl.
  - apply (keeps_mbind flags_kept flags_kept_trans);
      [apply iteration_flags_kept|].
    intros [|]; [exact IH | apply (keeps_mret flags_kept flags_kept_refl)].
Qed.

Lemma apply_match_test_flags_kept (fuel : nat) :
  keeps flags_kept
    (apply_match_test mean_subtract mf event_record apply_samp_thresh
       freq_broadcast_on fuel).
Proof.
  unfold apply_match_test.
  apply (keeps_mbind flags_kept flags_kept_trans);
    [apply flag_loop_flags_kept | intros _].
  apply keeps_modify. intros ins. now intros t f p H.
Qed.

End FlaggerKeeps.

(** C6: whatever operations of the filter run on an [INS], in whatever
    order and with whatever outcome, a cell of [metric_array] that is
    flagged at the start is flagged at the end. *)
Theorem C6_flags_never_cleared (mean_subtract : INS -> slice -> marray)
    (mf : MF) (ops : list op) (ins : INS) :
  flags_kept ins (run_ops mean_subtract mf ops ins).
Proof.
  unfold run_ops. revert ins.
  induction ops as [|o ops IH]; intros ins; cbn [fold_left].
  - apply flags_kept_refl.
  - apply (flags_kept_trans _ (run_op mean_subtract mf o ins)); [|apply IH].
    destruct o as [|r s b fuel|ev r|ev r]; cbn [run_op].
    + apply flags_kept_refl.
    + apply apply_match_test_flags_kept.
    + apply keeps_weaken, samp_thresh_grows.
    + apply keeps_weaken, freq_broadcast_grows.
Qed.

(** ** C7: convergence *)

Section Convergence.

Variable mean_subtract : INS -> slice -> marray.
Variable mf : MF.
Variables event_record apply_samp_thresh freq_broadcast_on : bool.

Let iteration' :=
  iteration mean_subtract mf event_record apply_samp_thresh freq_broadcast_on.
Let flag_loop' :=
  flag_loop mean_subtract mf event_record apply_samp_thresh freq_broadcast_on.

(** A turn that leaves [count] at 0 found no champion and changed
    nothing. *)
Lemma iteration_last (ins ins' : INS) :
  iteration' ins = (Ret false, ins') ->
  match_test mf ins = Ok None /\ ins' = ins.
Proof.
  unfold iteration', iteration.
  destruct (match_test mf ins) as [[c|]|e]; try discriminate.
  - unfold mbind. destruct (flag_champion _ _ _ _ _ c ins) as [[[]| |] ?];
      discriminate.
  - intros H. inversion H. now split.
Qed.

Lemma flag_loop_done (fuel : nat) (ins ins' : INS) :
  flag_loop' fuel ins = (Ret tt, ins') -> match_test mf ins' = Ok None.
Proof.
  revert ins. induction fuel as [|fuel IH]; intros ins; [discriminate|].
  unfold flag_loop'. cbn [flag_loop]. unfold mbind at 1.
  fold iteration'.
  destruct (iteration' ins) as [[[|]| |] ins1] eqn:E; try discriminate.
  - apply IH.
  - apply iteration_last in E. destruct E as [Hm ->].
    intros H. inversion H. now subst.
Qed.

End Convergence.

(** The search reads [metric_ms] and the dimensions only. *)
Lemma match_test_backfill (mf : MF) (ins : INS) :
  match_test mf (backfill ins) = match_test mf ins.
Proof.
  unfold match_test. generalize (@None (slice * slice * R * string)).
  induction (Dict.keys (slice_dict mf)) as [|shape shapes IH]; intros best;
    [reflexivity|].
  cbn [match_loop].
  replace (match_step mf (backfill ins) best shape)
    with (match_step mf ins best shape) by reflexivity.
  destruct (match_step mf ins best shape); cbn [rbind]; auto.
Qed.

Lemma backfill_idempotent (ins : INS) : backfill (backfill ins) = backfill ins.
Proof.
  unfold backfill, set_sig_array. cbn. f_equal.
  apply functional_extensionality. intros t.
  apply functional_extensionality. intros f.
  apply functional_extensionality. intros p.
  now destruct (metric_ms ins t f p).
Qed.

(** C7: when [apply_match_test] returns, [match_test] on the [INS] it
    leaves returns [(None, None, -inf, None)], and running
    [apply_match_test] again, with whatever options, returns and leaves the
    [INS] as it is. *)
Theorem C7_convergence_idempotent
    (mean_subtract : INS -> slice -> marray) (mf : MF)
    (event_record apply_samp_thresh freq_broadcast_on : bool)
    (fuel : nat) (ins ins' : INS) :
  apply_match_test mean_subtract mf event_record apply_samp_thresh
    freq_broadcast_on fuel ins = (Ret tt, ins') ->
  match_test mf ins' = Ok None
  /\ forall (r s b : bool) (fuel' : nat),
       apply_match_test mean_subtract mf r s b (S fuel') ins' = (Ret tt, ins').
Proof.
  unfold apply_match_test at 1. unfold mbind at 1.
  destruct (flag_loop _ _ _ _ _ fuel ins) as [[[]| |] ins1] eqn:E;
    try discriminate.
  apply flag_loop_done in E. unfold modify. intros H. inversion H.
  assert (Hm : match_test mf (backfill ins1) = Ok None)
    by (now rewrite match_test_backfill).
  split; [exact Hm|].
  intros r s b fuel'. unfold apply_match_test. cbn [flag_loop].
  unfold mbind, iteration. rewrite Hm. unfold mret, modify.
  now rewrite backfill_idempotent.
Qed.

Lemma apply_match_test_single_run :
  exists ins',
    apply_match_test mean_subtract_null (mf_default 0) true false false 2
      ins_single = (Ret tt, ins').
Proof.
  unfold apply_match_test, flag_loop, iteration.
  unfold mbind at 1 2. rewrite match_test_single.
  eval_round. eval_filter. eexists. reflexivity.
Qed.

Lemma C7_convergence_idempotent_witness :
  exists ins',
    apply_match_test mean_subtract_null (mf_default 0) true false false 2
      ins_single = (Ret tt, ins')
    /\ match_test (mf_default 0) ins' = Ok None
    /\ forall (r s b : bool) (fuel' : nat),
         apply_match_test mean_subtract_null (mf_default 0) r s b (S fuel') ins'
         = (Ret tt, ins').
Proof.
  destruct apply_match_test_single_run as (ins' & Hrun).
  exists ins'. split; [exact Hrun|].
  exact (C7_convergence_idempotent mean_subtract_null (mf_default 0)
           true false false 2 ins_single ins' Hrun).
Defined.

(** ** C5: termination *)

Lemma mbind_Ret {A B : Type} (m : M A) (k : A -> M B) (ins ins' : INS)
    (b : B) :
  mbind m k ins = (Ret b, ins') ->
  exists a ins1, m ins = (Ret a, ins1) /\ k a ins1 = (Ret b, ins').
Proof.
  unfold mbind. destruct (m ins) as [[a| e |] ins1]; try discriminate.
  intros H. now exists a, ins1.
Qed.

Lemma finishes_mret {A : Type} (a : A) : finishes (mret a).
Proof. intros ins. discriminate. Qed.

Lemma finishes_modify (g : INS -> INS) : finishes (modify g).
Proof. intros ins. discriminate. Qed.

Lemma finishes_mbind {A B : Type} (m : M A) (k : A -> M B) :
  finishes m -> (forall a, finishes (k a)) -> finishes (mbind m k).
Proof.
  intros Hm Hk ins. unfold mbind. specialize (Hm ins).
  destruct (m ins) as [[a| e |] ins1]; cbn [fst] in *;
    [apply Hk | discriminate | congruence].
Qed.

Lemma finishes_mwhen (b : bool) (m : M unit) :
  finishes m -> finishes (mwhen b m).
Proof. intros H. destruct b; [exact H | apply finishes_mret]. Qed.

Lemma samp_thresh_finishes (mf : MF) (ev : event) (rec : bool) :
  finishes (apply_samp_thresh_test mf ev rec).
Proof.
  intros ins. unfold apply_samp_thresh_test.
  destruct (Rgtb _ _); [discriminate|].
  destruct (_ =? _)%Z; [discriminate|].
  destruct (Rltb _ _); [|discriminate].
  destruct rec; discriminate.
Qed.

Lemma freq_broadcast_finishes (mf : MF) (ev : event) (rec : bool) :
  finishes (freq_broadcast mf ev rec).
Proof.
  unfold freq_broadcast. destruct (broadcast_dict mf); [|discriminate].
  induction (Dict.keys (broadcast_slc_dict mf)) as [|sb sbs IH];
    cbn [broadcast_loop]; [apply finishes_mret|].
  apply finishes_mbind; [|intros _; exact IH].
  intros ins. unfold broadcast_step.
  destruct (Dict.item _ _) as [[sb_slc|]|e]; try discriminate.
  destruct (negb _); [|discriminate]. destruct rec; discriminate.
Qed.

Lemma filter_length_le {A : Type} (f g : A -> bool) (l : list A) :
  (forall y, In y l -> g y = true -> f y = true) ->
  (List.length (filter g l) <= List.length (filter f l))%nat.
Proof.
  induction l as [|y l IH]; intros H; cbn [filter]; [lia|].
  assert (IH' := IH (fun z Hz => H z (or_intror Hz))).
  destruct (g y) eqn:Eg.
  - rewrite (H y (or_introl eq_refl) Eg). cbn [List.length]. lia.
  - destruct (f y); cbn [List.length]; lia.
Qed.

Lemma filter_length_lt {A : Type} (f g : A -> bool) (l : list A) (x : A) :
  (forall y, In y l -> g y = true -> f y = true) ->
  In x l -> f x = true -> g x = false ->
  (List.length (filter g l) < List.length (filter f l))%nat.
Proof.
  induction l as [|y l IH]; intros H Hin Hf Hg; [destruct Hin|].
  cbn [filter].
  assert (Hle := filter_length_le f g l (fun z Hz => H z (or_intror Hz))).
  destruct Hin as [->|Hin].
  - rewrite Hf, Hg. cbn [List.length]. lia.
  - assert (IH' := IH (fun z Hz => H z (or_intror Hz)) Hin Hf Hg).
    destruct (g y) eqn:Eg.
    + rewrite (H y (or_introl eq_refl) Eg). cbn [List.length]. lia.
    + destruct (f y); cbn [List.length]; lia.
Qed.

Lemma cells_same_dims (a b : INS) :
  Ntimes b = Ntimes a -> Nfreqs b = Nfreqs a -> Npols b = Npols a ->
  cells b = cells a.
Proof. intros H1 H2 H3. unfold cells. now rewrite H1, H2, H3. Qed.

Lemma in_sel (s : slice) (n i : nat) :
  In i (sel s n) <-> in_slice s i = true /\ (i < n)%nat.
Proof.
  unfold sel, in_slice. rewrite in_seq, andb_true_iff.
  rewrite Nat.leb_le, Nat.ltb_lt. lia.
Qed.

Lemma unmasked_vals_nonempty (a : marray) (t p : nat) (fs : list nat) :
  unmasked_vals a t p fs <> [] ->
  exists f, In f fs /\ a t f p <> None.
Proof.
  unfold unmasked_vals. induction fs as [|f fs IH]; cbn [flat_map];
    [congruence|].
  destruct (a t f p) eqn:E.
  - intros _. exists f. split; [now left | congruence].
  - cbn [app]. intros H. destruct (IH H) as (f' & Hin & Hf').
    exists f'. split; [now right | exact Hf'].
Qed.

Lemma argmax_in {K : Type} (val : K -> option R) (keys : list K) (k : K) :
  argmax val keys = Ok k -> In k keys.
Proof.
  destruct keys as [|k0 ks]; [discriminate|].
  intros H. destruct (argmax_spec val (k0 :: ks)) as (k' & Hk' & Hin & _);
    [discriminate|].
  rewrite H in Hk'. inversion Hk'. now subst.
Qed.

(** A candidate with an unmasked significance spans an unmasked cell of
    [metric_ms]. *)
Lemma candidate_cell (mf : MF) (ins : INS) (shape : string)
    (ts fs : slice) (sig : R) :
  candidate mf ins shape = Ok (ts, fs, Some sig) ->
  exists t f p,
    In (t, f, p) (cells ins)
    /\ in_slice ts t = true /\ in_slice fs f = true
    /\ metric_ms ins t f p <> None.
Proof.
  unfold candidate. destruct (String.eqb shape "narrow").
  - unfold narrow_candidate.
    destruct (argmax _ (cells ins)) as [[[t f] p]|e] eqn:E; [|discriminate].
    cbn [rbind]. intros H. inversion H; subst. clear H.
    apply argmax_in in E. exists t, f, p. split; [exact E|].
    unfold in_slice. cbn [start stop].
    repeat split; try (apply andb_true_iff; rewrite Nat.leb_le, Nat.ltb_lt; lia).
    destruct (metric_ms ins t f p); [discriminate | discriminate].
  - unfold shape_candidate.
    destruct (Dict.item (slice_dict mf) shape) as [[slc|]|e];
      try discriminate. cbn [rbind].
    destruct (Dict.item (sig_thresh mf) shape) as [thr|e];
      [|discriminate]. cbn [rbind].
    destruct (argmax _ (time_pols ins)) as [[t p]|e] eqn:E; [|discriminate].
    cbn [rbind]. intros H. inversion H; subst. clear H.
    apply argmax_in, in_time_pols in E.
    assert (Hne : unmasked_vals (metric_ms ins) t p (sel fs (Nfreqs ins))
                  <> []).
    { intros Hnil. unfold sliced_arr, ma_mean in *. rewrite Hnil in *.
      discriminate. }
    apply unmasked_vals_nonempty in Hne. destruct Hne as (f & Hf & Hv).
    apply in_sel in Hf. exists t, f, p.
    split; [apply in_cells; lia|].
    unfold in_slice at 1. cbn [start stop].
    split; [apply andb_true_iff; rewrite Nat.leb_le, Nat.ltb_lt; lia|].
    tauto.
Qed.

Section Termination.

Variable mean_subtract : INS -> slice -> marray.
Variable mf : MF.
Variables event_record apply_samp_thresh freq_broadcast_on : bool.

Let flag_champion' :=
  flag_champion mean_subtract mf event_record apply_samp_thresh
    freq_broadcast_on.
Let iteration' :=
  iteration mean_subtract mf event_record apply_samp_thresh freq_broadcast_on.
Let flag_loop' :=
  flag_loop mean_subtract mf event_record apply_samp_thresh freq_broadcast_on.

(** A turn that flags a champion: up to the last statement flags are
    kept and the champion's region is flagged; the last statement redoes
    [metric_ms] on the champion's channels. *)
Lemma flag_champion_Ret (t_max f_max : slice) (sig_max : R)
    (shape_max : string) (ins ins' : INS) :
  flag_champion' (t_max, f_max, sig_max, shape_max) ins = (Ret tt, ins') ->
  exists mid,
    grows ins mid
    /\ (forall t f p, in_slice t_max t = true -> in_slice f_max f = true ->
          metric_array mid t f p = None)
    /\ ins' = restat mean_subtract f_max mid.
Proof.
  unfold flag_champion', flag_champion. intros H.
  apply mbind_Ret in H. destruct H as ([] & ins1 & H1 & H).
  apply mbind_Ret in H. destruct H as ([] & ins2 & H2 & H).
  apply mbind_Ret in H. destruct H as ([] & ins3 & H3 & H).
  apply mbind_Ret in H. destruct H as (ev & ins4 & H4 & H).
  apply mbind_Ret in H. destruct H as ([] & ins5 & H5 & H).
  unfold modify in H1, H. inversion H1; subst ins1. clear H1.
  inversion H; subst ins'. clear H.
  apply (keeps_result grows) in H2;
    [|apply keeps_modify; intros i; apply grows_set_sig_array].
  apply (keeps_result grows) in H3;
    [|apply (keeps_mwhen grows grows_refl), keeps_modify; intros i;
      apply grows_append_event].
  apply (keeps_result grows) in H4;
    [|destruct (_ && _);
      [apply samp_thresh_grows | apply (keeps_mret grows grows_refl)]].
  apply (keeps_result grows) in H5;
    [|apply (keeps_mwhen grows grows_refl), freq_broadcast_grows].
  assert (G : grows (set_metric_array ins
                       (mask_region t_max f_max (metric_array ins))) ins5).
  { eapply grows_trans; [exact H2|]. eapply grows_trans; [exact H3|].
    eapply grows_trans; [exact H4 | exact H5]. }
  exists ins5. split; [|split; [|reflexivity]].
  - eapply grows_trans; [apply grows_mask_region | exact G].
  - intros t f p Ht Hf. apply (grows_flags_kept _ _ G).
    cbn. unfold mask_region. now rewrite Ht, Hf.
Qed.

Lemma restat_shape (fs : slice) (ins : INS) :
  Ntimes (restat mean_subtract fs ins) = Ntimes ins
  /\ Nfreqs (restat mean_subtract fs ins) = Nfreqs ins
  /\ Npols (restat mean_subtract fs ins) = Npols ins
  /\ metric_array (restat mean_subtract fs ins) = metric_array ins.
Proof. unfold restat. now destruct (negb _). Qed.

Lemma restat_outside (fs : slice) (ins : INS) (t f p : nat) :
  in_slice fs f = false ->
  metric_ms (restat mean_subtract fs ins) t f p = metric_ms ins t f p.
Proof.
  intros H. unfold restat. destruct (negb _); cbn;
    unfold assign_channels, mask_channels; now rewrite H.
Qed.

Hypothesis masking : masks_like_source mean_subtract.
Hypothesis thresholds : thresholds_nonneg mf.

Lemma restat_inside (fs : slice) (ins : INS) (t f p : nat) :
  in_slice fs f = true -> metric_array ins t f p = None ->
  metric_ms (restat mean_subtract fs ins) t f p = None.
Proof.
  intros H Hm. unfold restat. destruct (negb _); cbn;
    unfold assign_channels, mask_channels; rewrite H; [|reflexivity].
  now apply masking.
Qed.

(** A turn that is not the last leaves fewer cells unmasked in
    [metric_array] or [metric_ms]. *)
Lemma iteration_live (ins ins' : INS) :
  iteration' ins = (Ret true, ins') ->
  (live_count ins' < live_count ins)%nat.
Proof.
  unfold iteration', iteration.
  destruct (match_test mf ins) as [[[[[t_max f_max] sig_max] shape_max]|]|e]
    eqn:Em; try discriminate.
  intros H. apply mbind_Ret in H. destruct H as ([] & ins1 & H & Hret).
  unfold mret in Hret. inversion Hret; subst ins1. clear Hret.
  apply flag_champion_Ret in H.
  destruct H as (mid & (Hk & Ht & Hf & Hp & Hms) & Hreg & ->).
  apply (match_test_candidate mf ins _ _ _ _ thresholds), candidate_cell in Em.
  destruct Em as (t & f & p & Hin & Hts & Hfs & Hv).
  destruct (restat_shape f_max mid) as (Rt & Rf & Rp & Ra).
  unfold live_count.
  rewrite (cells_same_dims ins (restat mean_subtract f_max mid))
    by congruence.
  apply (filter_length_lt _ _ _ (t, f, p)); [|exact Hin| |].
  - intros [[t' f'] p'] _. unfold live, is_masked. rewrite Ra.
    destruct (metric_array mid t' f' p') eqn:Ea.
    + intros _. destruct (metric_array ins t' f' p') eqn:Ei; [reflexivity|].
      apply Hk in Ei. congruence.
    + cbn [negb orb]. destruct (in_slice f_max f') eqn:Es.
      * now rewrite (restat_inside f_max mid t' f' p' Es Ea).
      * rewrite (restat_outside f_max mid t' f' p' Es), Hms.
        intros ->. apply orb_true_r.
  - unfold live, is_masked.
    destruct (metric_ms ins t f p); [apply orb_true_r | congruence].
  - unfold live, is_masked. rewrite Ra, (Hreg t f p Hts Hfs).
    now rewrite (restat_inside f_max mid t f p Hfs (Hreg t f p Hts Hfs)).
Qed.

Lemma iteration_finishes : finishes iteration'.
Proof.
  intros ins. unfold iteration', iteration.
  destruct (match_test mf ins) as [[[[[t_max f_max] sig_max] shape_max]|]|e];
    try discriminate.
  revert ins. apply finishes_mbind; [|intros _; apply finishes_mret].
  unfold flag_champion.
  repeat (apply finishes_mbind; [|intros ?]);
    try apply finishes_modify.
  - apply finishes_mwhen, finishes_modify.
  - destruct (_ && _); [apply samp_thresh_finishes | apply finishes_mret].
  - apply finishes_mwhen, freq_broadcast_finishes.
Qed.

(** The loop ends within as many turns as there are such cells, and one
    more. *)
Lemma flag_loop_terminates (fuel : nat) (ins : INS) :
  (live_count ins < fuel)%nat -> fst (flag_loop' fuel ins) <> OutOfFuel.
Proof.
  revert ins. induction fuel as [|fuel IH]; intros ins Hlt; [lia|].
  unfold flag_loop'. cbn [flag_loop]. unfold mbind. fold iteration'.
  pose proof (iteration_finishes ins) as Hfin.
  destruct (iteration' ins) as [[[|]| e |] ins1] eqn:E; cbn [fst] in *;
    try discriminate; [|congruence].
  apply IH. apply iteration_live in E. lia.
Qed.

End Termination.

(** Without the broadcast a turn flags nothing outside the champion's
    channels, so [metric_ms], redone on those channels, stays masked
    wherever [metric_array] is, and the champion's cell is newly flagged. *)
Section NoBroadcast.

Variable mean_subtract : INS -> slice -> marray.
Variable mf : MF.
Variables event_record apply_samp_thresh : bool.
Hypothesis masking : masks_like_source mean_subtract.
Hypothesis thresholds : thresholds_nonneg mf.

Lemma same_outside_refl (fs : slice) (a : INS) : same_outside fs a a.
Proof. now intros t f p H. Qed.

Lemma same_outside_trans (fs : slice) (a b c : INS) :
  same_outside fs a b -> same_outside fs b c -> same_outside fs a c.
Proof.
  intros H1 H2 t f p H. rewrite (H2 t f p H). now apply H1.
Qed.

Lemma samp_thresh_same_outside (ev : event) (rec : bool) :
  keeps (same_outside (ev_f ev)) (apply_samp_thresh_test mf ev rec).
Proof.
  intros ins. unfold apply_samp_thresh_test.
  destruct (Rgtb _ _); [apply same_outside_refl|].
  destruct (_ =? _)%Z; [apply same_outside_refl|].
  destruct (Rltb _ _); [|apply same_outside_refl].
  destruct rec; cbn [snd]; intros t f p H; cbn; unfold mask_channels;
    now rewrite H.
Qed.

Lemma flag_champion_same_outside (t_max f_max : slice) (sig_max : R)
    (shape_max : string) (ins ins' : INS) :
  flag_champion mean_subtract mf event_record apply_samp_thresh false
    (t_max, f_max, sig_max, shape_max) ins = (Ret tt, ins') ->
  same_outside f_max ins ins'.
Proof.
  unfold flag_champion. intros H.
  apply (keeps_result (same_outside f_max)) in H; [exact H|].
  pose proof (same_outside_refl f_max) as R.
  pose proof (same_outside_trans f_max) as T.
  apply (keeps_mbind _ T); [|intros _].
  { apply keeps_modify. intros i t f p Hf. cbn. unfold mask_region.
    rewrite Hf. now rewrite andb_false_r. }
  apply (keeps_mbind _ T); [|intros _].
  { apply keeps_modify. now intros i t f p Hf. }
  apply (keeps_mbind _ T); [|intros _].
  { apply (keeps_mwhen _ R), keeps_modify. now intros i t f p Hf. }
  apply (keeps_mbind _ T); [|intros ev].
  { destruct (_ && _); [|apply (keeps_mret _ R)].
    apply (samp_thresh_same_outside
             (Event t_max f_max shape_max (Some sig_max))). }
  apply (keeps_mbind _ T); [|intros _].
  { apply (keeps_mret _ R). }
  apply keeps_modify. intros i t f p Hf.
  now destruct (restat_shape mean_subtract f_max i) as (_ & _ & _ & ->).
Qed.

Lemma iteration_flagged (ins ins' : INS) :
  consistent ins ->
  iteration mean_subtract mf event_record apply_samp_thresh false ins
  = (Ret true, ins') ->
  (flagged_count ins < flagged_count ins')%nat /\ consistent ins'.
Proof.
  intros Hcons. unfold iteration.
  destruct (match_test mf ins) as [[[[[t_max f_max] sig_max] shape_max]|]|e]
    eqn:Em; try discriminate.
  intros H. apply mbind_Ret in H. destruct H as ([] & ins1 & H & Hret).
  unfold mret in Hret. inversion Hret; subst ins1. clear Hret.
  pose proof (flag_champion_same_outside _ _ _ _ _ _ H) as Hout.
  apply flag_champion_Ret in H.
  destruct H as (mid & (Hk & Ht & Hf & Hp & Hms) & Hreg & ->).
  apply (match_test_candidate mf ins _ _ _ _ thresholds), candidate_cell in Em.
  destruct Em as (t & f & p & Hin & Hts & Hfs & Hv).
  destruct (restat_shape mean_subtract f_max mid) as (Rt & Rf & Rp & Ra).
  assert (Hcells : cells (restat mean_subtract f_max mid) = cells ins)
    by (apply cells_same_dims; congruence).
  split.
  - unfold flagged_count. rewrite Hcells.
    apply (filter_length_lt _ _ _ (t, f, p)); [|exact Hin| |].
    + intros [[t' f'] p'] _. unfold is_masked. rewrite Ra.
      destruct (metric_array ins t' f' p') eqn:Ei; [discriminate|].
      now rewrite (Hk t' f' p' Ei).
    + unfold is_masked. now rewrite Ra, (Hreg t f p Hts Hfs).
    + unfold is_masked. destruct (metric_array ins t f p) eqn:Ei;
        [reflexivity|]. now apply Hcons in Ei.
  - intros t' f' p' Hin' Hm. rewrite Hcells in Hin'.
    destruct (in_slice f_max f') eqn:Es.
    + apply (restat_inside mean_subtract masking f_max mid t' f' p' Es).
      now rewrite <- Ra.
    + rewrite (restat_outside mean_subtract f_max mid t' f' p' Es), Hms.
      apply (Hcons t' f' p' Hin'). now rewrite <- (Hout t' f' p' Es).
Qed.

End NoBroadcast.

(** C5 (as amended): when [mean_subtract] masks what [metric_array]
    masks and no threshold is negative, every turn of the loop that is
    not the last strictly lowers the number of cells left unmasked in
    [metric_array] or [metric_ms], and [apply_match_test] ends within
    that number of turns and one more, by returning or by raising.  With
    the frequency broadcast off and [metric_ms] masked wherever
    [metric_array] is, such a turn strictly raises the number of flagged
    cells of [metric_array], and leaves [metric_ms] masked wherever
    [metric_array] is. *)
Theorem C5_apply_match_test_terminates
    (mean_subtract : INS -> slice -> marray) (mf : MF)
    (event_record apply_samp_thresh freq_broadcast_on : bool) (ins : INS) :
  masks_like_source mean_subtract ->
  thresholds_nonneg mf ->
  (forall ins',
     iteration mean_subtract mf event_record apply_samp_thresh
       freq_broadcast_on ins = (Ret true, ins') ->
     (live_count ins' < live_count ins)%nat)
  /\ (forall fuel,
        (live_count ins < fuel)%nat ->
        fst (apply_match_test mean_subtract mf event_record apply_samp_thresh
               freq_broadcast_on fuel ins) <> OutOfFuel)
  /\ (forall ins',
        consistent ins ->
        iteration mean_subtract mf event_record apply_samp_thresh false ins
        = (Ret true, ins') ->
        (flagged_count ins < flagged_count ins')%nat /\ consistent ins').
Proof.
  intros Hmask Hnn. split; [|split].
  - intros ins'. now apply iteration_live.
  - intros fuel Hlt. unfold apply_match_test.
    pose proof (flag_loop_terminates mean_subtract mf event_record
                  apply_samp_thresh freq_broadcast_on Hmask Hnn fuel ins Hlt)
      as H.
    unfold mbind.
    destruct (flag_loop _ _ _ _ _ fuel ins) as [[[]| e |] ins1];
      cbn [fst] in *; try discriminate. congruence.
  - intros ins'. now apply iteration_flagged.
Qed.

Lemma mean_subtract_null_masks : masks_like_source mean_subtract_null.
Proof. now intros ins fs t f p H. Qed.

Lemma C5_apply_match_test_terminates_witness :
  fst (apply_match_test mean_subtract_null (mf_default 0) true false false
         (S (live_count ins_single)) ins_single) <> OutOfFuel.
Proof.
  apply (C5_apply_match_test_terminates mean_subtract_null (mf_default 0)
           true false false ins_single mean_subtract_null_masks
           (thresholds_nonneg_default 0)).
  lia.
Defined.

(** The first turn on [ins_two_outliers] flags channel 0 for its z-score
    10, and the broadcast over the whole band flags channel 1 with it;
    [metric_ms] is redone on channel 0 only.  The second turn finds the
    z-score 9 of channel 1 and flags what is flagged already. *)
Lemma two_outliers_run :
  exists ins1 ins2,
    iteration mean_subtract_null mf_broadcast_streak true false true
      ins_two_outliers = (Ret true, ins1)
    /\ iteration mean_subtract_null mf_broadcast_streak true false true
         ins1 = (Ret true, ins2)
    /\ flagged_count ins_two_outliers = 0%nat
    /\ flagged_count ins1 = 2%nat
    /\ flagged_count ins2 = 2%nat.
Proof.
  eexists. eexists. split; [|split].
  - unfold iteration.
    assert (Hm : match_test mf_broadcast_streak ins_two_outliers
                 = Ok (Some (Slice 0 1, Slice 0 1, 10, "narrow"%string))).
    { unfold match_test. do 3 eval_round. reflexivity. }
    rewrite Hm. eval_filter. reflexivity.
  - unfold iteration.
    match goal with
    | |- context [match_test ?m ?i] =>
        assert (Hm : match_test m i
                     = Ok (Some (Slice 0 1, Slice 1 2, 9, "narrow"%string)))
    end.
    { unfold match_test. do 3 eval_round. reflexivity. }
    rewrite Hm. eval_filter. reflexivity.
  - repeat split.
Qed.

(** C5 (counterexample): a turn of the loop that is not the last and
    does not raise the number of flagged cells of [metric_array]. *)
Lemma C5_counterexample :
  exists ins1 ins2,
    iteration mean_subtract_null mf_broadcast_streak true false true
      ins_two_outliers = (Ret true, ins1)
    /\ iteration mean_subtract_null mf_broadcast_streak true false true
         ins1 = (Ret true, ins2)
    /\ ~ (flagged_count ins1 < flagged_count ins2)%nat.
Proof.
  destruct two_outliers_run as (ins1 & ins2 & H1 & H2 & _ & C1 & C2).
  exists ins1, ins2. split; [exact H1|]. split; [exact H2|]. lia.
Qed.

(** ** A negative threshold *)

(** The hypothesis on the thresholds is needed.  On a cube with every
    cell masked the candidate of [streak] is masked; the comparisons read
    the 0 under its mask, which is above the threshold -1, and the search
    returns it as the champion. *)
Lemma match_test_negative_threshold :
  match_test mf_negative ins_all_masked
  = Ok (Some (Slice 0 1, Slice 0 2, 0, "streak"%string)).
Proof.
  unfold match_test. eval_round. reflexivity.
Qed.

(** Flagging that champion changes no mask, so the next turn finds it
    again: the loop has no last turn. *)
Lemma iteration_negative_threshold (ins : INS) :
  Ntimes ins = 1%nat -> Nfreqs ins = 2%nat -> Npols ins = 1%nat ->
  metric_array ins = (fun _ _ _ => None) ->
  metric_ms ins = (fun _ _ _ => None) ->
  exists ins',
    iteration mean_subtract_null mf_negative true false false ins
    = (Ret true, ins')
    /\ Ntimes ins' = 1%nat /\ Nfreqs ins' = 2%nat /\ Npols ins' = 1%nat
    /\ metric_array ins' = (fun _ _ _ => None)
    /\ metric_ms ins' = (fun _ _ _ => None).
Proof.
  destruct ins as [T F P arr ms sg ev]. cbn [Ntimes Nfreqs Npols metric_array
    metric_ms]. intros -> -> -> -> ->.
  unfold iteration.
  assert (Hm : match_test mf_negative
                 (mkINS 1 2 1 (fun _ _ _ => None) (fun _ _ _ => None) sg ev)
               = Ok (Some (Slice 0 1, Slice 0 2, 0, "streak"%string))).
  { unfold match_test. eval_round. reflexivity. }
  rewrite Hm. eval_round. eexists. split; [reflexivity|].
  cbn [Ntimes Nfreqs Npols metric_array metric_ms].
  repeat split;
    apply functional_extensionality; intros t;
    apply functional_extensionality; intros f;
    apply functional_extensionality; intros p;
    repeat match goal with
    | |- context [if ?b then _ else _] => destruct b
    end; reflexivity.
Qed.

Lemma flag_loop_negative_threshold (fuel : nat) (ins : INS) :
  Ntimes ins = 1%nat -> Nfreqs ins = 2%nat -> Npols ins = 1%nat ->
  metric_array ins = (fun _ _ _ => None) ->
  metric_ms ins = (fun _ _ _ => None) ->
  fst (flag_loop mean_subtract_null mf_negative true false false fuel ins)
  = OutOfFuel.
Proof.
  revert ins. induction fuel as [|fuel IH]; intros ins Ht Hf Hp Ha Hm;
    [reflexivity|].
  destruct (iteration_negative_threshold ins Ht Hf Hp Ha Hm)
    as (ins' & Hit & Ht' & Hf' & Hp' & Ha' & Hm').
  cbn [flag_loop]. unfold mbind. rewrite Hit. now apply IH.
Qed.

(** With the threshold -1 [apply_match_test] does not end on that cube,
    whatever the number of turns it is given. *)
Lemma apply_match_test_negative_threshold (fuel : nat) :
  fst (apply_match_test mean_subtract_null mf_negative true false false
         fuel ins_all_masked) = OutOfFuel.
Proof.
  unfold apply_match_test, mbind.
  pose proof (flag_loop_negative_threshold fuel ins_all_masked
                eq_refl eq_refl eq_refl eq_refl eq_refl) as H.
  destruct (flag_loop _ _ _ _ _ fuel ins_all_masked) as [[[]| e |] ins1];
    cbn [fst] in *; try discriminate. reflexivity.
Qed.

(** * Further properties of the code *)

(** ** The shape resolver on the edges of the axis *)

(** Settles goals on absolute values of differences by cases on signs. *)
Ltac rabs_lra :=
  unfold Rabs in *;
  repeat match goal with
  | H : context [Rcase_abs ?x] |- _ => destruct (Rcase_abs x)
  | |- context [Rcase_abs ?x] => destruct (Rcase_abs x)
  end;
  lra.

Lemma get_set_cases {V : Type} (d : Dict.t V) (k k' : string) (v x : V) :
  Dict.get (Dict.set d k v) k' = Some x -> x = v \/ Dict.get d k' = Some x.
Proof.
  destruct (string_dec k k') as [<-|Hne].
  - rewrite get_set_same. intros H. inversion H. now left.
  - rewrite get_set_other by exact Hne. now right.
Qed.

Lemma argmin_bound (l : list R) (c : nat) :
  argmin l = Ok c -> (c < List.length l)%nat.
Proof.
  destruct l as [|y l]; [discriminate|]. intros H.
  destruct (argmin_spec y l) as (c' & Hc' & Hlt & _).
  rewrite H in Hc'. inversion Hc'. now subst.
Qed.

(** On an axis without channels the resolver raises as soon as there is
    an interval to resolve, and otherwise returns the special shapes
    alone, [streak] with the empty slice. *)
Theorem X_resolver_empty_axis (sd : Dict.t (R * R))
    (bd : option (Dict.t (R * R))) (narrow streak : bool) :
  _shape_slicer [] sd bd narrow streak "shape_dict"
  = match sd with
    | [] =>
        Ok ((if narrow then [("narrow"%string, None)] else [])
            ++ (if streak then [("streak"%string, Some (Slice 0 0))] else []))
    | _ :: _ => Err ValueError
    end.
Proof.
  destruct sd as [|[k b] sd]; [now destruct narrow, streak | reflexivity].
Qed.

Lemma resolve_shape_within (fa : list R) (acc acc' : Dict.t (option slice))
    (shape : string) (bounds : R * R) :
  within_axis (List.length fa) acc ->
  resolve_shape fa acc shape bounds = Ok acc' ->
  within_axis (List.length fa) acc'.
Proof.
  intros Hacc. unfold resolve_shape.
  destruct (py_min fa) as [fmin|e]; [|discriminate].
  destruct (py_max fa) as [fmax|e]; [|discriminate]. cbn [rbind].
  destruct (_ || _); [|intros H; inversion H; now subst].
  destruct (argmin (abs_dist fa _)) as [c_lo|e] eqn:Elo; [|discriminate].
  destruct (argmin (abs_dist fa (Rmax _ _))) as [c_hi|e] eqn:Ehi;
    [|discriminate].
  cbn [rbind]. intros H. inversion H; subst acc'. clear H.
  apply argmin_bound in Elo, Ehi. unfold abs_dist in Elo, Ehi.
  rewrite length_map in Elo, Ehi.
  intros k s Hget. apply get_set_cases in Hget.
  destruct Hget as [Hs|Hget]; [|now apply (Hacc k)].
  inversion Hs; subst s. cbn [start stop].
  destruct (_ && _); destruct (Rleb _ _); lia.
Qed.

Lemma resolve_shapes_within (fa : list R) (items : Dict.t (R * R)) :
  forall acc res,
    within_axis (List.length fa) acc ->
    resolve_shapes fa acc items = Ok res ->
    within_axis (List.length fa) res.
Proof.
  induction items as [|[k bounds] items IH]; intros acc res Hacc;
    cbn [resolve_shapes].
  - intros H. inversion H. now subst.
  - destruct (resolve_shape fa acc k bounds) as [acc'|e] eqn:E;
      [|discriminate].
    cbn [rbind]. apply IH. now apply (resolve_shape_within fa acc acc' k bounds).
Qed.

(** Whatever the resolver returns, for shapes or for sub-bands, every
    slice of the table starts and stops within the axis. *)
Theorem X_resolver_within_axis (fa : list R) (sd : Dict.t (R * R))
    (bd : option (Dict.t (R * R))) (narrow streak : bool)
    (input_dict : string) (d : Dict.t (option slice)) :
  _shape_slicer fa sd bd narrow streak input_dict = Ok d ->
  within_axis (List.length fa) d.
Proof.
  unfold _shape_slicer.
  destruct (getattr_dict sd bd input_dict) as [items|e]; [|discriminate].
  cbn [rbind].
  destruct (resolve_shapes fa [] items) as [res|e] eqn:E; [|discriminate].
  cbn [rbind]. intros H. inversion H; subst d. clear H.
  assert (Hres : within_axis (List.length fa) res).
  { apply (resolve_shapes_within fa items [] res); [|exact E].
    intros k s H. discriminate. }
  assert (H1 : within_axis (List.length fa)
                 (if narrow then Dict.set res "narrow" None else res)).
  { destruct narrow; [|exact Hres]. intros k s Hget.
    apply get_set_cases in Hget. destruct Hget as [H|H]; [discriminate|].
    now apply (Hres k). }
  destruct streak; [|exact H1]. intros k s Hget.
  apply get_set_cases in Hget. destruct Hget as [H|H]; [|now apply (H1 k)].
  inversion H; subst s. cbn [start stop]. lia.
Qed.

Lemma X_resolver_within_axis_witness :
  within_axis 3 [("narrow"%string, None); ("streak"%string, Some (Slice 0 3))].
Proof.
  apply (X_resolver_within_axis [1; 2; 3] [] (Some []) true true
           "shape_dict").
  reflexivity.
Defined.

(** The entry of a named interval in the table of shapes: absent when the
    interval reaches beyond both ends of the axis, else the slice the two
    nearest channels give. *)
Lemma _shape_slicer_named (fa : list R) (sd : Dict.t (R * R))
    (bd : option (Dict.t (R * R))) (narrow streak : bool)
    (name : string) (a b : R) :
  fa <> [] -> NoDup (Dict.keys sd) -> In (name, (a, b)) sd ->
  name <> "narrow"%string -> name <> "streak"%string ->
  exists fmin fmax c_lo c_hi d,
    is_min fmin fa /\ is_max fmax fa
    /\ nearest fa (Rmin a b) c_lo /\ nearest fa (Rmax a b) c_hi
    /\ _shape_slicer fa sd bd narrow streak "shape_dict" = Ok d
    /\ ((fmin <= Rmin a b \/ fmax >= Rmax a b)
        /\ (exists s, Dict.get d name = Some (Some s)
                      /\ resolved_as fa (Rmin a b) (Rmax a b) c_lo c_hi s)
        \/ ~ (fmin <= Rmin a b \/ fmax >= Rmax a b)
           /\ Dict.get d name = None).
Proof.
  intros Hne Hnd Hin Hnn Hns.
  destruct (resolve_shapes_present fa sd name a b Hne Hnd Hin [] eq_refl)
    as (fmin & fmax & c_lo & c_hi & res & Hmin & Hmax & Nlo & Nhi & Hres & Hcase).
  exists fmin, fmax, c_lo, c_hi.
  unfold _shape_slicer, getattr_dict.
  cbn [String.eqb Ascii.eqb Bool.eqb rbind].
  rewrite Hres. cbn [rbind]. eexists.
  repeat (split; [assumption|]). split; [reflexivity|].
  set (d1 := if narrow then Dict.set res "narrow" None else res).
  set (d2 := if streak then Dict.set d1 "streak" _ else d1).
  assert (Hget : Dict.get d2 name = Dict.get res name).
  { subst d2 d1. destruct streak, narrow;
      rewrite ?get_set_other by congruence; reflexivity. }
  rewrite Hget. exact Hcase.
Qed.

Lemma is_min_le (m : R) (l : list R) (i : nat) :
  is_min m l -> (i < List.length l)%nat -> m <= nth i l 0.
Proof. intros [_ H] Hi. apply H. now apply nth_In. Qed.

Lemma is_max_ge (m : R) (l : list R) (i : nat) :
  is_max m l -> (i < List.length l)%nat -> nth i l 0 <= m.
Proof. intros [_ H] Hi. apply H. now apply nth_In. Qed.

Section IncreasingAxis.

Variable fa : list R.
Hypothesis fa_increasing : increasing fa.

(** The nearest channel moves up with the frequency. *)
Lemma nearest_monotone (lo hi : R) (c_lo c_hi : nat) :
  lo <= hi -> nearest fa lo c_lo -> nearest fa hi c_hi ->
  (c_lo <= c_hi)%nat.
Proof.
  intros Hle (Hlo & _ & Hfirst) (Hhi & Hall & _).
  destruct (le_lt_dec c_lo c_hi) as [H|H]; [exact H|]. exfalso.
  specialize (Hfirst c_hi H). specialize (Hall c_lo Hlo).
  assert (Hinc : nth c_hi fa 0 < nth c_lo fa 0)
    by (apply fa_increasing; lia).
  rabs_lra.
Qed.

(** Above the last channel the nearest channel is the last one. *)
Lemma nearest_above (x : R) (c : nat) :
  (forall i, (i < List.length fa)%nat -> nth i fa 0 < x) ->
  nearest fa x c -> c = (List.length fa - 1)%nat.
Proof.
  intros Habove (Hc & Hall & _).
  destruct (Nat.eq_dec c (List.length fa - 1)) as [E|E]; [exact E|].
  exfalso. specialize (Hall (List.length fa - 1)%nat ltac:(lia)).
  assert (Hinc : nth c fa 0 < nth (List.length fa - 1) fa 0)
    by (apply fa_increasing; lia).
  pose proof (Habove c Hc). pose proof (Habove (List.length fa - 1)%nat ltac:(lia)).
  rabs_lra.
Qed.

(** Below the first channel the nearest channel is the first one. *)
Lemma nearest_below (x : R) (c : nat) :
  (forall i, (i < List.length fa)%nat -> x < nth i fa 0) ->
  nearest fa x c -> c = 0%nat.
Proof.
  intros Hbelow (Hc & _ & Hfirst).
  destruct c as [|c]; [reflexivity|]. exfalso.
  specialize (Hfirst 0%nat ltac:(lia)).
  assert (Hinc : nth 0 fa 0 < nth (S c) fa 0)
    by (apply fa_increasing; lia).
  pose proof (Hbelow 0%nat ltac:(lia)). pose proof (Hbelow (S c) Hc).
  rabs_lra.
Qed.

(** A channel at or above [lo] is not below the start of the slice. *)
Lemma resolved_start (lo hi : R) (c_lo c_hi : nat) (s : slice) (i : nat) :
  nearest fa lo c_lo -> resolved_as fa lo hi c_lo c_hi s ->
  (i < List.length fa)%nat -> lo <= nth i fa 0 -> (start s <= i)%nat.
Proof.
  intros (Hc & Hall & Hfirst) (Hdec & Hkeep & _) Hi Hlo.
  destruct (le_lt_dec c_lo i) as [Hci|Hci].
  - destruct (Rlt_dec lo (nth c_lo fa 0)) as [Hgt|Hngt].
    + destruct (Nat.eq_dec c_lo 0) as [E|E].
      * rewrite Hkeep by lia. lia.
      * rewrite Hdec by (split; [lra | lia]). lia.
    + rewrite Hkeep by (intros [H _]; lra). exact Hci.
  - (* [i] is below the nearest channel *)
    specialize (Hfirst i Hci).
    assert (Hinc : nth i fa 0 < nth c_lo fa 0)
      by (apply fa_increasing; lia).
    destruct (Nat.eq_dec (S i) c_lo) as [E|E].
    + rewrite Hdec by (split; [lra | lia]). lia.
    + exfalso.
      assert (Hmid : nth i fa 0 < nth (c_lo - 1) fa 0)
        by (apply fa_increasing; lia).
      rabs_lra.
Qed.

(** A channel at or below [hi] is below the stop of the slice. *)
Lemma resolved_stop (lo hi : R) (c_lo c_hi : nat) (s : slice) (i : nat) :
  nearest fa hi c_hi -> resolved_as fa lo hi c_lo c_hi s ->
  (i < List.length fa)%nat -> nth i fa 0 <= hi -> (i < stop s)%nat.
Proof.
  intros (Hc & Hall & Hfirst) (_ & _ & Hinc' & Hkeep) Hi Hhi.
  destruct (Rle_dec (nth c_hi fa 0) hi) as [Hle|Hgt].
  - rewrite Hinc' by exact Hle.
    destruct (le_lt_dec i c_hi) as [H|H]; [lia|]. exfalso.
    specialize (Hall i Hi).
    assert (Hinc : nth c_hi fa 0 < nth i fa 0)
      by (apply fa_increasing; lia).
    rabs_lra.
  - rewrite Hkeep by lra.
    destruct (le_lt_dec c_hi i) as [H|H]; [|exact H]. exfalso.
    destruct (Nat.eq_dec c_hi i) as [E|E]; [subst; lra|].
    assert (Hinc : nth c_hi fa 0 < nth i fa 0)
      by (apply fa_increasing; lia).
    lra.
Qed.

End IncreasingAxis.

Section NamedShape.

Variables (fa : list R) (sd : Dict.t (R * R)) (bd : option (Dict.t (R * R))).
Variables (narrow streak : bool) (name : string) (a b : R).

Hypothesis axis_nonempty : fa <> [].
Hypothesis axis_increasing : increasing fa.
Hypothesis names_distinct : NoDup (Dict.keys sd).
Hypothesis named : In (name, (a, b)) sd.
Hypothesis not_narrow : name <> "narrow"%string.
Hypothesis not_streak : name <> "streak"%string.

(** On an axis of strictly increasing frequencies the slice of a named
    interval is well formed: it does not start after it stops. *)
Theorem X_resolver_slice_ordered :
  exists d,
    _shape_slicer fa sd bd narrow streak "shape_dict" = Ok d
    /\ forall s, Dict.get d name = Some (Some s) ->
         (start s <= stop s <= List.length fa)%nat.
Proof.
  destruct (_shape_slicer_named fa sd bd narrow streak name a b
              axis_nonempty names_distinct named not_narrow not_streak)
    as (fmin & fmax & c_lo & c_hi & d & _ & _ & Nlo & Nhi & Hd & Hcase).
  exists d. split; [exact Hd|]. intros s Hs.
  destruct Hcase as [[_ (s' & Hs' & Hr)]|[_ Hn]]; [|congruence].
  rewrite Hs in Hs'. inversion Hs'; subst s'. clear Hs'.
  pose proof (nearest_monotone fa axis_increasing _ _ c_lo c_hi
                (Rminmax a b) Nlo Nhi) as Hmono.
  assert (Hbound : (c_hi < List.length fa)%nat) by (destruct Nhi; tauto).
  destruct Hr as (Hdec & Hkeep & Hinc & Hsame).
  assert (Hstart : (start s <= c_lo)%nat).
  { destruct (Rlt_dec (Rmin a b) (nth c_lo fa 0)) as [H|H];
      destruct (Nat.eq_dec c_lo 0) as [E|E];
      try (rewrite Hkeep by (intros [H1 H2]; try lra; lia); lia).
    rewrite Hdec by (split; [lra | lia]). lia. }
  assert (Hstop' : (c_hi <= stop s <= List.length fa)%nat).
  { destruct (Rle_dec (nth c_hi fa 0) (Rmax a b)) as [H|H].
    - rewrite Hinc by exact H. lia.
    - rewrite Hsame by lra. lia. }
  lia.
Qed.

(** ... and it holds every channel whose frequency lies between the two
    bounds. *)
Theorem X_resolver_slice_covers :
  exists d,
    _shape_slicer fa sd bd narrow streak "shape_dict" = Ok d
    /\ forall s i,
         Dict.get d name = Some (Some s) ->
         (i < List.length fa)%nat ->
         Rmin a b <= nth i fa 0 <= Rmax a b ->
         (start s <= i < stop s)%nat.
Proof.
  destruct (_shape_slicer_named fa sd bd narrow streak name a b
              axis_nonempty names_distinct named not_narrow not_streak)
    as (fmin & fmax & c_lo & c_hi & d & _ & _ & Nlo & Nhi & Hd & Hcase).
  exists d. split; [exact Hd|]. intros s i Hs Hi [Hlo Hhi].
  destruct Hcase as [[_ (s' & Hs' & Hr)]|[_ Hn]]; [|congruence].
  rewrite Hs in Hs'. inversion Hs'; subst s'. clear Hs'. split.
  - now apply (resolved_start fa axis_increasing _ _ c_lo c_hi s i Nlo Hr).
  - now apply (resolved_stop fa axis_increasing _ _ c_lo c_hi s i Nhi Hr).
Qed.

(** An interval that lies wholly above the axis is not left out: it
    resolves to the last channel. *)
Theorem X_resolver_above_axis :
  (forall i, (i < List.length fa)%nat -> nth i fa 0 < Rmin a b) ->
  exists d,
    _shape_slicer fa sd bd narrow streak "shape_dict" = Ok d
    /\ Dict.get d name
       = Some (Some (Slice (List.length fa - 1) (List.length fa))).
Proof.
  intros Habove.
  destruct (_shape_slicer_named fa sd bd narrow streak name a b
              axis_nonempty names_distinct named not_narrow not_streak)
    as (fmin & fmax & c_lo & c_hi & d & Hmin & _ & Nlo & Nhi & Hd & Hcase).
  exists d. split; [exact Hd|].
  assert (Hlen : (0 < List.length fa)%nat)
    by (destruct fa; [congruence | simpl; lia]).
  assert (Hcov : fmin <= Rmin a b).
  { destruct Hmin as [Hin _]. apply In_nth with (d := 0) in Hin.
    destruct Hin as (i & Hi & <-). specialize (Habove i Hi). lra. }
  destruct Hcase as [[_ (s & Hs & Hr)]|[Hn _]]; [|tauto].
  rewrite Hs. do 2 f_equal.
  pose proof (Rminmax a b) as Hmm.
  assert (Elo : c_lo = (List.length fa - 1)%nat)
    by (now apply (nearest_above fa axis_increasing (Rmin a b))).
  assert (Ehi : c_hi = (List.length fa - 1)%nat).
  { apply (nearest_above fa axis_increasing (Rmax a b)); [|exact Nhi].
    intros i Hi. specialize (Habove i Hi). lra. }
  destruct Hr as (_ & Hkeep & Hinc & _). destruct s as [s0 s1].
  cbn [start stop] in *. f_equal.
  - rewrite Hkeep; [exact Elo|]. intros [H _]. subst c_lo.
    specialize (Habove (List.length fa - 1)%nat ltac:(lia)). lra.
  - rewrite Hinc; [lia|]. subst c_hi.
    specialize (Habove (List.length fa - 1)%nat ltac:(lia)). lra.
Qed.

(** An interval that lies wholly below the axis is not left out either:
    it resolves to the empty slice at channel 0. *)
Theorem X_resolver_below_axis :
  (forall i, (i < List.length fa)%nat -> Rmax a b < nth i fa 0) ->
  exists d,
    _shape_slicer fa sd bd narrow streak "shape_dict" = Ok d
    /\ Dict.get d name = Some (Some (Slice 0 0)).
Proof.
  intros Hbelow.
  destruct (_shape_slicer_named fa sd bd narrow streak name a b
              axis_nonempty names_distinct named not_narrow not_streak)
    as (fmin & fmax & c_lo & c_hi & d & _ & Hmax & Nlo & Nhi & Hd & Hcase).
  exists d. split; [exact Hd|].
  assert (Hlen : (0 < List.length fa)%nat)
    by (destruct fa; [congruence | simpl; lia]).
  assert (Hcov : fmax >= Rmax a b).
  { destruct Hmax as [Hin _]. apply In_nth with (d := 0) in Hin.
    destruct Hin as (i & Hi & <-). specialize (Hbelow i Hi). lra. }
  destruct Hcase as [[_ (s & Hs & Hr)]|[Hn _]]; [|tauto].
  rewrite Hs. do 2 f_equal.
  pose proof (Rminmax a b) as Hmm.
  assert (Elo : c_lo = 0%nat).
  { apply (nearest_below fa axis_increasing (Rmin a b)); [|exact Nlo].
    intros i Hi. specialize (Hbelow i Hi). lra. }
  assert (Ehi : c_hi = 0%nat)
    by (now apply (nearest_below fa axis_increasing (Rmax a b))).
  destruct Hr as (_ & Hkeep & _ & Hsame). destruct s as [s0 s1].
  cbn [start stop] in *. f_equal.
  - rewrite Hkeep; [exact Elo|]. intros [_ H]. lia.
  - rewrite Hsame; [exact Ehi|]. subst c_hi.
    specialize (Hbelow 0%nat Hlen). lra.
Qed.

End NamedShape.

Lemma increasing_123 : increasing [1; 2; 3].
Proof.
  intros i j H. simpl in H.
  destruct i as [|[|[|i]]]; destruct j as [|[|[|j]]]; simpl; try lia; lra.
Qed.

Lemma nodup_band : NoDup (Dict.keys [("band"%string, (2, 3))]).
Proof. repeat constructor. simpl. tauto. Qed.

Lemma X_resolver_slice_ordered_witness :
  exists d,
    _shape_slicer [1; 2; 3] [("band", (2, 3))]%string (Some []) true true
      "shape_dict" = Ok d
    /\ forall s, Dict.get d "band"%string = Some (Some s) ->
         (start s <= stop s <= 3)%nat.
Proof.
  apply (X_resolver_slice_ordered [1; 2; 3] [("band", (2, 3))]%string
           (Some []) true true "band" 2 3).
  - discriminate.
  - exact increasing_123.
  - exact nodup_band.
  - now left.
  - discriminate.
  - discriminate.
Defined.

Lemma X_resolver_slice_covers_witness :
  exists d,
    _shape_slicer [1; 2; 3] [("band", (2, 3))]%string (Some []) true true
      "shape_dict" = Ok d
    /\ forall s i,
         Dict.get d "band"%string = Some (Some s) ->
         (i < 3)%nat ->
         Rmin 2 3 <= nth i [1; 2; 3] 0 <= Rmax 2 3 ->
         (start s <= i < stop s)%nat.
Proof.
  apply (X_resolver_slice_covers [1; 2; 3] [("band", (2, 3))]%string
           (Some []) true true "band" 2 3).
  - discriminate.
  - exact increasing_123.
  - exact nodup_band.
  - now left.
  - discriminate.
  - discriminate.
Defined.

Lemma nodup_far : forall x y : R, NoDup (Dict.keys [("far"%string, (x, y))]).
Proof. intros x y. repeat constructor. simpl. tauto. Qed.

Lemma X_resolver_above_axis_witness :
  exists d,
    _shape_slicer [1; 2; 3] [("far", (7, 8))]%string (Some []) true true
      "shape_dict" = Ok d
    /\ Dict.get d "far"%string = Some (Some (Slice 2 3)).
Proof.
  apply (X_resolver_above_axis [1; 2; 3] [("far", (7, 8))]%string
           (Some []) true true "far" 7 8).
  - discriminate.
  - exact increasing_123.
  - exact (nodup_far 7 8).
  - now left.
  - discriminate.
  - discriminate.
  - intros i Hi. simpl in Hi. unfold Rmin. destruct (Rle_dec 7 8); [|lra].
    destruct i as [|[|[|i]]]; simpl; try lia; lra.
Defined.

Lemma X_resolver_below_axis_witness :
  exists d,
    _shape_slicer [1; 2; 3] [("far", (-2, 0))]%string (Some []) true true
      "shape_dict" = Ok d
    /\ Dict.get d "far"%string = Some (Some (Slice 0 0)).
Proof.
  apply (X_resolver_below_axis [1; 2; 3] [("far", (-2, 0))]%string
           (Some []) true true "far" (-2) 0).
  - discriminate.
  - exact increasing_123.
  - exact (nodup_far (-2) 0).
  - now left.
  - discriminate.
  - discriminate.
  - intros i Hi. simpl in Hi. unfold Rmax. destruct (Rle_dec (-2) 0); [|lra].
    destruct i as [|[|[|i]]]; simpl; try lia; lra.
Defined.

(** ** The special shapes and the thresholds *)

(** [narrow] and [streak] are written last: when they are asked for, the
    table holds them with their own values even if the input dictionary
    has an interval under the same name. *)
Theorem X_resolver_special_shapes (fa : list R) (sd : Dict.t (R * R))
    (bd : option (Dict.t (R * R))) (narrow streak : bool)
    (input_dict : string) (d : Dict.t (option slice)) :
  _shape_slicer fa sd bd narrow streak input_dict = Ok d ->
  (narrow = true -> Dict.get d "narrow" = Some None)
  /\ (streak = true ->
      Dict.get d "streak" = Some (Some (Slice 0 (List.length fa)))).
Proof.
  unfold _shape_slicer.
  destruct (getattr_dict sd bd input_dict) as [items|e]; [|discriminate].
  cbn [rbind].
  destruct (resolve_shapes fa [] items) as [res|e]; [|discriminate].
  cbn [rbind]. intros H. inversion H; subst d. clear H. split.
  - intros ->. destruct streak.
    + rewrite get_set_other by discriminate. apply get_set_same.
    + apply get_set_same.
  - intros ->. apply get_set_same.
Qed.

Lemma X_resolver_special_shapes_witness :
  Dict.get [("streak"%string, Some (Slice 0 3)); ("narrow"%string, None)]
           "streak"
  = Some (Some (Slice 0 (List.length [1; 2; 3]))).
Proof.
  refine (proj2 (X_resolver_special_shapes [1; 2; 3]
                   [("streak", (2, 3))]%string (Some []) true true
                   "shape_dict" _ _) eq_refl).
  unfold _shape_slicer, getattr_dict, resolve_shapes, resolve_shape.
  cbn [String.eqb Ascii.eqb Bool.eqb rbind py_min py_max fold_left fst snd
       abs_dist map argmin argmin_from].
  unfold Rgeb, Rgtb.
  replace (Rmin 2 3) with 2 by (unfold Rmin; destruct (Rle_dec 2 3); lra).
  replace (Rmax 2 3) with 3 by (unfold Rmax; destruct (Rle_dec 2 3); lra).
  replace (Rmin (Rmin 1 2) 3) with 1
    by (unfold Rmin; repeat destruct (Rle_dec _ _); lra).
  replace (Rmax (Rmax 1 2) 3) with 3
    by (unfold Rmax; repeat destruct (Rle_dec _ _); lra).
  replace (Rabs (1 - 2)) with 1 by rabs_lra.
  replace (Rabs (2 - 2)) with 0 by rabs_lra.
  replace (Rabs (3 - 2)) with 1 by rabs_lra.
  replace (Rabs (1 - 3)) with 2 by rabs_lra.
  replace (Rabs (2 - 3)) with 1 by rabs_lra.
  replace (Rabs (3 - 3)) with 0 by rabs_lra.
  rcompare. cbn [orb argmin_from nth]. rcompare.
  cbn [argmin_from nth Nat.ltb Nat.leb andb Nat.add Nat.sub rbind].
  rcompare. cbn [andb Nat.add]. reflexivity.
Defined.

Lemma fold_set_get (r : R) (ks : list string) (acc : Dict.t R) (k : string) :
  Dict.get (fold_left (fun d shape => Dict.set d shape r) ks acc) k
  = if in_dec string_dec k ks then Some r else Dict.get acc k.
Proof.
  revert acc. induction ks as [|k0 ks IH]; intros acc; cbn [fold_left];
    [reflexivity|].
  rewrite IH. destruct (in_dec string_dec k ks) as [Hin|Hnin].
  - destruct (in_dec string_dec k (k0 :: ks)) as [_|H]; [reflexivity|].
    exfalso. apply H. now right.
  - destruct (string_dec k0 k) as [->|Hne].
    + rewrite get_set_same.
      destruct (in_dec string_dec k (k :: ks)) as [_|H]; [reflexivity|].
      exfalso. apply H. now left.
    + rewrite get_set_other by exact Hne.
      destruct (in_dec string_dec k (k0 :: ks)) as [[H|H]|_];
        [contradiction | contradiction | reflexivity].
Qed.

(** A threshold given as a number becomes the threshold of every shape
    of the table, and of nothing else. *)
Theorem X_scalar_threshold (slice_dict : Dict.t (option slice)) (r : R)
    (k : string) :
  (In k (Dict.keys slice_dict) ->
   Dict.get (broadcast_thresh slice_dict r) k = Some r)
  /\ (~ In k (Dict.keys slice_dict) ->
      Dict.get (broadcast_thresh slice_dict r) k = None).
Proof.
  unfold broadcast_thresh. rewrite fold_set_get.
  destruct (in_dec string_dec k (Dict.keys slice_dict)); split; intros H;
    try reflexivity; contradiction.
Qed.

Lemma resolve_shapes_total (fa : list R) (items : Dict.t (R * R)) :
  fa <> [] ->
  forall acc, exists res, resolve_shapes fa acc items = Ok res.
Proof.
  intros Hne. destruct fa as [|x l]; [congruence|].
  induction items as [|[k bounds] items IH]; intros acc.
  - now exists acc.
  - cbn [resolve_shapes].
    destruct (resolve_shape_covered x l acc k bounds) as (s & ->).
    cbn [rbind]. apply IH.
Qed.

Lemma forallb_false_exists {A : Type} (f : A -> bool) (l : list A) :
  forallb f l = false <-> exists x, In x l /\ f x = false.
Proof.
  induction l as [|y l IH]; cbn [forallb].
  - split; [discriminate | intros (x & [] & _)].
  - rewrite andb_false_iff, IH. split.
    + intros [H|(x & Hin & Hx)]; [exists y | exists x]; simpl; auto.
    + intros (x & [<-|Hin] & Hx); [now left | right; now exists x].
Qed.

(** On a non-empty axis the constructor ends in one of three errors:
    [ValueError] exactly for the empty configuration (no interval, neither
    [narrow] nor [streak]); [KeyError] exactly when the thresholds are a
    dictionary that lacks a shape of the table; [TypeError] in every other
    case. *)
Theorem X_init_error_kinds (fa : list R) (st : thresh_arg)
    (sd : Dict.t (R * R)) (n : R) (narrow streak : bool)
    (bd : option (Dict.t (R * R))) (bs : bool) :
  fa <> [] ->
  let empty_config := sd = [] /\ narrow = false /\ streak = false in
  let lacking :=
    exists d sl k,
      st = ThreshDict d
      /\ _shape_slicer fa sd bd narrow streak "shape_dict" = Ok sl
      /\ In k (Dict.keys sl) /\ Dict.get d k = None in
  (empty_config -> __init__ fa st sd n narrow streak bd bs = Err ValueError)
  /\ (~ empty_config -> lacking ->
      __init__ fa st sd n narrow streak bd bs = Err KeyError)
  /\ (~ empty_config -> ~ lacking ->
      __init__ fa st sd n narrow streak bd bs = Err TypeError).
Proof.
  intros Hne empty_config lacking. split; [|split].
  - intros (-> & -> & ->). reflexivity.
  - intros Hcfg (d & sl & k & -> & Hsl & Hin & Hk). unfold __init__.
    replace (_ && _ && _) with false.
    2:{ symmetry. apply not_true_is_false. intros H. apply Hcfg.
        apply andb_true_iff in H. destruct H as [H H3].
        apply andb_true_iff in H. destruct H as [H1 H2].
        destruct sd; [|discriminate]. destruct narrow, streak; try discriminate.
        now repeat split. }
    change (call__shape_slicer fa sd bd
              [PBool narrow; PBool streak; PStr "shape_dict"] [])
      with (_shape_slicer fa sd bd narrow streak "shape_dict").
    rewrite Hsl. cbn [rbind].
    replace (forallb (Dict.mem d) (Dict.keys sl)) with false; [reflexivity|].
    symmetry. apply forallb_false_exists. exists k. split; [exact Hin|].
    unfold Dict.mem. now rewrite Hk.
  - intros Hcfg Hlack. unfold __init__.
    replace (_ && _ && _) with false.
    2:{ symmetry. apply not_true_is_false. intros H. apply Hcfg.
        apply andb_true_iff in H. destruct H as [H H3].
        apply andb_true_iff in H. destruct H as [H1 H2].
        destruct sd; [|discriminate]. destruct narrow, streak; try discriminate.
        now repeat split. }
    change (call__shape_slicer fa sd bd
              [PBool narrow; PBool streak; PStr "shape_dict"] [])
      with (_shape_slicer fa sd bd narrow streak "shape_dict").
    destruct (resolve_shapes_total fa sd Hne []) as (res & Hres).
    assert (Hsl : exists sl,
              _shape_slicer fa sd bd narrow streak "shape_dict" = Ok sl).
    { unfold _shape_slicer, getattr_dict.
      cbn [String.eqb Ascii.eqb Bool.eqb rbind]. rewrite Hres. cbn [rbind].
      now eexists. }
    destruct Hsl as (sl & Hsl). rewrite Hsl. cbn [rbind].
    destruct st as [d|r]; cbn [rbind].
    + destruct (forallb (Dict.mem d) (Dict.keys sl)) eqn:E; cbn [rbind].
      * now rewrite call_with_check_overlap.
      * exfalso. apply Hlack. apply forallb_false_exists in E.
        destruct E as (k & Hin & Hk). exists d, sl, k.
        repeat split; auto. unfold Dict.mem in Hk.
        now destruct (Dict.get d k).
    + now rewrite call_with_check_overlap.
Qed.

Lemma X_init_error_kinds_witness :
  __init__ [1; 2; 3] (ThreshDict [("streak"%string, 5)]) [] 0 true true
    (Some []) false = Err KeyError.
Proof.
  refine (proj1 (proj2 (X_init_error_kinds [1; 2; 3]
                          (ThreshDict [("streak"%string, 5)]) [] 0 true true
                          (Some []) false _)) _ _).
  - discriminate.
  - intros (_ & H & _). discriminate.
  - exists [("streak"%string, 5)],
      [("narrow"%string, None); ("streak"%string, Some (Slice 0 3))],
      "narrow"%string.
    repeat split. simpl. now left.
Defined.

(** ** The outlier search on its edges *)

(** When no threshold is negative, a cube whose z-scores are all masked
    has no outlier. *)
Theorem X_match_test_all_masked (mf : MF) (ins : INS) :
  searchable mf ins ->
  thresholds_nonneg mf ->
  (forall t f p,
     (t < Ntimes ins)%nat -> (f < Nfreqs ins)%nat -> (p < Npols ins)%nat ->
     metric_ms ins t f p = None) ->
  match_test mf ins = Ok None.
Proof.
  intros Hs Hnn Hmasked.
  destruct (match_test_spec mf ins Hs) as (best & Hm & _).
  rewrite Hm. f_equal.
  destruct best as [[[[ts fs] sig] shape]|]; [exfalso | reflexivity].
  apply (match_test_candidate mf ins _ _ _ _ Hnn), candidate_cell in Hm.
  destruct Hm as (t & f & p & Hin & _ & _ & Hv).
  apply in_cells in Hin. apply Hv, Hmasked; lia.
Qed.

Lemma X_match_test_all_masked_witness :
  match_test (mf_default 0) (set_metric_ms ins_single (fun _ _ _ => None))
  = Ok None.
Proof.
  apply (X_match_test_all_masked (mf_default 0)
           (set_metric_ms ins_single (fun _ _ _ => None))).
  - exact (searchable_default_single 0).
  - exact (thresholds_nonneg_default 0).
  - reflexivity.
Defined.

Lemma match_step_total (mf : MF) (ins : INS) (best : champion)
    (shape : string) (c : slice * slice * option R) (thr : R) :
  candidate mf ins shape = Ok c ->
  Dict.get (sig_thresh mf) shape = Some thr ->
  exists best', match_step mf ins best shape = Ok best'.
Proof.
  intros Hc Ht. destruct c as [[t f] sigo].
  unfold match_step, Dict.item. rewrite Hc, Ht. cbn [rbind].
  destruct (compared shape sigo) as [s|]; [|now eexists].
  destruct (Rgtb s thr); [|now eexists].
  destruct (beats s best); now eexists.
Qed.

Lemma match_step_no_thresh (mf : MF) (ins : INS) (best : champion)
    (shape : string) :
  cells ins <> [] ->
  (shape <> "narrow"%string ->
   exists slc, Dict.get (slice_dict mf) shape = Some (Some slc)) ->
  Dict.get (sig_thresh mf) shape = None ->
  match_step mf ins best shape = Err KeyError.
Proof.
  intros Hcells Hslc Ht. unfold match_step, candidate.
  destruct (String.eqb shape "narrow") eqn:E.
  - destruct (narrow_candidate_spec ins Hcells) as (t & f & p & _ & -> & _).
    cbn [rbind]. unfold Dict.item. now rewrite Ht.
  - apply String.eqb_neq in E. destruct (Hslc E) as (slc & Hs).
    unfold shape_candidate, Dict.item. now rewrite Hs, Ht.
Qed.

Lemma match_loop_no_thresh (mf : MF) (ins : INS) (shapes : list string) :
  (0 < Ntimes ins)%nat -> (0 < Nfreqs ins)%nat -> (0 < Npols ins)%nat ->
  (forall shape, In shape shapes -> shape <> "narrow"%string ->
     exists slc, Dict.get (slice_dict mf) shape = Some (Some slc)) ->
  (exists shape, In shape shapes /\ Dict.get (sig_thresh mf) shape = None) ->
  forall best, match_loop mf ins shapes best = Err KeyError.
Proof.
  intros Ht Hf Hp.
  induction shapes as [|s shapes IH]; intros Hslc (k & Hin & Hk) best;
    [destruct Hin|].
  cbn [match_loop].
  destruct (Dict.get (sig_thresh mf) s) as [thr|] eqn:Es.
  - assert (Hc : exists c, candidate mf ins s = Ok c).
    { unfold candidate. destruct (String.eqb s "narrow") eqn:E.
      - destruct (narrow_candidate_spec ins (cells_nonempty ins Ht Hf Hp))
          as (t & f & p & _ & -> & _). now eexists.
      - apply String.eqb_neq in E.
        destruct (Hslc s (or_introl eq_refl) E) as (slc & Hs).
        destruct (shape_candidate_spec mf ins s slc thr
                    (time_pols_nonempty ins Ht Hp) Hs Es)
          as (t & p & _ & -> & _). now eexists. }
    destruct Hc as (c & Hc).
    destruct (match_step_total mf ins best s c thr Hc Es) as (best' & ->).
    cbn [rbind]. apply IH.
    + intros shape H. apply Hslc. now right.
    + destruct Hin as [<-|Hin]; [congruence|]. now exists k.
  - rewrite (match_step_no_thresh mf ins best s); auto.
    + now apply cells_nonempty.
    + intros Hn. apply Hslc; [now left | exact Hn].
Qed.

(** A shape of the table without a threshold makes the search raise
    [KeyError], wherever the shape stands in the table. *)
Theorem X_match_test_missing_threshold (mf : MF) (ins : INS) :
  (0 < Ntimes ins)%nat -> (0 < Nfreqs ins)%nat -> (0 < Npols ins)%nat ->
  (forall shape, In shape (Dict.keys (slice_dict mf)) ->
     shape <> "narrow"%string ->
     exists slc, Dict.get (slice_dict mf) shape = Some (Some slc)) ->
  (exists shape, In shape (Dict.keys (slice_dict mf))
                 /\ Dict.get (sig_thresh mf) shape = None) ->
  match_test mf ins = Err KeyError.
Proof.
  intros Ht Hf Hp Hslc Hmiss. unfold match_test.
  now apply match_loop_no_thresh.
Qed.

(** With no time sample the search raises [ValueError] on the first
    shape of the table: there is nothing to take the [argmax] of. *)
Theorem X_match_test_no_times (mf : MF) (ins : INS) (shape : string)
    (rest : list string) :
  Ntimes ins = 0%nat ->
  Dict.keys (slice_dict mf) = shape :: rest ->
  Dict.get (sig_thresh mf) shape <> None ->
  (shape <> "narrow"%string ->
   exists slc, Dict.get (slice_dict mf) shape = Some (Some slc)) ->
  match_test mf ins = Err ValueError.
Proof.
  intros Ht Hkeys Hthr Hslc. unfold match_test. rewrite Hkeys.
  cbn [match_loop]. unfold match_step, candidate.
  destruct (String.eqb shape "narrow") eqn:E.
  - unfold narrow_candidate, cells. rewrite Ht. reflexivity.
  - apply String.eqb_neq in E. destruct (Hslc E) as (slc & Hs).
    destruct (Dict.get (sig_thresh mf) shape) as [thr|] eqn:Et; [|congruence].
    unfold shape_candidate, Dict.item, time_pols. rewrite Hs, Et, Ht.
    reflexivity.
Qed.

Lemma X_match_test_missing_threshold_witness :
  match_test mf_no_streak_thresh ins_single = Err KeyError.
Proof.
  apply (X_match_test_missing_threshold mf_no_streak_thresh ins_single);
    simpl; try lia.
  - intros shape [<-|[<-|[]]] H; [congruence|]. now exists (Slice 0 3).
  - exists "streak"%string. split; [right; now left | reflexivity].
Defined.

Lemma X_match_test_no_times_witness :
  match_test (mf_default 0) ins_no_times = Err ValueError.
Proof.
  apply (X_match_test_no_times (mf_default 0) ins_no_times "narrow"
           ["streak"%string]).
  - reflexivity.
  - reflexivity.
  - discriminate.
  - intros H. congruence.
Defined.

(** ** What the search returns and what it reads *)

Lemma sliced_arr_nonneg (ins : INS) (slc : slice) (t p : nat) (v : R) :
  sliced_arr ins slc t p = Some v -> 0 <= v.
Proof.
  unfold sliced_arr. destruct (ma_mean ins slc t p) as [m|]; [|discriminate].
  intros H. inversion H. apply Rmult_le_pos; [apply Rabs_pos | apply sqrt_pos].
Qed.

(** The shape of a candidate with an unmasked significance: one time of
    the cube, a channel range that holds an unmasked cell of [metric_ms]
    at that time, a significance that is not negative. *)
Lemma candidate_shape (mf : MF) (ins : INS) (shape : string)
    (ts fs : slice) (sig : R) :
  candidate mf ins shape = Ok (ts, fs, Some sig) ->
  exists t f p,
    ts = Slice t (t + 1)
    /\ (t < Ntimes ins)%nat /\ (f < Nfreqs ins)%nat /\ (p < Npols ins)%nat
    /\ in_slice fs f = true
    /\ metric_ms ins t f p <> None
    /\ 0 <= sig.
Proof.
  unfold candidate. destruct (String.eqb shape "narrow").
  - unfold narrow_candidate.
    destruct (argmax _ (cells ins)) as [[[t f] p]|e] eqn:E; [|discriminate].
    cbn [rbind]. intros H. inversion H; subst. clear H.
    apply argmax_in, in_cells in E. exists t, f, p.
    split; [reflexivity|]. repeat (split; [lia|]).
    split; [unfold in_slice; cbn [start stop];
            apply andb_true_iff; rewrite Nat.leb_le, Nat.ltb_lt; lia|].
    destruct (metric_ms ins t f p) as [v|]; [|discriminate].
    split; [discriminate|]. cbn in H3. inversion H3. apply Rabs_pos.
  - unfold shape_candidate.
    destruct (Dict.item (slice_dict mf) shape) as [[slc|]|e];
      try discriminate. cbn [rbind].
    destruct (Dict.item (sig_thresh mf) shape) as [thr|e];
      [|discriminate]. cbn [rbind].
    destruct (argmax _ (time_pols ins)) as [[t p]|e] eqn:E; [|discriminate].
    cbn [rbind]. intros H. inversion H; subst. clear H.
    apply argmax_in, in_time_pols in E.
    assert (Hne : unmasked_vals (metric_ms ins) t p (sel fs (Nfreqs ins))
                  <> []).
    { intros Hnil. unfold sliced_arr, ma_mean in *. rewrite Hnil in *.
      discriminate. }
    apply unmasked_vals_nonempty in Hne. destruct Hne as (f & Hf & Hv).
    apply in_sel in Hf. exists t, f, p.
    destruct E as [Et Ep]. destruct Hf as [Hfs Hf].
    split; [reflexivity|]. split; [exact Et|]. split; [exact Hf|].
    split; [exact Ep|]. split; [exact Hfs|]. split; [exact Hv|].
    now apply (sliced_arr_nonneg ins fs t p).
Qed.

Lemma match_loop_champion (mf : MF) (ins : INS) (all shapes : list string)
    (best best' : champion) :
  (forall s, In s shapes -> In s all) ->
  (forall t f sig shape, best = Some (t, f, sig, shape) ->
     In shape all
     /\ exists thr, Dict.get (sig_thresh mf) shape = Some thr /\ sig > thr) ->
  match_loop mf ins shapes best = Ok best' ->
  forall t f sig shape, best' = Some (t, f, sig, shape) ->
    In shape all
    /\ exists thr, Dict.get (sig_thresh mf) shape = Some thr /\ sig > thr.
Proof.
  revert best. induction shapes as [|s shapes IH]; intros best Hsub Hb;
    cbn [match_loop].
  - intros H. inversion H. now subst.
  - destruct (match_step mf ins best s) as [best1|e] eqn:E; [|discriminate].
    cbn [rbind]. apply IH; [intros s' H'; apply Hsub; now right|].
    unfold match_step in E.
    destruct (candidate mf ins s) as [[[t f] sigo]|e]; [|discriminate].
    cbn [rbind] in E. unfold Dict.item in E.
    destruct (Dict.get (sig_thresh mf) s) as [thr|] eqn:Et; [|discriminate].
    cbn [rbind] in E.
    destruct (compared s sigo) as [v|]; [|inversion E; now subst].
    destruct (Rgtb v thr) eqn:Eg; [|inversion E; now subst].
    destruct (beats v best); inversion E; subst; [|exact Hb].
    intros t' f' sig' shape' H. inversion H; subst.
    split; [apply Hsub; now left|]. exists thr. split; [exact Et|].
    now apply Rltb_true in Eg.
Qed.

(** Whatever the cube, when no threshold of the filter is negative a
    champion the search returns is located in the cube: its time range is
    one time sample of the cube, its channel range holds, at that time, a
    cell of the cube that [metric_ms] leaves unmasked; its shape is a
    shape of the table, and its significance is not negative and strictly
    above the threshold of that shape. *)
Theorem X_champion_well_formed (mf : MF) (ins : INS) (ts fs : slice)
    (sig : R) (shape : string) :
  thresholds_nonneg mf ->
  match_test mf ins = Ok (Some (ts, fs, sig, shape)) ->
  In shape (Dict.keys (slice_dict mf))
  /\ (exists thr, Dict.get (sig_thresh mf) shape = Some thr /\ sig > thr)
  /\ 0 <= sig
  /\ exists t f p,
       ts = Slice t (t + 1)
       /\ (t < Ntimes ins)%nat /\ (f < Nfreqs ins)%nat /\ (p < Npols ins)%nat
       /\ in_slice fs f = true
       /\ metric_ms ins t f p <> None.
Proof.
  intros Hnn Hm.
  destruct (match_loop_champion mf ins (Dict.keys (slice_dict mf))
              (Dict.keys (slice_dict mf)) None (Some (ts, fs, sig, shape))
              (fun s H => H) ltac:(discriminate) Hm ts fs sig shape eq_refl)
    as (Hin & Hthr).
  apply (match_test_candidate mf ins _ _ _ _ Hnn), candidate_shape in Hm.
  destruct Hm as (t & f & p & Hts & Ht & Hf & Hp & Hs & Hv & Hsig).
  split; [exact Hin|]. split; [exact Hthr|]. split; [exact Hsig|].
  exists t, f, p. tauto.
Qed.

Lemma X_champion_well_formed_witness :
  0 <= 10
  /\ exists t f p,
       Slice 0 1 = Slice t (t + 1)
       /\ (t < 1)%nat /\ (f < 1)%nat /\ (p < 1)%nat
       /\ in_slice (Slice 0 1) f = true
       /\ metric_ms ins_single t f p <> None.
Proof.
  exact (proj2 (proj2 (X_champion_well_formed (mf_default 0) ins_single
                         (Slice 0 1) (Slice 0 1) 10 "narrow"
                         (thresholds_nonneg_default 0)
                         (match_test_single 0)))).
Defined.

Lemma match_test_frame (mf : MF) (a b : INS) :
  Ntimes a = Ntimes b -> Nfreqs a = Nfreqs b -> Npols a = Npols b ->
  metric_ms a = metric_ms b ->
  match_test mf a = match_test mf b.
Proof.
  destruct a as [Ta Fa Pa arr_a ms_a sg_a ev_a].
  destruct b as [Tb Fb Pb arr_b ms_b sg_b ev_b].
  cbn. intros -> -> -> ->.
  unfold match_test. generalize (@None (slice * slice * R * string)).
  induction (Dict.keys (slice_dict mf)) as [|shape shapes IH]; intros best;
    [reflexivity|].
  cbn [match_loop].
  replace (match_step mf (mkINS Tb Fb Pb arr_a ms_b sg_a ev_a) best shape)
    with (match_step mf (mkINS Tb Fb Pb arr_b ms_b sg_b ev_b) best shape)
    by reflexivity.
  destruct (match_step mf _ best shape); cbn [rbind]; auto.
Qed.

(** The search reads the dimensions and [metric_ms] and nothing else of
    the [INS]: two spectra that agree on them give the same result,
    whatever their flags in [metric_array], their [sig_array] and their
    event logs. *)
Theorem X_match_test_reads_metric_ms (mf : MF) (a b : INS) :
  Ntimes a = Ntimes b -> Nfreqs a = Nfreqs b -> Npols a = Npols b ->
  (forall t f p, metric_ms a t f p = metric_ms b t f p) ->
  match_test mf a = match_test mf b.
Proof.
  intros Ht Hf Hp Hms. apply match_test_frame; auto.
  apply functional_extensionality. intros t.
  apply functional_extensionality. intros f.
  apply functional_extensionality. intros p. apply Hms.
Qed.

Lemma X_match_test_reads_metric_ms_witness :
  match_test (mf_default 0)
    (set_metric_array ins_single (fun _ _ _ => None))
  = match_test (mf_default 0) ins_single.
Proof.
  apply (X_match_test_reads_metric_ms (mf_default 0)
           (set_metric_array ins_single (fun _ _ _ => None)) ins_single);
    reflexivity.
Defined.

Lemma Rsum_equal (v : R) (vs : list R) :
  Forall (eq v) vs -> Rsum vs = INR (List.length vs) * v.
Proof.
  unfold Rsum. induction 1 as [|x l Hx _ IH].
  - cbn. lra.
  - subst x. cbn [fold_right List.length]. rewrite IH, S_INR. lra.
Qed.

(** Channels that all hold the same z-score [v] give the raw
    significance [|v| * sqrt(n)], [n] being the number of unmasked
    channels; a shape with one unmasked channel gives [|v|], the
    significance [narrow] gives that cell. *)
Theorem X_raw_significance_of_equal_channels (ins : INS) (slc : slice)
    (t p : nat) (v : R) :
  let vs := unmasked_vals (metric_ms ins) t p (sel slc (Nfreqs ins)) in
  vs <> [] -> Forall (eq v) vs ->
  sliced_arr ins slc t p = Some (Rabs v * sqrt (INR (List.length vs)))
  /\ (List.length vs = 1%nat -> sliced_arr ins slc t p = Some (Rabs v)).
Proof.
  intros vs Hne Hall.
  assert (H : sliced_arr ins slc t p
              = Some (Rabs v * sqrt (INR (List.length vs)))).
  { unfold sliced_arr, ma_mean, count_unmasked. fold vs.
    destruct vs as [|x l] eqn:E; [congruence|]. rewrite <- E in *.
    rewrite (Rsum_equal v vs Hall). do 2 f_equal. f_equal.
    assert (Hn : INR (List.length vs) <> 0).
    { rewrite E. apply not_0_INR. discriminate. }
    field. exact Hn. }
  split; [exact H|]. intros H1. rewrite H, H1. cbn [INR].
  rewrite sqrt_1. f_equal. lra.
Qed.

Lemma X_raw_significance_of_equal_channels_witness :
  sliced_arr ins_single (Slice 0 3) 0 0 = Some (Rabs 10).
Proof.
  refine (proj2 (X_raw_significance_of_equal_channels ins_single (Slice 0 3)
                   0 0 10 _ _) eq_refl).
  - discriminate.
  - repeat constructor.
Defined.

(** ** What the operations leave alone *)

(** A relation between the [INS] before and after that every write to a
    field respects is kept by the operations; for the event log the writes
    happen under the recording flag only. *)
Section Fieldwise.

Variable rel : INS -> INS -> Prop.
Hypothesis rel_refl : forall a, rel a a.
Hypothesis rel_trans : forall a b c, rel a b -> rel b c -> rel a c.

Variable rec : bool.
Hypothesis rel_arr : forall ins a, rel ins (set_metric_array ins a).
Hypothesis rel_ev : rec = true -> forall ins e, rel ins (append_event ins e).

Lemma samp_thresh_keeps (mf : MF) (ev : event) :
  keeps rel (apply_samp_thresh_test mf ev rec).
Proof.
  intros ins. unfold apply_samp_thresh_test.
  destruct (Rgtb _ _); [apply rel_refl|].
  destruct (_ =? _)%Z; [apply rel_refl|].
  destruct (Rltb _ _); [|apply rel_refl].
  destruct rec eqn:E; cbn [snd].
  - eapply rel_trans; [apply rel_arr | now apply rel_ev].
  - apply rel_arr.
Qed.

Lemma freq_broadcast_keeps (mf : MF) (ev : event) :
  keeps rel (freq_broadcast mf ev rec).
Proof.
  unfold freq_broadcast. destruct (broadcast_dict mf);
    [|apply (keeps_mraise rel rel_refl)].
  induction (Dict.keys (broadcast_slc_dict mf)) as [|sb sbs IH];
    cbn [broadcast_loop]; [apply (keeps_mret rel rel_refl)|].
  apply (keeps_mbind rel rel_trans); [|intros _; exact IH].
  intros ins. unfold broadcast_step.
  destruct (Dict.item _ _) as [[sb_slc|]|e]; try apply rel_refl.
  destruct (negb _); [|apply rel_refl].
  destruct rec eqn:E; cbn [snd].
  - eapply rel_trans; [apply rel_arr | now apply rel_ev].
  - apply rel_arr.
Qed.

Hypothesis rel_sig : forall ins a, rel ins (set_sig_array ins a).
Hypothesis rel_ms : forall ins a, rel ins (set_metric_ms ins a).

Variable mean_subtract : INS -> slice -> marray.
Variable mf : MF.
Variables apply_samp_thresh freq_broadcast_on : bool.

Lemma restat_keeps (fs : slice) (ins : INS) :
  rel ins (restat mean_subtract fs ins).
Proof. unfold restat. destruct (negb _); apply rel_ms. Qed.

Lemma flag_champion_keeps (c : slice * slice * R * string) :
  keeps rel
    (flag_champion mean_subtract mf rec apply_samp_thresh freq_broadcast_on c).
Proof.
  destruct c as [[[t_max f_max] sig_max] shape_max]. unfold flag_champion.
  apply (keeps_mbind rel rel_trans); [|intros _].
  { apply keeps_modify. intros ins. apply rel_arr. }
  apply (keeps_mbind rel rel_trans); [|intros _].
  { apply keeps_modify. intros ins. apply rel_sig. }
  apply (keeps_mbind rel rel_trans); [|intros _].
  { destruct rec eqn:E; cbn [mwhen]; [|apply (keeps_mret rel rel_refl)].
    apply keeps_modify. intros ins. now apply rel_ev. }
  apply (keeps_mbind rel rel_trans); [|intros ev].
  { destruct (_ && _); [|apply (keeps_mret rel rel_refl)].
    apply samp_thresh_keeps. }
  apply (keeps_mbind rel rel_trans); [|intros _].
  { apply (keeps_mwhen rel rel_refl), freq_broadcast_keeps. }
  apply keeps_modify. intros ins. apply restat_keeps.
Qed.

Lemma apply_match_test_keeps (fuel : nat) :
  keeps rel
    (apply_match_test mean_subtract mf rec apply_samp_thresh
       freq_broadcast_on fuel).
Proof.
  unfold apply_match_test.
  apply (keeps_mbind rel rel_trans);
    [|intros _; apply keeps_modify; intros ins; apply rel_sig].
  induction fuel as [|fuel IH]; cbn [flag_loop]; [intros ins; apply rel_refl|].
  apply (keeps_mbind rel rel_trans).
  - intros ins. unfold iteration.
    destruct (match_test mf ins) as [[c|]|e]; try apply rel_refl.
    apply (keeps_mbind rel rel_trans);
      [apply flag_champion_keeps | intros _; apply (keeps_mret rel rel_refl)].
  - intros [|]; [exact IH | apply (keeps_mret rel rel_refl)].
Qed.

End Fieldwise.

Lemma log_extends_refl (a : INS) : log_extends a a.
Proof. exists []. now rewrite app_nil_r. Qed.

Lemma log_extends_same (a b : INS) :
  match_events b = match_events a -> log_extends a b.
Proof. intros H. exists []. now rewrite app_nil_r. Qed.

Lemma log_extends_trans (a b c : INS) :
  log_extends a b -> log_extends b c -> log_extends a c.
Proof.
  intros (l1 & H1) (l2 & H2). exists (l1 ++ l2).
  now rewrite H2, H1, app_assoc.
Qed.

(** The event log is append-only: whatever operations run, with whatever
    outcome, the log at the end is the log at the start followed by the
    new entries. *)
Theorem X_log_append_only (mean_subtract : INS -> slice -> marray)
    (mf : MF) (ops : list op) (ins : INS) :
  log_extends ins (run_ops mean_subtract mf ops ins).
Proof.
  unfold run_ops. revert ins.
  induction ops as [|o ops IH]; intros ins; cbn [fold_left].
  - apply log_extends_refl.
  - apply (log_extends_trans _ (run_op mean_subtract mf o ins)); [|apply IH].
    assert (Harr : forall i a, log_extends i (set_metric_array i a))
      by (intros; now apply log_extends_same).
    assert (Hev : forall r : bool, r = true ->
              forall i e, log_extends i (append_event i e))
      by (intros r _ i e; now exists [e]).
    destruct o as [|r s b fuel|ev r|ev r]; cbn [run_op].
    + apply log_extends_refl.
    + apply (apply_match_test_keeps log_extends log_extends_refl
               log_extends_trans r Harr (Hev r)).
      * intros; now apply log_extends_same.
      * intros; now apply log_extends_same.
    + apply (samp_thresh_keeps log_extends log_extends_refl
               log_extends_trans r Harr (Hev r)).
    + apply (freq_broadcast_keeps log_extends log_extends_refl
               log_extends_trans r Harr (Hev r)).
Qed.

(** With recording off in every call the event log is left as it is. *)
Theorem X_log_untouched_when_not_recording
    (mean_subtract : INS -> slice -> marray) (mf : MF) (ops : list op)
    (ins : INS) :
  Forall (fun o => records o = false) ops ->
  match_events (run_ops mean_subtract mf ops ins) = match_events ins.
Proof.
  unfold run_ops. intros Hq. revert ins.
  induction Hq as [|o ops Ho _ IH]; intros ins; cbn [fold_left];
    [reflexivity|].
  rewrite IH.
  set (rel := fun a b : INS => match_events b = match_events a).
  assert (Hrefl : forall a, rel a a) by reflexivity.
  assert (Htrans : forall a b c, rel a b -> rel b c -> rel a c)
    by (unfold rel; intros; congruence).
  assert (Harr : forall i a, rel i (set_metric_array i a)) by reflexivity.
  assert (Hev : false = true -> forall i e, rel i (append_event i e))
    by discriminate.
  destruct o as [|r s b fuel|ev r|ev r]; cbn [run_op records] in *;
    try subst r.
  - reflexivity.
  - apply (apply_match_test_keeps rel Hrefl Htrans false Harr Hev);
      reflexivity.
  - apply (samp_thresh_keeps rel Hrefl Htrans false Harr Hev).
  - apply (freq_broadcast_keeps rel Hrefl Htrans false Harr Hev).
Qed.

Lemma X_log_untouched_when_not_recording_witness :
  match_events
    (run_ops mean_subtract_null (mf_default 0)
       [OpApplyMatchTest false false false 2] ins_single)
  = [].
Proof.
  apply (X_log_untouched_when_not_recording mean_subtract_null (mf_default 0)
           [OpApplyMatchTest false false false 2] ins_single).
  repeat constructor.
Defined.

(** The sample-threshold test and the broadcaster write flags and log
    entries only: the dimensions, [metric_ms] and [sig_array] are left as
    they are, whatever the outcome. *)
Theorem X_auxiliary_tests_leave_statistics (mf : MF) (ev : event)
    (rec : bool) (ins : INS) :
  stats_untouched ins (snd (apply_samp_thresh_test mf ev rec ins))
  /\ stats_untouched ins (snd (freq_broadcast mf ev rec ins)).
Proof.
  assert (Hrefl : forall a, stats_untouched a a)
    by (intros a; unfold stats_untouched; auto).
  assert (Htrans : forall a b c,
            stats_untouched a b -> stats_untouched b c -> stats_untouched a c).
  { unfold stats_untouched. intros a b c (H1 & H2 & H3 & H4 & H5)
      (G1 & G2 & G3 & G4 & G5). repeat split; congruence. }
  assert (Harr : forall i a, stats_untouched i (set_metric_array i a))
    by (intros i a; unfold stats_untouched; cbn; auto).
  assert (Hev : rec = true -> forall i e, stats_untouched i (append_event i e))
    by (intros _ i e; unfold stats_untouched; cbn; auto).
  split.
  - apply (samp_thresh_keeps stats_untouched Hrefl Htrans rec Harr Hev).
  - apply (freq_broadcast_keeps stats_untouched Hrefl Htrans rec Harr Hev).
Qed.

(** ** One turn of the flagger *)

(** A turn that finds a champion and runs through leaves the champion's
    region (its time, its channels, every polarization) flagged in
    [metric_array], and, when [mean_subtract] masks what [metric_array]
    masks, masked in [metric_ms] as well. *)
Theorem X_turn_flags_champion (mean_subtract : INS -> slice -> marray)
    (mf : MF) (event_record apply_samp_thresh freq_broadcast_on : bool)
    (ins ins' : INS) (ts fs : slice) (sig : R) (shape : string) :
  masks_like_source mean_subtract ->
  match_test mf ins = Ok (Some (ts, fs, sig, shape)) ->
  iteration mean_subtract mf event_record apply_samp_thresh
    freq_broadcast_on ins = (Ret true, ins') ->
  forall t f p,
    in_slice ts t = true -> in_slice fs f = true ->
    metric_array ins' t f p = None /\ metric_ms ins' t f p = None.
Proof.
  intros Hmask Hm. unfold iteration. rewrite Hm. intros H.
  apply mbind_Ret in H. destruct H as ([] & ins1 & H & Hret).
  unfold mret in Hret. inversion Hret; subst ins1. clear Hret.
  apply flag_champion_Ret in H. destruct H as (mid & _ & Hreg & ->).
  intros t f p Ht Hf.
  destruct (restat_shape mean_subtract fs mid) as (_ & _ & _ & Ra).
  split.
  - rewrite Ra. now apply Hreg.
  - apply (restat_inside mean_subtract Hmask fs mid t f p Hf).
    now apply Hreg.
Qed.

Lemma X_turn_flags_champion_witness :
  exists ins',
    iteration mean_subtract_null (mf_default 0) true false false ins_single
    = (Ret true, ins')
    /\ metric_array ins' 0%nat 0%nat 0%nat = None
    /\ metric_ms ins' 0%nat 0%nat 0%nat = None.
Proof.
  assert (Hrun : exists ins',
            iteration mean_subtract_null (mf_default 0) true false false
              ins_single = (Ret true, ins')).
  { unfold iteration. rewrite match_test_single. eval_filter.
    eexists. reflexivity. }
  destruct Hrun as (ins' & Hrun). exists ins'. split; [exact Hrun|].
  exact (X_turn_flags_champion mean_subtract_null (mf_default 0) true false
           false ins_single ins' (Slice 0 1) (Slice 0 1) 10 "narrow"
           mean_subtract_null_masks (match_test_single 0) Hrun
           0%nat 0%nat 0%nat eq_refl eq_refl).
Defined.

(** A turn writes [sig_array] on the champion's region only: a cell of
    the region whose z-score is unmasked gets that z-score, as it was
    before the flagging, and every other cell of [sig_array] is left as it
    is. *)
Theorem X_turn_records_significance
    (mean_subtract : INS -> slice -> marray) (mf : MF)
    (event_record apply_samp_thresh freq_broadcast_on : bool)
    (ins ins' : INS) (ts fs : slice) (sig : R) (shape : string) :
  match_test mf ins = Ok (Some (ts, fs, sig, shape)) ->
  iteration mean_subtract mf event_record apply_samp_thresh
    freq_broadcast_on ins = (Ret true, ins') ->
  forall t f p,
    sig_array ins' t f p
    = if in_slice ts t && in_slice fs f then
        match metric_ms ins t f p with
        | Some v => Some v
        | None => sig_array ins t f p
        end
      else sig_array ins t f p.
Proof.
  intros Hm. unfold iteration. rewrite Hm. intros H.
  apply mbind_Ret in H. destruct H as ([] & ins1 & H & Hret).
  unfold mret in Hret. inversion Hret; subst ins1. clear Hret.
  unfold flag_champion in H.
  apply mbind_Ret in H. destruct H as ([] & i1 & H1 & H).
  apply mbind_Ret in H. destruct H as ([] & i2 & H2 & H).
  unfold modify in H1, H2. inversion H1; subst i1. clear H1.
  inversion H2; subst i2. clear H2.
  set (rel := fun a b : INS => sig_array b = sig_array a).
  assert (Hrefl : forall a, rel a a) by reflexivity.
  assert (Htrans : forall a b c, rel a b -> rel b c -> rel a c)
    by (unfold rel; intros; congruence).
  assert (Harr : forall i a, rel i (set_metric_array i a)) by reflexivity.
  assert (Hev : event_record = true -> forall i e, rel i (append_event i e))
    by reflexivity.
  apply (keeps_result rel) in H.
  - unfold rel in H. intros t f p. rewrite H. reflexivity.
  - apply (keeps_mbind rel Htrans); [|intros _].
    { apply (keeps_mwhen rel Hrefl), keeps_modify. reflexivity. }
    apply (keeps_mbind rel Htrans); [|intros ev].
    { destruct (_ && _); [|apply (keeps_mret rel Hrefl)].
      apply (samp_thresh_keeps rel Hrefl Htrans event_record Harr Hev). }
    apply (keeps_mbind rel Htrans); [|intros _].
    { apply (keeps_mwhen rel Hrefl).
      apply (freq_broadcast_keeps rel Hrefl Htrans event_record Harr Hev). }
    apply keeps_modify. intros i. unfold restat.
    destruct (negb (all_flagged i fs)); reflexivity.
Qed.

Lemma X_turn_records_significance_witness :
  exists ins',
    iteration mean_subtract_null (mf_default 0) true false false ins_single
    = (Ret true, ins')
    /\ sig_array ins' 0%nat 0%nat 0%nat = Some 10.
Proof.
  assert (Hrun : exists ins',
            iteration mean_subtract_null (mf_default 0) true false false
              ins_single = (Ret true, ins')).
  { unfold iteration. rewrite match_test_single. eval_filter.
    eexists. reflexivity. }
  destruct Hrun as (ins' & Hrun). exists ins'. split; [exact Hrun|].
  exact (X_turn_records_significance mean_subtract_null (mf_default 0) true
           false false ins_single ins' (Slice 0 1) (Slice 0 1) 10 "narrow"
           (match_test_single 0) Hrun 0%nat 0%nat 0%nat).
Defined.

(** When [apply_match_test] returns, [sig_array] holds the z-score of
    every cell that [metric_ms] leaves unmasked. *)
Theorem X_backfill_after_run (mean_subtract : INS -> slice -> marray)
    (mf : MF) (event_record apply_samp_thresh freq_broadcast_on : bool)
    (fuel : nat) (ins ins' : INS) :
  apply_match_test mean_subtract mf event_record apply_samp_thresh
    freq_broadcast_on fuel ins = (Ret tt, ins') ->
  forall t f p v,
    metric_ms ins' t f p = Some v -> sig_array ins' t f p = Some v.
Proof.
  unfold apply_match_test. intros H.
  apply mbind_Ret in H. destruct H as ([] & ins1 & _ & H).
  unfold modify in H. inversion H; subst ins'. clear H.
  intros t f p v Hv. cbn in *. now rewrite Hv.
Qed.

Lemma X_backfill_after_run_witness :
  exists ins',
    apply_match_test mean_subtract_null (mf_default 0) true false false 2
      ins_single = (Ret tt, ins')
    /\ forall t f p v,
         metric_ms ins' t f p = Some v -> sig_array ins' t f p = Some v.
Proof.
  destruct apply_match_test_single_run as (ins' & Hrun).
  exists ins'. split; [exact Hrun|].
  exact (X_backfill_after_run mean_subtract_null (mf_default 0) true false
           false 2 ins_single ins' Hrun).
Defined.

Lemma flag_loop_zero_threshold (mean_subtract : INS -> slice -> marray)
    (mf : MF) (event_record freq_broadcast_on : bool) (fuel : nat) :
  N_samp_thresh mf = 0 ->
  forall ins,
    flag_loop mean_subtract mf event_record true freq_broadcast_on fuel ins
    = flag_loop mean_subtract mf event_record false freq_broadcast_on fuel
        ins.
Proof.
  intros Hz. induction fuel as [|fuel IH]; intros ins; [reflexivity|].
  cbn [flag_loop]. unfold mbind.
  assert (Hit : iteration mean_subtract mf event_record true
                  freq_broadcast_on ins
                = iteration mean_subtract mf event_record false
                    freq_broadcast_on ins).
  { unfold iteration.
    destruct (match_test mf ins) as [[[[[t f] sig] shape]|]|e];
      try reflexivity.
    unfold flag_champion. rewrite Hz.
    replace (Reqb 0 0) with true by (symmetry; now apply Reqb_true).
    reflexivity. }
  rewrite Hit.
  destruct (iteration _ _ _ false _ ins) as [[[|]| e |] ins1];
    try reflexivity.
  apply IH.
Qed.

(** With [N_samp_thresh] at 0 the option [apply_samp_thresh] changes
    nothing: the sample-threshold test is not run. *)
Theorem X_zero_sample_threshold_is_off
    (mean_subtract : INS -> slice -> marray) (mf : MF)
    (event_record freq_broadcast_on : bool) (fuel : nat) (ins : INS) :
  N_samp_thresh mf = 0 ->
  apply_match_test mean_subtract mf event_record true freq_broadcast_on
    fuel ins
  = apply_match_test mean_subtract mf event_record false freq_broadcast_on
      fuel ins.
Proof.
  intros Hz. unfold apply_match_test, mbind.
  now rewrite (flag_loop_zero_threshold mean_subtract mf event_record
                 freq_broadcast_on fuel Hz ins).
Qed.

Lemma X_zero_sample_threshold_is_off_witness :
  apply_match_test mean_subtract_null (mf_default 0) true true false 2
    ins_single
  = apply_match_test mean_subtract_null (mf_default 0) true false false 2
      ins_single.
Proof.
  apply (X_zero_sample_threshold_is_off mean_subtract_null (mf_default 0)
           true false 2 ins_single).
  reflexivity.
Defined.

(** ** The sample-threshold test *)

(** The test raises [ValueError] exactly when [N_samp_thresh] is above
    the number of times, and then leaves the [INS] as it is. *)
Theorem X_samp_thresh_value_error (mf : MF) (ev : event) (rec : bool)
    (ins : INS) :
  (fst (apply_samp_thresh_test mf ev rec ins) = Raise ValueError
   <-> N_samp_thresh mf > INR (Ntimes ins))
  /\ (N_samp_thresh mf > INR (Ntimes ins) ->
      apply_samp_thresh_test mf ev rec ins = (Raise ValueError, ins)).
Proof.
  unfold apply_samp_thresh_test.
  destruct (Rgtb (N_samp_thresh mf) (INR (Ntimes ins))) eqn:E.
  - apply Rltb_true in E. split; [split; [intros _; lra | reflexivity]|].
    reflexivity.
  - apply Rltb_false in E. split; [|intros H; lra].
    split; [|intros H; lra].
    destruct (_ =? _)%Z; [discriminate|].
    destruct (Rltb _ _); [|discriminate].
    destruct rec; discriminate.
Qed.

(** When the test returns, either it hands back the event it was given
    and has changed nothing, or it hands back an event that spans all
    times on the same channels under the name [samp_thresh_] followed by
    the shape, has flagged those channels at every time and polarization,
    and has appended that event, and nothing else, to the log. *)
Theorem X_samp_thresh_postcondition (mf : MF) (ev ev' : event) (rec : bool)
    (ins ins' : INS) :
  apply_samp_thresh_test mf ev rec ins = (Ret ev', ins') ->
  (ev' = ev /\ ins' = ins)
  \/ (ev' = Event (Slice 0 (Ntimes ins)) (ev_f ev)
                  ("samp_thresh_" ++ ev_shape ev) None
      /\ (forall t f p, in_slice (ev_f ev) f = true ->
            metric_array ins' t f p = None)
      /\ (forall t f p, in_slice (ev_f ev) f = false ->
            metric_array ins' t f p = metric_array ins t f p)
      /\ match_events ins' = match_events ins ++ [Logged4 ev']).
Proof.
  unfold apply_samp_thresh_test.
  destruct (Rgtb _ _); [discriminate|].
  destruct (_ =? _)%Z; [discriminate|].
  destruct (Rltb _ _).
  - destruct rec; [|discriminate]. intros H. inversion H; subst. right.
    split; [reflexivity|]. cbn. unfold mask_channels.
    split; [intros t f p ->; reflexivity|].
    split; [intros t f p ->; reflexivity | reflexivity].
  - intros H. inversion H. now left.
Qed.

Lemma X_samp_thresh_postcondition_witness :
  let ev := Event (Slice 3 4) (Slice 0 1) "narrow" (Some 10) in
  exists ev' ins',
    apply_samp_thresh_test (mf_default (1 / 2)) ev true ins_channel0_flagged
    = (Ret ev', ins')
    /\ ((ev' = ev /\ ins' = ins_channel0_flagged)
        \/ (ev' = Event (Slice 0 4) (Slice 0 1) "samp_thresh_narrow" None
            /\ (forall t f p, in_slice (Slice 0 1) f = true ->
                  metric_array ins' t f p = None)
            /\ (forall t f p, in_slice (Slice 0 1) f = false ->
                  metric_array ins' t f p
                  = metric_array ins_channel0_flagged t f p)
            /\ match_events ins' = [] ++ [Logged4 ev'])).
Proof.
  intros ev.
  assert (Hrun : exists ev' ins',
            apply_samp_thresh_test (mf_default (1 / 2)) ev true
              ins_channel0_flagged = (Ret ev', ins')).
  { eexists. eexists.
    apply (samp_thresh_blank_recorded (mf_default (1 / 2)) ev
             ins_channel0_flagged); simpl; try lra; lia. }
  destruct Hrun as (ev' & ins' & Hrun). exists ev', ins'.
  split; [exact Hrun|].
  exact (X_samp_thresh_postcondition (mf_default (1 / 2)) ev ev' true
           ins_channel0_flagged ins' Hrun).
Defined.

(** ** The frequency broadcaster *)

(** The test on index sets is the test on intervals: the channel sets of
    two slices meet exactly when the greater start is below the lesser
    stop. *)
Theorem X_index_sets_meet_iff_overlap (a b : slice) :
  isdisjoint (index_set a) (index_set b) = false
  <-> (Nat.max (start a) (start b) < Nat.min (stop a) (stop b))%nat.
Proof.
  unfold isdisjoint. rewrite negb_false_iff, existsb_exists. split.
  - intros (i & Hi & H). apply existsb_exists in H.
    destruct H as (j & Hj & E). apply Nat.eqb_eq in E. subst j.
    apply in_index_set in Hi, Hj. lia.
  - intros H. exists (Nat.max (start a) (start b)).
    split; [apply in_index_set; lia|].
    apply existsb_exists. exists (Nat.max (start a) (start b)).
    split; [apply in_index_set; lia | apply Nat.eqb_refl].
Qed.

Lemma broadcast_loop_cells (mf : MF) (ev : event) (rec : bool)
    (sbs : list string) :
  forall ins ins',
    broadcast_loop mf ev rec sbs ins = (Ret tt, ins') ->
    forall t f p,
      (metric_array ins' t f p = None
       <-> metric_array ins t f p = None
           \/ (in_slice (ev_t ev) t = true
               /\ exists sb sl,
                    In sb sbs
                    /\ Dict.get (broadcast_slc_dict mf) sb = Some (Some sl)
                    /\ isdisjoint (index_set (ev_f ev)) (index_set sl) = false
                    /\ in_slice sl f = true))
      /\ (forall v, metric_array ins' t f p = Some v ->
            metric_array ins t f p = Some v).
Proof.
  induction sbs as [|sb sbs IH]; intros ins ins'; cbn [broadcast_loop].
  - unfold mret. intros H. inversion H; subst ins'. intros t f p. split.
    + split; [now left | intros [H'|(_ & sb & sl & [] & _)]; exact H'].
    + auto.
  - intros H. apply mbind_Ret in H. destruct H as ([] & mid & Hstep & Hrest).
    specialize (IH mid ins' Hrest). intros t f p.
    destruct (IH t f p) as [IHmask IHval]. clear IH.
    unfold broadcast_step, Dict.item in Hstep.
    destruct (Dict.get (broadcast_slc_dict mf) sb) as [[sl|]|] eqn:Eg;
      try discriminate.
    destruct (isdisjoint (index_set (ev_f ev)) (index_set sl)) eqn:Ed;
      cbn [negb] in Hstep.
    + (* no common channel: this sub-band changes nothing *)
      inversion Hstep; subst mid. clear Hstep. split; [|exact IHval].
      rewrite IHmask. split.
      * intros [H|(Ht & sb' & sl' & Hin & Hg & Hd & Hf)]; [now left|].
        right. split; [exact Ht|]. exists sb', sl'. repeat split; auto.
        now right.
      * intros [H|(Ht & sb' & sl' & [<-|Hin] & Hg & Hd & Hf)]; [now left| |].
        -- rewrite Eg in Hg. inversion Hg; subst sl'. congruence.
        -- right. split; [exact Ht|]. now exists sb', sl'.
    + (* the sub-band is flagged at the times of the event *)
      assert (Hmid : metric_array mid
                     = mask_region (ev_t ev) sl (metric_array ins))
        by (destruct rec; inversion Hstep; reflexivity).
      clear Hstep. split.
      * rewrite IHmask, Hmid. unfold mask_region. split.
        -- intros [H|(Ht & sb' & sl' & Hin & Hg & Hd & Hf)].
           ++ destruct (in_slice (ev_t ev) t && in_slice sl f) eqn:E;
                [|now left].
              apply andb_true_iff in E. right. split; [tauto|].
              exists sb, sl. repeat split; auto; [now left | tauto].
           ++ right. split; [exact Ht|]. exists sb', sl'.
              repeat split; auto. now right.
        -- intros [H|(Ht & sb' & sl' & [<-|Hin] & Hg & Hd & Hf)].
           ++ left. now destruct (_ && _).
           ++ rewrite Eg in Hg. inversion Hg; subst sl'.
              left. now rewrite Ht, Hf.
           ++ right. split; [exact Ht|]. now exists sb', sl'.
      * intros v Hv. apply IHval in Hv. rewrite Hmid in Hv.
        unfold mask_region in Hv. now destruct (_ && _).
Qed.

(** When the broadcaster returns, the cells it has flagged are exactly
    those at the times of the event in the channels of the sub-bands the
    event meets, at every polarization; no other flag changes and the
    values of the cells left unflagged are kept. *)
Theorem X_freq_broadcast_cells (mf : MF) (ev : event) (rec : bool)
    (ins ins' : INS) :
  freq_broadcast mf ev rec ins = (Ret tt, ins') ->
  forall t f p,
    (metric_array ins' t f p = None
     <-> metric_array ins t f p = None
         \/ (in_slice (ev_t ev) t = true
             /\ exists sb sl, hit_by mf ev sb sl /\ in_slice sl f = true))
    /\ (forall v, metric_array ins' t f p = Some v ->
          metric_array ins t f p = Some v).
Proof.
  unfold freq_broadcast. destruct (broadcast_dict mf) as [bd|];
    [|discriminate].
  intros H t f p.
  destruct (broadcast_loop_cells mf ev rec _ ins ins' H t f p) as [Hm Hv].
  split; [|exact Hv]. rewrite Hm. unfold hit_by. split.
  - intros [H'|(Ht & sb & sl & Hin & Hg & Hd & Hf)]; [now left|].
    right. split; [exact Ht|]. now exists sb, sl.
  - intros [H'|(Ht & sb & sl & (Hin & Hg & Hd) & Hf)]; [now left|].
    right. split; [exact Ht|]. now exists sb, sl.
Qed.

Lemma X_freq_broadcast_cells_witness :
  let ev := Event (Slice 0 1) (Slice 0 1) "narrow" (Some 10) in
  exists ins',
    freq_broadcast mf_broadcast_streak ev true ins_two_outliers
    = (Ret tt, ins')
    /\ (metric_array ins' 0%nat 1%nat 0%nat = None
        <-> metric_array ins_two_outliers 0%nat 1%nat 0%nat = None
            \/ (in_slice (Slice 0 1) 0 = true
                /\ exists sb sl,
                     hit_by mf_broadcast_streak ev sb sl
                     /\ in_slice sl 1 = true)).
Proof.
  intros ev.
  assert (Hrun : exists ins',
            freq_broadcast mf_broadcast_streak ev true ins_two_outliers
            = (Ret tt, ins')) by (eexists; reflexivity).
  destruct Hrun as (ins' & Hrun). exists ins'. split; [exact Hrun|].
  exact (proj1 (X_freq_broadcast_cells mf_broadcast_streak ev true
                  ins_two_outliers ins' Hrun 0%nat 1%nat 0%nat)).
Defined.

Lemma broadcast_loop_outcome (mf : MF) (ev : event) (rec rec' : bool)
    (sbs : list string) :
  forall a b,
    fst (broadcast_loop mf ev rec sbs a)
    = fst (broadcast_loop mf ev rec' sbs b).
Proof.
  induction sbs as [|sb sbs IH]; intros a b; [reflexivity|].
  cbn [broadcast_loop]. unfold mbind, broadcast_step.
  destruct (Dict.item (broadcast_slc_dict mf) sb) as [[sl|]|e];
    try reflexivity.
  destruct (negb _); [destruct rec, rec'|]; apply IH.
Qed.

(** Broadcasting an event a second time flags nothing new: the second
    call returns as the first did and leaves [metric_array] as the first
    left it. *)
Theorem X_freq_broadcast_idempotent (mf : MF) (ev : event) (rec rec' : bool)
    (ins ins1 : INS) :
  freq_broadcast mf ev rec ins = (Ret tt, ins1) ->
  exists ins2,
    freq_broadcast mf ev rec' ins1 = (Ret tt, ins2)
    /\ forall t f p, metric_array ins2 t f p = metric_array ins1 t f p.
Proof.
  intros H1.
  assert (H2 : exists ins2, freq_broadcast mf ev rec' ins1 = (Ret tt, ins2)).
  { unfold freq_broadcast in *. destruct (broadcast_dict mf) as [bd|];
      [|discriminate].
    pose proof (broadcast_loop_outcome mf ev rec rec'
                  (Dict.keys (broadcast_slc_dict mf)) ins ins1) as Ho.
    rewrite H1 in Ho. cbn [fst] in Ho.
    destruct (broadcast_loop mf ev rec' _ ins1) as [[[]| e |] ins2];
      try discriminate.
    now exists ins2. }
  destruct H2 as (ins2 & H2). exists ins2. split; [exact H2|].
  intros t f p. unfold freq_broadcast in H1, H2.
  destruct (broadcast_dict mf) as [bd|]; [|discriminate].
  destruct (broadcast_loop_cells mf ev rec _ ins ins1 H1 t f p) as [M1 V1].
  destruct (broadcast_loop_cells mf ev rec' _ ins1 ins2 H2 t f p)
    as [M2 V2].
  destruct (metric_array ins2 t f p) as [v|] eqn:E2.
  - symmetry. now apply V2.
  - destruct (proj1 M2 eq_refl) as [E|Hhit]; [now rewrite E|].
    symmetry. apply M1. now right.
Qed.

Lemma X_freq_broadcast_idempotent_witness :
  let ev := Event (Slice 0 1) (Slice 0 1) "narrow" (Some 10) in
  exists ins1 ins2,
    freq_broadcast mf_broadcast_streak ev true ins_two_outliers
    = (Ret tt, ins1)
    /\ freq_broadcast mf_broadcast_streak ev false ins1 = (Ret tt, ins2)
    /\ forall t f p, metric_array ins2 t f p = metric_array ins1 t f p.
Proof.
  intros ev.
  assert (Hrun : exists ins1,
            freq_broadcast mf_broadcast_streak ev true ins_two_outliers
            = (Ret tt, ins1)) by (eexists; reflexivity).
  destruct Hrun as (ins1 & Hrun).
  destruct (X_freq_broadcast_idempotent mf_broadcast_streak ev true false
              ins_two_outliers ins1 Hrun) as (ins2 & H2 & Hsame).
  exists ins1, ins2. split; [exact Hrun|]. split; [exact H2 | exact Hsame].
Defined.

(** ** Packaging *)

Lemma string_app_assoc (a b c : string) :
  ((a ++ b) ++ c = a ++ b ++ c)%string.
Proof. induction a as [|x a IH]; cbn; [reflexivity | now rewrite IH]. Qed.

Lemma startswith_app (p s : string) : startswith p (p ++ s) = true.
Proof.
  induction p as [|a p IH]; cbn; [reflexivity|].
  now rewrite Ascii.eqb_refl, IH.
Qed.

Lemma startswith_occurs (p s : string) :
  startswith p s = true -> exists post, s = (p ++ post)%string.
Proof.
  revert s. induction p as [|a p IH]; intros s; cbn.
  - intros _. now exists s.
  - destruct s as [|b s]; [discriminate|]. intros H.
    apply andb_true_iff in H. destruct H as [Hab Hp].
    apply Ascii.eqb_eq in Hab. subst b.
    destruct (IH s Hp) as (post & ->). now exists post.
Qed.

Lemma delete_all_skip (old pre s : string) :
  delete_all old (String.length pre) (pre ++ s) = delete_all old 0 s.
Proof. induction pre as [|c pre IH]; cbn; [reflexivity | exact IH]. Qed.

Lemma delete_all_prefix (old s : string) :
  old <> EmptyString ->
  delete_all old 0 (old ++ s) = delete_all old 0 s.
Proof.
  intros Hne. destruct old as [|a o]; [congruence|].
  change ((String a o ++ s)%string) with (String a (o ++ s)).
  cbn [delete_all].
  change (String a (o ++ s)) with ((String a o ++ s)%string).
  rewrite startswith_app.
  replace (String.length (String a o) - 1)%nat with (String.length o)
    by (cbn [String.length]; lia).
  apply delete_all_skip.
Qed.

Lemma delete_all_absent (old s : string) :
  old <> EmptyString -> ~ occurs old s -> delete_all old 0 s = s.
Proof.
  intros Hne. induction s as [|c s IH]; intros Hno; [reflexivity|].
  cbn [delete_all].
  destruct (startswith old (String c s)) eqn:E.
  - exfalso. apply startswith_occurs in E. destruct E as (post & E).
    apply Hno. exists EmptyString, post. exact E.
  - f_equal. apply IH. intros (pre & post & ->). apply Hno.
    now exists (String c pre), post.
Qed.

Lemma package_dir_files_length (package_dir path : string)
    (filenames paths : list string) :
  List.length (package_dir_files package_dir path filenames paths)
  = (List.length paths + List.length filenames)%nat.
Proof.
  revert path paths. induction filenames as [|fn fns IH]; intros path paths;
    cbn [package_dir_files List.length]; [lia|].
  rewrite IH, length_app. cbn. lia.
Qed.

(** [package_files] lists one path for every file name of the walk, no
    more and no less. *)
Theorem X_package_files_count
    (walk : string -> list (string * list string * list string))
    (package_dir subdirectory : string) :
  List.length (package_files walk package_dir subdirectory)
  = list_sum
      (map (fun triple : string * list string * list string =>
              List.length (snd triple))
           (walk (os_path_join package_dir subdirectory))).
Proof.
  unfold package_files.
  generalize (walk (os_path_join package_dir subdirectory)). intros triples.
  assert (H : forall paths,
            List.length
              (fold_left
                 (fun paths (triple : string * list string * list string) =>
                    let '(path, directories, filenames) := triple in
                    package_dir_files package_dir path filenames paths)
                 triples paths)
            = (List.length paths
               + list_sum (map (fun triple : string * list string * list string
                                => List.length (snd triple)) triples))%nat).
  { induction triples as [|[[path ds] fns] triples IH]; intros paths;
      cbn [fold_left map list_sum fold_right snd]; [lia|].
    rewrite IH, package_dir_files_length. unfold list_sum. lia. }
  now rewrite H.
Qed.

Lemma package_dir_files_relative (package_dir rel path : string)
    (filenames paths : list string) :
  ~ occurs (package_dir ++ "/") rel ->
  rel <> EmptyString -> endswith_sep rel = false ->
  Forall (fun fn => startswith "/" fn = false) filenames ->
  path = rel \/ path = (package_dir ++ "/" ++ rel)%string ->
  package_dir_files package_dir path filenames paths
  = paths ++ map (fun fn => (rel ++ "/" ++ fn)%string) filenames.
Proof.
  intros Hno Hne Hend Hfns. revert path paths.
  induction Hfns as [|fn fns Hfn _ IH]; intros path paths Hpath.
  - cbn. now rewrite app_nil_r.
  - cbn [package_dir_files map].
    assert (Hold : (package_dir ++ "/")%string <> EmptyString)
      by (destruct package_dir; discriminate).
    assert (Hrep : replace_with_empty path (package_dir ++ "/") = rel).
    { unfold replace_with_empty.
      destruct ((package_dir ++ "/")%string) as [|a o] eqn:E; [congruence|].
      rewrite <- E in *. destruct Hpath as [->| ->].
      - now apply delete_all_absent.
      - rewrite <- string_app_assoc, delete_all_prefix by exact Hold.
        now apply delete_all_absent. }
    rewrite Hrep. rewrite (IH rel) by now left.
    rewrite <- app_assoc. cbn [app]. do 2 f_equal.
    unfold os_path_join. rewrite Hfn.
    destruct rel as [|c r]; [congruence|]. now rewrite Hend.
Qed.

(** When every directory of the walk is [package_dir/rel] for a
    non-empty [rel] that does not end in a slash and in which
    [package_dir/] does not occur, and no file name starts with a slash,
    the paths listed are the [rel/filename], in the order of the walk. *)
Theorem X_package_files_relative
    (walk : string -> list (string * list string * list string))
    (package_dir subdirectory : string)
    (rels : list (string * list string * list string)) :
  walk (os_path_join package_dir subdirectory)
  = map (fun r : string * list string * list string =>
           let '(rel, directories, filenames) := r in
           ((package_dir ++ "/" ++ rel)%string, directories, filenames))
        rels ->
  Forall (fun r : string * list string * list string =>
            let '(rel, directories, filenames) := r in
            ~ occurs (package_dir ++ "/") rel
            /\ rel <> EmptyString /\ endswith_sep rel = false
            /\ Forall (fun fn => startswith "/" fn = false) filenames)
         rels ->
  package_files walk package_dir subdirectory
  = flat_map (fun r : string * list string * list string =>
                let '(rel, directories, filenames) := r in
                map (fun fn => (rel ++ "/" ++ fn)%string) filenames)
             rels.
Proof.
  intros Hwalk Hrels. unfold package_files. rewrite Hwalk. clear Hwalk.
  assert (H : forall paths,
            fold_left
              (fun paths (triple : string * list string * list string) =>
                 let '(path, directories, filenames) := triple in
                 package_dir_files package_dir path filenames paths)
              (map (fun r : string * list string * list string =>
                      let '(rel, directories, filenames) := r in
                      ((package_dir ++ "/" ++ rel)%string, directories,
                       filenames)) rels)
              paths
            = paths
              ++ flat_map (fun r : string * list string * list string =>
                             let '(rel, directories, filenames) := r in
                             map (fun fn => (rel ++ "/" ++ fn)%string)
                                 filenames)
                          rels).
  { induction Hrels as [|[[rel ds] fns] rels (Hno & Hne & Hend & Hfns) _ IH];
      intros paths; cbn [map fold_left flat_map].
    - now rewrite app_nil_r.
    - rewrite (package_dir_files_relative package_dir rel) by auto.
      rewrite IH. now rewrite <- app_assoc. }
  exact (H []).
Qed.

Lemma occurs_occursb (old s : string) : occurs old s -> occursb old s = true.
Proof.
  intros (pre & post & ->). induction pre as [|c pre IH].
  - cbn [append]. destruct (old ++ post)%string eqn:E;
      cbn [occursb]; rewrite <- E, startswith_app; reflexivity.
  - change ((String c pre ++ old ++ post)%string)
      with (String c (pre ++ old ++ post)).
    cbn [occursb]. rewrite IH. apply orb_true_r.
Qed.

Lemma X_package_files_relative_witness :
  package_files
    (fun _ => [("SSINS/data", ["sub"], ["a.yaml"; "b.yaml"]);
               ("SSINS/data/sub", [], ["c.txt"])]%string)
    "SSINS" "data"
  = ["data/a.yaml"; "data/b.yaml"; "data/sub/c.txt"]%string.
Proof.
  apply (X_package_files_relative
           (fun _ => [("SSINS/data", ["sub"], ["a.yaml"; "b.yaml"]);
                      ("SSINS/data/sub", [], ["c.txt"])]%string)
           "SSINS" "data"
           [("data", ["sub"], ["a.yaml"; "b.yaml"]);
            ("data/sub", [], ["c.txt"])]%string).
  - reflexivity.
  - repeat constructor; try discriminate;
      intros H; apply occurs_occursb in H; discriminate.
Defined.
